(** * ColorDir: a shallow embedding of [c.cpp] and [hdir.h]

    ColorDir is a directory lister: it parses its command line, scans one
    directory level, classifies the entries by extension, sorts them,
    renders them either one per line or as a grid, and prints a summary.

    The development follows the program bottom-up:
    - strings, escape sequences and the [double] arithmetic of [formatSize];
    - [FileType], [categorizeFile], [getColor];
    - the sort order of [listDirectoryContents];
    - [displayMultiColumn], [printEntry], [listDirectoryContents];
    - [showError], [parseTargets], [main].

    Text written to [std::cout] is a [string] of bytes.  Calls that end the
    process ([std::exit], an uncaught exception, an integer division by
    zero) are results of their own, see [termination]. *)

From Stdlib Require Import ZArith Lia Ascii.
From stdpp Require Import base decidable option list sorting strings pretty gmap.

Local Open Scope Z_scope.

(** ** Strings *)

(** [std::string::length]. *)
Definition length_Z (s : string) : Z := Z.of_nat (String.length s).

(** The escape character that starts every ANSI colour sequence ([\033]). *)
Definition ESC : string := String "027" "".

(** [std::endl]: a line feed (flushing is not observable here). *)
Definition endl : string := String "010" "".

(** The double quote character, for the one help line that prints it. *)
Definition dquote : string := String "034" "".

Fixpoint concat_strings (l : list string) : string :=
  match l with
  | [] => ""
  | s :: l => s +:+ concat_strings l
  end.

(** [n] copies of [s]. *)
Fixpoint repeat_string (n : nat) (s : string) : string :=
  match n with
  | O => ""
  | S n => s +:+ repeat_string n s
  end.

(** [std::setw(w) << std::left << s]: [s] followed by spaces up to width
    [w]; a longer [s] is written whole. *)
Definition setw_left (w : nat) (s : string) : string :=
  s +:+ repeat_string (w - String.length s) " ".

(** [::tolower] in the "C" locale, on one byte. *)
Definition tolower (c : ascii) : ascii :=
  let n := N_of_ascii c in
  if ((65 <=? n) && (n <=? 90))%N then ascii_of_N (n + 32) else c.

(** [toLower]: [std::transform] with [::tolower]. *)
Fixpoint toLower (str : string) : string :=
  match str with
  | EmptyString => EmptyString
  | String c s => String (tolower c) (toLower s)
  end.

(** [needle] is a prefix of [s]. *)
Fixpoint is_prefix (needle s : string) : bool :=
  match needle, s with
  | EmptyString, _ => true
  | String a n, String b s => if Ascii.eqb a b then is_prefix n s else false
  | String _ _, EmptyString => false
  end.

(** [s.find(needle) != npos]. *)
Fixpoint contains (needle s : string) : bool :=
  is_prefix needle s ||
  match s with
  | EmptyString => false
  | String _ s => contains needle s
  end.

(** [s.find(c) != npos] for one character. *)
Fixpoint contains_char (c : ascii) (s : string) : bool :=
  match s with
  | EmptyString => false
  | String a s => Ascii.eqb a c || contains_char c s
  end.

(** ** The [double] arithmetic of [formatSize]

    [formatSize] converts its [uintmax_t] argument to [double], divides by
    1024 until the value is below 1024 and prints it with [std::to_string].
    Every value on that path is an integer divided by a power of two, so the
    IEEE arithmetic is reproduced exactly on integers: a [dyadic] is
    [num / 2 ^ shift]. *)

Record dyadic := Dyadic { num : Z; shift : Z }.

(** [uintmax_t] is 64 bits wide. *)
Definition UINTMAX_MAX : Z := 2 ^ 64 - 1.

(** Rounding of a quotient [n / d] to the nearest integer, ties to even
    (the default IEEE rounding, also what [printf] applies). *)
Definition round_half_even (n d : Z) : Z :=
  let q := n / d in
  let r := n mod d in
  if 2 * r <? d then q
  else if d <? 2 * r then q + 1
  else if Z.even q then q else q + 1.

(** The conversion [double reducedSize = size]: integers below [2 ^ 53] are
    exact, larger ones are rounded to 53 significant bits.  The result is
    again an integer. *)
Definition to_double (n : Z) : Z :=
  if n <? 2 ^ 53 then n
  else
    let e := Z.log2 n - 52 in
    round_half_even n (2 ^ e) * 2 ^ e.

(** [reducedSize >= 1024]. *)
Definition ge_1024 (x : dyadic) : bool := 1024 * 2 ^ shift x <=? num x.

(** [reducedSize /= 1024]: exact, only the exponent changes. *)
Definition div_1024 (x : dyadic) : dyadic :=
  {| num := num x; shift := shift x + 10 |}.

(** [std::to_string(int)]. *)
Definition to_string_int (n : Z) : string := pretty n.

Definition digit (d : Z) : ascii := ascii_of_N (Z.to_N (48 + d mod 10)).

(** [std::to_string(double)] is [printf("%f")]: the value rounded to six
    decimals, the integer part, a point, and exactly six digits. *)
Definition to_string_double (x : dyadic) : string :=
  let scaled := round_half_even (num x * 10 ^ 6) (2 ^ shift x) in
  let f := scaled mod 10 ^ 6 in
  to_string_int (scaled / 10 ^ 6) +:+ "." +:+
  String (digit (f / 100000)) (String (digit (f / 10000))
  (String (digit (f / 1000)) (String (digit (f / 100))
  (String (digit (f / 10)) (String (digit f) ""))))).

(** ** [formatSize] (hdir.h) *)

Definition baseUnits : list string :=
  ["KB"; "MB"; "GB"; "TB"; "PB"; "EB"; "ZB"; "YB"].

(** The [while] loop of [formatSize].  [fuel] bounds the number of
    iterations; [reduce_loop_exit] shows that the bound used by
    [formatSize] is never hit. *)
Fixpoint reduce_loop (fuel : nat) (reducedSize : dyadic) (unitIndex : Z)
  : dyadic * Z :=
  match fuel with
  | O => (reducedSize, unitIndex)
  | S fuel =>
      if ge_1024 reducedSize
      then reduce_loop fuel (div_1024 reducedSize) (unitIndex + 1)
      else (reducedSize, unitIndex)
  end.

(** The state after the loop: [reducedSize] and [unitIndex]. *)
Definition reduced (size : Z) : dyadic * Z :=
  let d := to_double size in
  reduce_loop (Z.to_nat (Z.log2 d)) {| num := d; shift := 0 |} (-1).

Definition reducedSize_of (size : Z) : dyadic := fst (reduced size).
Definition unitIndex_of (size : Z) : Z := snd (reduced size).

(** The selection of the unit: [baseUnits[unitIndex]] below 7, else a
    letter computed from ['Z']. *)
Definition unit_of_index (unitIndex : Z) : string :=
  if unitIndex <? 7 then nth (Z.to_nat unitIndex) baseUnits ""
  else String (ascii_of_N (Z.to_N ((90 + (unitIndex - 6)) mod 256))) "B".

(** The numeric part: [std::to_string(reducedSize).substr(0, 5)]. *)
Definition numeric_of (size : Z) : string :=
  String.substring 0 5 (to_string_double (reducedSize_of size)).

Definition formatSize (size : Z) : string :=
  if size <? 1024 then to_string_int size +:+ " B"
  else numeric_of size +:+ " " +:+ unit_of_index (unitIndex_of size).

(** ** File types and directory entries *)

(** [enum class FileType], in declaration order. *)
Inductive FileType :=
| Programming | Text | Video | Picture | Hidden | Executable | Compressed
| Other.

Global Instance FileType_eq_dec : EqDecision FileType.
Proof. solve_decision. Defined.

(** The value of the enumerator, which [operator<] on [FileType] compares. *)
Definition FileType_ord (t : FileType) : Z :=
  match t with
  | Programming => 0 | Text => 1 | Video => 2 | Picture => 3 | Hidden => 4
  | Executable => 5 | Compressed => 6 | Other => 7
  end.

(** What the program reads of one path besides its kind: the file name,
    the [st_mode] word of [stat] ([None] when [stat] fails, as on a dangling
    link) and the modification time. *)
Record meta := Meta { filename : string; st_mode : option Z; mtime : Z }.

#[local] Set Warnings "-register-all".

(** A directory tree as [fs::directory_iterator] shows it.
    - [Regular] is what [is_regular_file] accepts: a regular file, or a
      symbolic link to one, with the size that [file_size] reports;
    - [Directory], [DirectoryLink] and [Unreadable] are what
      [is_directory] accepts (it follows symbolic links): a directory; a
      symbolic link that leads to a directory, with the content of that
      directory; and a directory that [opendir] refuses to open for lack
      of permission;
    - [Special] is everything else: a fifo, a socket, a device, a dangling
      link.
    The children of a directory are in iteration order.  Trees are
    finite: links that close a cycle are not represented. *)
Inductive entry :=
| Regular (m : meta) (size : Z)
| Special (m : meta)
| Directory (m : meta) (children : list entry)
| DirectoryLink (m : meta) (children : list entry)
| Unreadable (m : meta).

Definition entry_meta (e : entry) : meta :=
  match e with
  | Regular m _ | Special m | Directory m _ | DirectoryLink m _
  | Unreadable m => m
  end.

(** [entry.path().filename().string()]. *)
Definition name_of (e : entry) : string := filename (entry_meta e).

Definition is_directory (e : entry) : bool :=
  match e with
  | Directory _ _ | DirectoryLink _ _ | Unreadable _ => true
  | _ => false
  end.

Definition is_regular_file (e : entry) : bool :=
  match e with Regular _ _ => true | _ => false end.

(** [path.extension()] of a file name (libstdc++): from the last dot on,
    unless that dot is the first character or the name is "." or "..". *)
Fixpoint last_dot_suffix (s : string) : option string :=
  match s with
  | EmptyString => None
  | String c s' =>
      match last_dot_suffix s' with
      | Some e => Some e
      | None => if Ascii.eqb c "." then Some s else None
      end
  end.

Definition extension (name : string) : string :=
  match name with
  | EmptyString => ""
  | String c rest =>
      if (String.length name <=? 2)%nat && Ascii.eqb c "." then ""
      else default "" (last_dot_suffix rest)
  end.

(** ** [getPermissions] (c.cpp) *)

Definition S_IFMT : Z := 61440.   (* 0170000 *)
Definition S_IFDIR : Z := 16384.  (* 0040000 *)
Definition S_IRUSR : Z := 256.
Definition S_IWUSR : Z := 128.
Definition S_IXUSR : Z := 64.
Definition S_IRGRP : Z := 32.
Definition S_IWGRP : Z := 16.
Definition S_IXGRP : Z := 8.
Definition S_IROTH : Z := 4.
Definition S_IWOTH : Z := 2.
Definition S_IXOTH : Z := 1.

Definition S_ISDIR (mode : Z) : bool := Z.land mode S_IFMT =? S_IFDIR.

Definition perm_char (mode bit : Z) (c : string) : string :=
  if Z.land mode bit =? 0 then "-" else c.

(** [info] is what [stat] returned, [None] when it failed. *)
Definition getPermissions (info : option Z) : string :=
  match info with
  | None => "?????????"
  | Some mode =>
      (if S_ISDIR mode then "d" else "-") +:+
      perm_char mode S_IRUSR "r" +:+ perm_char mode S_IWUSR "w" +:+
      perm_char mode S_IXUSR "x" +:+ perm_char mode S_IRGRP "r" +:+
      perm_char mode S_IWGRP "w" +:+ perm_char mode S_IXGRP "x" +:+
      perm_char mode S_IROTH "r" +:+ perm_char mode S_IWOTH "w" +:+
      perm_char mode S_IXOTH "x"
  end.

(** ** [categorizeFile] (c.cpp) *)

Definition programmingExtensions : gset string :=
  list_to_set
    [".cpp"; ".h"; ".py"; ".java"; ".cs"; ".js"; ".php"; ".hs"; ".rs"; ".clj";
     ".sh"; ".pl"; ".lua"; ".erl"; ".ex"; ".exs"; ".scala"; ".d"; ".go";
     ".nim"; ".lisp"; ".cl"; ".f90"; ".f95"; ".vhdl"; ".verilog"; ".coffee";
     ".racket"; ".dart"; ".tcl"; ".hlsl"].

Definition textExtensions : gset string :=
  list_to_set
    [".txt"; ".md"; ".rtf"; ".log"; ".ini"; ".conf"; ".config"; ".nfo";
     ".readme"; ".html"; ".htm"; ".bak"; ".asc"; ".diff"; ".lst"; ".srt";
     ".mdown"; ".text"; ".out"; ".memo"; ".patch"; ".logfile"; ".po"; ".dat";
     ".env"; ".sh"; ".doc"].

Definition videoExtensions : gset string :=
  list_to_set
    [".mp4"; ".mkv"; ".avi"; ".mov"; ".wmv"; ".flv"; ".webm"; ".mpeg";
     ".mpg"; ".m4v"; ".3gp"; ".ogv"; ".vob"; ".ts"; ".m2ts"; ".divx"; ".rm";
     ".rmvb"; ".asf"; ".swf"; ".mxf"; ".hevc"; ".avchd"; ".mts"; ".ogm";
     ".amv"; ".drc"; ".yuv"; ".h264"; ".h265"].

Definition pictureExtensions : gset string :=
  list_to_set
    [".jpg"; ".jpeg"; ".png"; ".gif"; ".bmp"; ".tiff"; ".tif"; ".webp";
     ".svg"; ".ico"; ".raw"; ".xpm"; ".ppm"; ".pgm"; ".pbm"; ".heic";
     ".heif"].

Definition compressedExtensions : gset string :=
  list_to_set
    [".zip"; ".tar"; ".gz"; ".bz2"; ".xz"; ".7z"; ".rar"; ".zst"; ".lz4";
     ".tar.gz"; ".tar.bz2"; ".tar.xz"; ".tgz"; ".tbz2"; ".txz"; ".tar.zst";
     ".tzst"; ".tar.lz4"; ".tlz4"; ".jar"; ".war"; ".ear"; ".cab"; ".deb";
     ".rpm"; ".apk"; ".dmg"; ".iso"; ".img"; ".appimage"].

(** [set.count(x)] as a truth value. *)
Definition count (set : gset string) (x : string) : bool :=
  bool_decide (x ∈ set).

(** [(perms & fs::perms::owner_exec) != fs::perms::none].  The test is
    only reached for a regular file, whose status is known. *)
Definition owner_exec (m : meta) : bool :=
  match st_mode m with
  | Some mode => negb (Z.land mode S_IXUSR =? 0)
  | None => false
  end.

Definition categorizeFile (e : entry) : FileType :=
  let extension := toLower (extension (name_of e)) in
  if is_regular_file e then
    if count programmingExtensions extension then Programming
    else if count textExtensions extension then Text
    else if count videoExtensions extension then Video
    else if count pictureExtensions extension then Picture
    else if count compressedExtensions extension then Compressed
    else if owner_exec (entry_meta e) then Executable
    else Other
  else Other.

(** ** [getColor] and the glyphs (c.cpp) *)

Definition getColor (type : FileType) (isDirectory : bool) : string :=
  if isDirectory then ESC +:+ "[1;34m"
  else match type with
       | Programming => ESC +:+ "[0;36m"
       | Text => ESC +:+ "[0;32m"
       | Video => ESC +:+ "[0;35m"
       | Picture => ESC +:+ "[0;33m"
       | Compressed => ESC +:+ "[1;31m"
       | Hidden => ESC +:+ "[1;30m"
       | Executable => ESC +:+ "[1;36m"
       | Other => ESC +:+ "[0m"
       end.

(** The glyph chosen by the [switch] that [printEntry] and
    [displayMultiColumn] both contain.  The literals are the bytes of the
    source file. *)
Definition emoji_of (type : FileType) (isDirectory : bool) : string :=
  if isDirectory then "üìÇ "
  else match type with
       | Programming => "üíª "
       | Text => "üìú "
       | Video => "üé¨ "
       | Picture => "üñºÔ∏è "
       | Executable => "‚öôÔ∏è "
       | Compressed => "üéÅ "
       | _ => "üìÑ "
       end.

(** [isHidden], and the same test in [printEntry]: the first byte of the
    file name is a dot ([s[0]] of an empty string is the terminating
    zero). *)
Definition isHidden (e : entry) : bool :=
  match name_of e with
  | String c _ => Ascii.eqb c "."
  | EmptyString => false
  end.

(** ** Library functions and process results *)

(** The requirement of [std::sort] on its comparator. *)
Definition strict_weak_order {A} (comp : A → A → bool) : Prop :=
  (∀ a, comp a a = false) ∧
  (∀ a b c, comp a b = true → comp b c = true → comp a c = true) ∧
  (∀ a b c, comp a b = false → comp b a = false →
            comp b c = false → comp c b = false →
            comp a c = false ∧ comp c a = false).

(** What the C and C++ libraries contribute.
    - [fnmatch pattern name] is [fnmatch(pattern, name, FNM_PATHNAME) == 0];
    - [put_time t] is the text of [std::put_time(std::localtime(&t),
      "%Y-%m-%d %H:%M:%S")];
    - [std_sort] is [std::sort], known by its postcondition only: for a
      strict weak order the result holds the same elements and no element
      is less than one before it. *)
Class Library := {
  fnmatch : string → string → bool;
  put_time : Z → string;
  std_sort : ∀ {A : Type}, (A → A → bool) → list A → list A;
  std_sort_Permutation : ∀ {A} (comp : A → A → bool) l,
    strict_weak_order comp → std_sort comp l ≡ₚ l;
  std_sort_sorted : ∀ {A} (comp : A → A → bool) l,
    strict_weak_order comp →
    StronglySorted (λ a b, comp b a = false) (std_sort comp l)
}.

(** How a run ends. *)
Inductive termination :=
| Exit (status : Z)   (* [return] from [main], or [std::exit] *)
| Uncaught            (* an exception leaves [main] *)
| DivisionByZero      (* integer division by zero *)
| OutOfRange          (* a vector read past its end *)
| OutOfFuel.          (* recursion bound of the model, see [fuel_for] *)

Global Instance termination_eq_dec : EqDecision termination.
Proof. solve_decision. Defined.

Inductive result (A : Type) :=
| Ret (a : A)
| Stop (t : termination).
Global Arguments Ret {A} a.
Global Arguments Stop {A} t.

(** A computation that writes to [std::cout]: the text written, and the
    value it returns unless the process ended first. *)
Definition io (A : Type) : Type := string * result A.

Global Instance io_ret : MRet io := λ A a, ("", Ret a).

Global Instance io_bind : MBind io := λ A B f c,
  match c with
  | (out, Ret a) => let '(out', r) := f a in (out +:+ out', r)
  | (out, Stop t) => (out, Stop t)
  end.

Global Arguments io_ret : simpl never.
Global Arguments io_bind : simpl never.

(** [std::cout << s]. *)
Definition write (s : string) : io unit := (s, Ret tt).

Definition stop {A} (t : termination) : io A := ("", Stop t).

(** A [for] loop over a container, with the variables it updates. *)
Fixpoint fold_io {A S : Type} (f : S → A → io S) (l : list A) (s : S)
  : io S :=
  match l with
  | [] => mret s
  | x :: l => s' ← f s x; fold_io f l s'
  end.

Definition for_each {A} (l : list A) (f : A → io unit) : io unit :=
  fold_io (λ _ x, f x) l tt.

(** ** The sort order of one directory level (c.cpp) *)

(** [std::string::operator<]: bytes compared as unsigned values. *)
Definition string_lt (a b : string) : bool := String.ltb a b.

(** The comparator of the [directories] vector. *)
Definition directory_less (a b : entry) : bool :=
  string_lt (toLower (name_of a)) (toLower (name_of b)).

(** The comparator of the [files] vector. *)
Definition file_less (a b : entry) : bool :=
  let typeA := categorizeFile a in
  let typeB := categorizeFile b in
  if negb (bool_decide (typeA = typeB))
  then FileType_ord typeA <? FileType_ord typeB
  else string_lt (toLower (name_of a)) (toLower (name_of b)).

(** ** [calculateDirectorySize] (c.cpp) *)

(** Addition of [uintmax_t]. *)
Definition uintmax_add (a b : Z) : Z := (a + b) mod 2 ^ 64.

(** [entry.file_size()] where it does not throw. *)
Definition file_size (e : entry) : Z :=
  match e with Regular _ size => size | _ => 0 end.

(** What [fs::recursive_directory_iterator] visits below a directory:
    every child, and after a directory its own content.  Without
    [follow_directory_symlink] it does not descend into a link to a
    directory, and with [skip_permission_denied] it passes over a
    directory that it cannot open. *)
Fixpoint descendants (e : entry) : list entry :=
  e :: match e with
       | Directory _ children => children ≫= descendants
       | _ => []
       end.

(** [calculateDirectorySize]; [children] is the content of the directory
    at [path].  The iterator opens [path] itself as [opendir] does, so
    that a link given as [path] is followed. *)
Definition calculateDirectorySize (children : list entry) : Z :=
  foldl (λ totalSize entry,
           if is_regular_file entry
           then uintmax_add totalSize (file_size entry)
           else totalSize)
        0 (children ≫= descendants).

(** The content behind a path: that of a directory, or of the directory
    a link leads to; nothing can be read from an unreadable directory. *)
Definition children_of (e : entry) : list entry :=
  match e with
  | Directory _ children | DirectoryLink _ children => children
  | _ => []
  end.

(** ** Rendering (c.cpp) *)

(** What [ioctl(STDOUT_FILENO, TIOCGWINSZ, &w)] leaves in [w]. *)
Record winsize := Winsize { ws_row : Z; ws_col : Z }.

(** The colour of an entry: dark gray for hidden names, else [getColor]. *)
Definition color_of (hidden : bool) (type : FileType) (isDirectory : bool)
  : string :=
  if hidden then ESC +:+ "[1;30m" else getColor type isDirectory.

(** One cell of the grid: the body of the innermost [if] of
    [displayMultiColumn]. *)
Definition grid_cell (entry : entry) : string :=
  let isDirectory := is_directory entry in
  let hidden := isHidden entry in
  let type := if isDirectory then Other else categorizeFile entry in
  let emoji := emoji_of type isDirectory in
  let color := color_of hidden type isDirectory in
  let name := name_of entry in
  let maxNameLength := 15%nat in
  let name :=
    if (maxNameLength <? String.length name)%nat
    then String.substring 0 (maxNameLength - 1) name +:+
         ESC +:+ "[1;33m>" +:+ ESC +:+ "[0m"
    else name in
  color +:+ emoji +:+ setw_left 15 name +:+ ESC +:+ "[0m".

(** The inner loop of [displayMultiColumn]: one row. *)
Definition grid_row (entries : list entry) (numColumns numEntries row : Z)
  : io unit :=
  for_each (seqZ 0 numColumns) (λ col,
    let index := row * numColumns + col in
    if index <? numEntries then
      match entries !! Z.to_nat index with
      | Some entry => write (grid_cell entry)
      | None => stop OutOfRange
      end
    else mret tt);;
  write endl.

Definition displayMultiColumn (w : winsize) (entries : list entry) : io unit :=
  let maxWidth := if 0 <? ws_col w then ws_col w else 80 in
  let columnWidth := 17 in
  let numColumns := maxWidth ÷ (columnWidth + 1) in
  let numEntries := Z.of_nat (length entries) in
  if numColumns =? 0 then stop DivisionByZero else
  let numRows := (numEntries + numColumns - 1) ÷ numColumns in
  for_each (seqZ 0 numRows) (grid_row entries numColumns numEntries).


(** The counters that [listDirectoryContents] updates through its
    reference parameters.  [totalSizeShown] is a [uintmax_t] and wraps.
    [totalFiles] and [totalDirs] are [int]s: their increments are
    reproduced as long as the counts stay at or below [INT_MAX], beyond
    which the C++ program has no defined behaviour; the properties of the
    counts are stated within that range. *)
Record counters := Counters {
  totalFiles : Z;
  totalDirs : Z;
  totalSizeShown : Z
}.

(** The vectors and counters that the first loop of
    [listDirectoryContents] fills. *)
Record scan_state := ScanState {
  directories : list entry;
  files : list entry;
  tally : counters
}.

(** The conversion of an [int] to [size_t] that the comparison with
    [allEntries.size()] applies. *)
Definition to_size_t (n : Z) : Z := n mod 2 ^ 64.

(** The layout test of [listDirectoryContents]. *)
Definition use_multi_column (forceList forceWide : bool)
    (size screenHeight : Z) : bool :=
  negb forceList && (forceWide || (to_size_t (screenHeight - 3) <? size)).

(** [path / name] of [fs::path]. *)
Definition path_append (path name : string) : string :=
  if String.eqb path "" then name
  else if String.eqb (String.substring (String.length path - 1) 1 path) "/"
  then path +:+ name
  else path +:+ "/" +:+ name.

(** The depth of a tree: the recursion of [listDirectoryContents] ends
    within it. *)
Fixpoint height (e : entry) : nat :=
  match e with
  | Directory _ children | DirectoryLink _ children =>
      S (foldr (λ c h, Nat.max (height c) h) O children)
  | _ => O
  end.

Definition fuel_for (children : list entry) : nat :=
  S (foldr (λ c h, Nat.max (height c) h) O children).

Section Listing.
Context {L : Library}.

(** [printEntry]: the line written and the size returned. *)
Definition printEntry (entry : entry) (showTotalSize : bool) : string * Z :=
  let isDirectory := is_directory entry in
  let type := if isDirectory then Other else categorizeFile entry in
  let isHidden := isHidden entry in
  let emoji := emoji_of type isDirectory in
  let color := color_of isHidden type isDirectory in
  let head :=
    emoji +:+ color +:+ setw_left 20 (name_of entry) +:+
    " " +:+ getPermissions (st_mode (entry_meta entry)) in
  let '(sizeText, size) :=
    if is_regular_file entry
    then (" " +:+ setw_left 10 (formatSize (file_size entry)),
          file_size entry)
    else ("", 0) in
  let '(totalText, size) :=
    if isDirectory && showTotalSize
    then let size := calculateDirectorySize (children_of entry) in
         (" " +:+ setw_left 10 (formatSize size) +:+ " (total)", size)
    else ("", size) in
  let timeText :=
    if negb isDirectory
    then " " +:+ put_time (mtime (entry_meta entry))
    else "" in
  (head +:+ sizeText +:+ totalText +:+ timeText +:+
   ESC +:+ "[0m" +:+ endl, size).

(** The body of the first loop, for one entry.  [file_size] throws for
    what is neither a regular file nor a directory. *)
Definition scan_entry (pattern : string) (recursive showTotalSize : bool)
    (st : scan_state) (entry : entry) : io scan_state :=
  let c := tally st in
  if negb (String.eqb pattern "") && negb (fnmatch pattern (name_of entry))
  then mret st
  else if is_directory entry then
    let dirSize := calculateDirectorySize (children_of entry) in
    mret {| directories := directories st ++ [entry];
            files := files st;
            tally := {| totalFiles := totalFiles c;
                        totalDirs := totalDirs c + 1;
                        totalSizeShown :=
                          if showTotalSize && negb recursive
                          then uintmax_add (totalSizeShown c) dirSize
                          else totalSizeShown c |} |}
  else if is_regular_file entry then
    mret {| directories := directories st;
            files := files st ++ [entry];
            tally := {| totalFiles := totalFiles c + 1;
                        totalDirs := totalDirs c;
                        totalSizeShown :=
                          uintmax_add (totalSizeShown c) (file_size entry) |} |}
  else stop Uncaught.

(** The first loop of [listDirectoryContents]. *)
Definition scan (pattern : string) (recursive showTotalSize : bool)
    (children : list entry) (c : counters) : io scan_state :=
  fold_io (scan_entry pattern recursive showTotalSize) children
    {| directories := []; files := []; tally := c |}.

(** The two vectors after [std::sort], and [allEntries]. *)
Definition sorted_directories (st : scan_state) : list entry :=
  std_sort directory_less (directories st).

Definition sorted_files (st : scan_state) : list entry :=
  std_sort file_less (files st).

Definition all_entries (st : scan_state) : list entry :=
  sorted_directories st ++ sorted_files st.

(** The detailed list: [printEntry] for each entry; the size it returns
    is dropped. *)
Definition display_list (allEntries : list entry) (showTotalSize : bool)
  : io unit :=
  for_each allEntries (λ entry, write (fst (printEntry entry showTotalSize))).

(** The two branches after the layout test. *)
Definition render_level (tty : winsize) (multiColumn : bool)
    (allEntries : list entry) (showTotalSize : bool) : io unit :=
  if multiColumn then displayMultiColumn tty allEntries
  else display_list allEntries showTotalSize.

(** [fs::directory_iterator(path)], with which [listDirectoryContents]
    begins: the entries of a directory, or of the directory that a link
    leads to.  The constructor throws when the directory cannot be opened
    or the path is no directory, and nothing catches the exception. *)
Definition open_directory (e : entry) : io (list entry) :=
  match e with
  | Directory _ children | DirectoryLink _ children => mret children
  | _ => stop Uncaught
  end.

(** The last loop of [listDirectoryContents]: a header and a nested
    listing for each directory, in sorted order; [list_dir] is the
    recursive call, which starts by opening the directory. *)
Definition descend
    (list_dir : string → list entry → counters → io counters)
    (path : string) (directories : list entry) (c : counters)
  : io counters :=
  fold_io (λ c dir,
      let dirPath := path_append path (name_of dir) in
      write (String "010" "" +:+ dirPath +:+ ":" +:+ String "010" "");;
      children ← open_directory dir;
      list_dir dirPath children c)
    directories c.

(** [listDirectoryContents], from the first loop on: [children] is what
    the iterator over [path] yields, which the caller obtains with
    [open_directory]. *)

Fixpoint listDirectoryContents (fuel : nat) (tty : winsize)
    (path : string) (children : list entry) (pattern : string)
    (recursive showTotalSize forceList forceWide : bool)
    (c : counters) (screenHeight : Z) : io counters :=
  match fuel with
  | O => stop OutOfFuel
  | S fuel =>
      st ← scan pattern recursive showTotalSize children c;
      let allEntries := all_entries st in
      render_level tty
        (use_multi_column forceList forceWide
           (Z.of_nat (length allEntries)) screenHeight)
        allEntries (showTotalSize && negb recursive);;
      if recursive then
        descend
          (λ path children c,
             listDirectoryContents fuel tty path children pattern recursive
               showTotalSize forceList forceWide c screenHeight)
          path (sorted_directories st) (tally st)
      else mret (tally st)
  end.

End Listing.

(** ** The screens of hdir.h *)

(** [showAboutScreen]: one element per output statement. *)
Definition showAboutScreen_text : string :=
  concat_strings [
    ESC +:+ "[0;31m";
    "  ____      _            ____  _      _ " +:+ endl;
    ESC +:+ "[0;33m";
    " / ___|___ | | ___  _ __|  _ \(_)_ __| |" +:+ endl;
    ESC +:+ "[0;32m";
    "| |   / _ \| |/ _ \| '__| | | | | '__| |" +:+ endl;
    ESC +:+ "[0;36m";
    "| |__| (_) | | (_) | |  | |_| | | |  |_|" +:+ endl;
    ESC +:+ "[1;35m";
    " \____\___/|_|\___/|_|  |____/|_|_|  (_)" +:+ endl;
    ESC +:+ "[1;34m";
    "           !!About ColorDir. v. beta 0.3" +:+ endl;
    ESC +:+ "[0;36m";
    "This program lists directory contents with color coding." +:+ endl;
    "History:" +:+ endl;
    "About 30 years ago, I discovered HDIR, a simple tool that brought color to my directory listings in DOS." +:+ endl;
    "I loved it then, and today, I set out to create a tribute to it: ColorDir." +:+ endl;
    "Not as a replacement for ls and its deeper functionalities," +:+ endl;
    "but as both a nostalgic homage and an aesthetically pleasing way to view files, wrapped in the colors of the past." +:+ endl;
    "Best regards 💌 endre@neset.love" +:+ endl;
    endl;
    " -l, --list       Force list view." +:+ endl;
    " -w, --wide       Force columns view." +:+ endl;
    " -t, --total      Display total size of directories, and subdirectories." +:+ endl;
    " -r, --recursive  Recursive listing." +:+ endl;
    " -p, --pause      Pause after each screen of output." +:+ endl;
    " -h, --help       Display this screen." +:+ endl;
    endl;
    "Usage: c [flags] [directory] [pattern, must be inside quotes " +:+ dquote +:+ dquote +:+ " and must contain at least one * or ?]" +:+ endl;
    "Examples:" +:+ endl;
    "1. List all files in the current directory (default):       c" +:+ endl;
    "2. List all files recursively with detailed listing:        c -r -l" +:+ endl;
    "3. List files in wide format, recursively:                  c -r -w" +:+ endl;
    "4. List all .txt files recursively:                         c -r " +:+ dquote +:+ "*.txt" +:+ dquote +:+ endl;
    "5. List .txt files in /home/user/docs directory:            c /home/user/docs " +:+ dquote +:+ "*.txt" +:+ dquote +:+ endl;
    "6. List .log files in /var/log directory:                   c /var/log " +:+ dquote +:+ "*.log" +:+ dquote +:+ endl;
    "7. List files in /usr, paused for viewing, recursively:     c -p -r /usr" +:+ endl;
    "8. List .config files in /etc directory recursively:        c -r /etc " +:+ dquote +:+ "*.config" +:+ dquote +:+ endl;
    "9. List all files containing an x:                          c  " +:+ dquote +:+ "*[x]*" +:+ dquote +:+ endl;
    "10. List files that do not contain a number:                c " +:+ dquote +:+ "*[!0-9]*" +:+ dquote +:+ endl;
    ESC +:+ "[0m"
  ].

Definition showAboutScreen : io unit := write showAboutScreen_text.

(** [displaySummary].  The rule above the summary is one box-drawing
    character for each byte of the summary line but one. *)
Definition displaySummary (totalFiles totalDirs totalSizeShown : Z) : io unit :=
  let totalSummaryString :=
    "Total: Files: " +:+ to_string_int totalFiles +:+
    " | Dirs: " +:+ to_string_int totalDirs +:+
    " | Size: " +:+ formatSize totalSizeShown +:+ String "010" "" in
  write (ESC +:+ "[1;33m");;
  write (repeat_string (String.length totalSummaryString - 1) "─");;
  write (ESC +:+ "[0m" +:+ endl);;
  write totalSummaryString.

(** ** The command line (c.cpp) *)

(** What the program sees of the machine: the terminal size and the
    directory tree behind each path it can be given. *)
Record world := World {
  terminal : winsize;
  lookup : string → option entry
}.

(** [showError]: the message, then [std::exit(1)]. *)
Definition showError {A} (errorMessage : string) : io A :=
  let red := ESC +:+ "[31m" in
  let reset := ESC +:+ "[0m" in
  write (red +:+ "Error: " +:+ reset +:+ errorMessage +:+ ". Try: c -h" +:+ endl);;
  stop (Exit 1).

(** [directoryExists]. *)
Definition directoryExists (w : world) (path : string) : bool :=
  match lookup w path with
  | Some e => is_directory e
  | None => false
  end.

(** The variables [parseTargets] fills. *)
Record targets := Targets {
  dir : string;
  pattern : string;
  flags : list string
}.

(** [arg[0] == '-'] ([arg[0]] of an empty argument is the terminating
    zero). *)
Definition starts_with_dash (arg : string) : bool :=
  match arg with
  | String c _ => Ascii.eqb c "-"
  | EmptyString => false
  end.

Definition known_flags : list string :=
  ["-r"; "--recursive"; "-t"; "--total"; "-l"; "--list"; "-w"; "--wide";
   "-p"; "--pause"; "-h"; "--help"].

(** The body of the loop of [parseTargets], for one argument. *)
Definition parse_arg (t : targets) (arg : string) : io targets :=
  if starts_with_dash arg then
    if existsb (String.eqb arg) known_flags
    then mret {| dir := dir t; pattern := pattern t; flags := flags t ++ [arg] |}
    else showError ("Unknown flag: " +:+ arg)
  else if contains_char "*" arg || contains_char "?" arg then
    if String.eqb (pattern t) "*"
    then mret {| dir := dir t; pattern := arg; flags := flags t |}
    else showError "Multiple patterns are not allowed."
  else
    if String.eqb (dir t) "."
    then mret {| dir := arg; pattern := pattern t; flags := flags t |}
    else showError "Multiple directories are not allowed.".

(** [parseTargets].  [args] is [argv] without the program name, so
    [argc == 1] is the empty list. *)
Definition parseTargets (w : world) (args : list string) : io targets :=
  let t := {| dir := "."; pattern := "*"; flags := [] |} in
  match args with
  | [] => mret t
  | _ =>
      t ← fold_io parse_arg args t;
      if directoryExists w (dir t) then mret t
      else showError ("Directory does not exist: " +:+ dir t)
  end.

(** The feature variables of [main]. *)
Record features := Features {
  recursive : bool;
  showTotalSize : bool;
  forceList : bool;
  forceWide : bool;
  screenPause : bool
}.

Definition is_one_of (flag short long : string) : bool :=
  String.eqb flag short || String.eqb flag long.

(** The body of the loop over [flags] in [main]; the help flag prints the
    about screen and returns 0 at once. *)
Definition apply_flag (f : features) (flag : string) : io features :=
  if is_one_of flag "-r" "--recursive" then
    mret {| recursive := true; showTotalSize := showTotalSize f;
            forceList := forceList f; forceWide := forceWide f;
            screenPause := screenPause f |}
  else if is_one_of flag "-t" "--total" then
    mret {| recursive := recursive f; showTotalSize := true;
            forceList := forceList f; forceWide := forceWide f;
            screenPause := screenPause f |}
  else if is_one_of flag "-l" "--list" then
    mret {| recursive := recursive f; showTotalSize := showTotalSize f;
            forceList := true; forceWide := forceWide f;
            screenPause := screenPause f |}
  else if is_one_of flag "-w" "--wide" then
    mret {| recursive := recursive f; showTotalSize := showTotalSize f;
            forceList := forceList f; forceWide := true;
            screenPause := screenPause f |}
  else if is_one_of flag "-p" "--pause" then
    mret {| recursive := recursive f; showTotalSize := showTotalSize f;
            forceList := forceList f; forceWide := forceWide f;
            screenPause := true |}
  else if is_one_of flag "-h" "--help" then
    showAboutScreen;; stop (Exit 0)
  else mret f.

Section Main.
Context {L : Library}.

(** The call of [listDirectoryContents] from [main]: the directory
    iterator throws unless [dir] is a directory that can be opened. *)
Definition list_target (w : world) (t : targets) (f : features)
    (screenHeight : Z) : io counters :=
  match lookup w (dir t) with
  | Some e =>
      children ← open_directory e;
      listDirectoryContents (fuel_for children) (terminal w) (dir t)
        children (pattern t) (recursive f) (showTotalSize f) (forceList f)
        (forceWide f)
        {| totalFiles := 0; totalDirs := 0; totalSizeShown := 0 |}
        screenHeight
  | None => stop Uncaught
  end.

Definition main_body (w : world) (args : list string) : io unit :=
  let screenHeight :=
    if 0 <? ws_row (terminal w) then ws_row (terminal w) else 24 in
  t ← parseTargets w args;
  f ← fold_io apply_flag (flags t)
        {| recursive := false; showTotalSize := false; forceList := false;
           forceWide := false; screenPause := false |};
  c ← list_target w t f screenHeight;
  displaySummary (totalFiles c) (totalDirs c) (totalSizeShown c).

(** [main]: everything written to standard output and the way the
    process ends. *)
Definition main (w : world) (args : list string) : string * termination :=
  match main_body w args with
  | (out, Ret _) => (out, Exit 0)
  | (out, Stop t) => (out, t)
  end.

End Main.

(** ** A library instance and a sample directory

    To run the program on concrete input, [std::sort] is instantiated with
    stdpp's merge sort, [fnmatch] with a matcher for [*] and [?], and
    [put_time] with a fixed text. *)

Fixpoint glob (p : string) : string → bool :=
  match p with
  | EmptyString => λ s, String.eqb s ""
  | String c p' =>
      if Ascii.eqb c "*" then
        fix star (s : string) : bool :=
          glob p' s || match s with
                       | String _ s' => star s'
                       | EmptyString => false
                       end
      else λ s,
        match s with
        | String d s' => (Ascii.eqb c "?" || Ascii.eqb c d) && glob p' s'
        | EmptyString => false
        end
  end.

Definition merge_std_sort {A} (comp : A → A → bool) : list A → list A :=
  @merge_sort A (λ a b, comp b a = false) (λ a b, decide (comp b a = false)).

#[local] Program Instance sample_Library : Library := {|
  fnmatch := glob;
  put_time := λ _, "2025-05-01 12:00:00";
  std_sort := @merge_std_sort
|}.
Next Obligation. intros. apply merge_sort_Permutation. Qed.
Next Obligation.
  intros A comp l (Hirr & Htr & Heq).
  assert (∀ a b, comp a b = true → comp b a = false) as Hasym.
  { intros a b Hab. destruct (comp b a) eqn:Hba; [|done].
    by rewrite <- (Hirr a), (Htr a b a). }
  apply StronglySorted_merge_sort.
  - intros a b c Hba Hcb.
    destruct (comp c a) eqn:Hca; [|done].
    destruct (comp a b) eqn:Hab.
    { by rewrite (Htr c a b) in Hcb. }
    destruct (comp b c) eqn:Hbc.
    { by rewrite (Htr b c a) in Hba. }
    destruct (Heq a b c) as [_ ?]; congruence.
  - intros a b. destruct (comp b a) eqn:Hba; [|by left].
    right. by apply Hasym.
Qed.

(** A directory [.] with two files, a hidden file and a directory [sub]
    that holds a script and a nested directory; [pipes] holds a fifo. *)
Definition sample_sub : entry :=
  Directory (Meta "sub" (Some 16877) 1714000000)
    [Regular (Meta "x.SH" (Some 33261) 1714000000) 5000000;
     Directory (Meta "deep" (Some 16877) 1714000000)
       [Regular (Meta "z.zip" (Some 33188) 1714000000) 300]].

Definition sample_root : entry :=
  Directory (Meta "." (Some 16877) 1714000000)
    [Regular (Meta "b.txt" (Some 33188) 1714000000) 2048;
     sample_sub;
     Regular (Meta "a.cpp" (Some 33188) 1714000000) 1000;
     Regular (Meta ".hidden" (Some 33188) 1714000000) 10].

Definition sample_pipes : entry :=
  Directory (Meta "pipes" (Some 16877) 1714000000)
    [Special (Meta "fifo" (Some 4480) 1714000000)].

(** A directory with three directories and five files, in an iteration
    order that is not the listing order; names mix upper and lower case. *)
Definition sample_mixed : list entry :=
  [Regular (Meta "b.txt" (Some 33188) 1714000000) 20;
   Directory (Meta "src" (Some 16877) 1714000000) [];
   Regular (Meta "Zed.cpp" (Some 33188) 1714000000) 30;
   Directory (Meta "Docs" (Some 16877) 1714000000) [];
   Regular (Meta "A.txt" (Some 33188) 1714000000) 10;
   Regular (Meta "main.cpp" (Some 33188) 1714000000) 40;
   Directory (Meta "build" (Some 16877) 1714000000) [];
   Regular (Meta "x.png" (Some 33188) 1714000000) 50].

(** Two files whose names differ only in case, in either iteration
    order. *)
Definition sample_case : list entry :=
  [Regular (Meta "README" (Some 33188) 1714000000) 1;
   Regular (Meta "readme" (Some 33188) 1714000000) 2].

Definition sample_case_reversed : list entry :=
  [Regular (Meta "readme" (Some 33188) 1714000000) 2;
   Regular (Meta "README" (Some 33188) 1714000000) 1].

(** A directory [d] with one file, and a link [l] that leads to [d]. *)
Definition sample_linked : list entry :=
  [Directory (Meta "d" (Some 16877) 1714000000)
     [Regular (Meta "f" (Some 33188) 1714000000) 100];
   DirectoryLink (Meta "l" (Some 16877) 1714000000)
     [Regular (Meta "f" (Some 33188) 1714000000) 100]].

(** A directory that cannot be opened. *)
Definition sample_locked : list entry :=
  [Unreadable (Meta "locked" (Some 16832) 1714000000)].

Definition sample_lookup (path : string) : option entry :=
  if String.eqb path "." then Some sample_root
  else if String.eqb path "sub" then Some sample_sub
  else if String.eqb path "pipes" then Some sample_pipes
  else None.

(** The sample directory on an 80 by 24 terminal, and on one that is 17
    columns wide. *)
Definition sample_world : world :=
  {| terminal := {| ws_row := 24; ws_col := 80 |}; lookup := sample_lookup |}.

Definition narrow_world : world :=
  {| terminal := {| ws_row := 24; ws_col := 17 |}; lookup := sample_lookup |}.

(** ** Vocabulary of the properties *)

(** The key that [file_less] compares: category first, then name. *)
Definition file_key (e : entry) : Z * string :=
  (FileType_ord (categorizeFile e), toLower (name_of e)).

Definition key_lt (k1 k2 : Z * string) : bool :=
  if negb (k1.1 =? k2.1) then k1.1 <? k2.1 else string_lt k1.2 k2.2.

(** The order of the directory group: names, case folded. *)
Definition directory_le (a b : entry) : Prop :=
  String.le (toLower (name_of a)) (toLower (name_of b)).

(** The order of the file group: the category ordinal, then names, case
    folded. *)
Definition file_le (a b : entry) : Prop :=
  FileType_ord (categorizeFile a) < FileType_ord (categorizeFile b) ∨
  (categorizeFile a = categorizeFile b ∧
   String.le (toLower (name_of a)) (toLower (name_of b))).

(** The first loop keeps an entry unless the pattern is not empty and
    [fnmatch] rejects the name. *)
Definition matched `{Library} (pattern : string) (e : entry) : bool :=
  negb (negb (String.eqb pattern "") && negb (fnmatch pattern (name_of e))).

Definition matched_directory `{Library} (pattern : string) (e : entry) : bool :=
  matched pattern e && is_directory e.

Definition matched_file `{Library} (pattern : string) (e : entry) : bool :=
  matched pattern e && negb (is_directory e).

(** A level can be listed when no matched entry makes [file_size] throw. *)
Definition listable `{Library} (pattern : string) (children : list entry) : Prop :=
  Forall (λ e, matched_file pattern e = true → is_regular_file e = true)
         children.

(** The same as a test. *)
Definition listableb `{Library} (pattern : string) (children : list entry) : bool :=
  forallb (λ e, implb (matched_file pattern e) (is_regular_file e)) children.

(** What one entry of a level adds to [totalSizeShown]. *)
Definition size_contribution `{Library} (pattern : string)
    (recursive showTotalSize : bool) (e : entry) : Z :=
  if matched pattern e then
    if is_directory e then
      if showTotalSize && negb recursive
      then calculateDirectorySize (children_of e) else 0
    else file_size e
  else 0.

Definition sum_list (l : list Z) : Z := foldr Z.add 0 l.

Definition level_size `{Library} (pattern : string)
    (recursive showTotalSize : bool) (children : list entry) : Z :=
  sum_list (map (size_contribution pattern recursive showTotalSize) children).

(** The order on file keys that [file_le] induces. *)
Definition key_le (k1 k2 : Z * string) : Prop :=
  k1.1 < k2.1 ∨ (k1.1 = k2.1 ∧ String.le k1.2 k2.2).

(** The key of a directory: its name, case folded. *)
Definition directory_key (e : entry) : string := toLower (name_of e).

(** The text of the grid when no division fails: cell [col] of row [row]
    shows the entry at [row * numColumns + col], if there is one. *)
Definition cell_text (entries : list entry) (numColumns row col : Z) : string :=
  let index := row * numColumns + col in
  if index <? Z.of_nat (length entries)
  then from_option grid_cell "" (entries !! Z.to_nat index)
  else "".

Definition row_text (entries : list entry) (numColumns row : Z) : string :=
  concat_strings (map (cell_text entries numColumns row) (seqZ 0 numColumns))
  +:+ endl.

(** [maxWidth] and the two quotients of [displayMultiColumn]. *)
Definition maxWidth_of (w : winsize) : Z :=
  if 0 <? ws_col w then ws_col w else 80.

Definition numColumns_of (w : winsize) : Z := maxWidth_of w ÷ 18.

Definition numRows_of (w : winsize) (entries : list entry) : Z :=
  (Z.of_nat (length entries) + numColumns_of w - 1) ÷ numColumns_of w.

Definition grid_text (w : winsize) (entries : list entry) : string :=
  concat_strings
    (map (row_text entries (numColumns_of w)) (seqZ 0 (numRows_of w entries))).










(** What [showError] writes. *)
Definition error_text (errorMessage : string) : string :=
  (ESC +:+ "[31m") +:+ "Error: " +:+ (ESC +:+ "[0m") +:+ errorMessage +:+
  ". Try: c -h" +:+ endl.

(** The help flag in either spelling. *)
Definition is_help (flag : string) : bool := is_one_of flag "-h" "--help".

(** The pause flag in either spelling. *)
Definition is_pause (flag : string) : bool := is_one_of flag "-p" "--pause".

(** [t] with another list of flags. *)
Definition with_flags (t : targets) (fl : list string) : targets :=
  {| dir := dir t; pattern := pattern t; flags := fl |}.

(** Two settings of the feature variables that differ at most in
    [screenPause]. *)
Definition same_but_pause (f f' : features) : Prop :=
  recursive f = recursive f' ∧ showTotalSize f = showTotalSize f' ∧
  forceList f = forceList f' ∧ forceWide f = forceWide f'.

(** Two computations write the same text and end alike, with results
    related by [R]. *)
Definition io_rel {A} (R : A → A → Prop) (x y : io A) : Prop :=
  x.1 = y.1 ∧
  match x.2, y.2 with
  | Ret a, Ret b => R a b
  | Stop s, Stop s' => s = s'
  | _, _ => False
  end.

(** Two parses that agree except that the first has stored [p] among the
    flags. *)
Definition same_but_flag (p : string) (tp t : targets) : Prop :=
  dir tp = dir t ∧ pattern tp = pattern t ∧
  ∃ fl1 fl2, flags t = fl1 ++ fl2 ∧ flags tp = fl1 ++ p :: fl2.

(** The computation does not end because the recursion bound of the model
    was reached. *)
Definition within_fuel {A} (x : io A) : Prop := x.2 ≠ Stop OutOfFuel.

(** The entries that one row of the grid shows: [numColumns] consecutive
    entries, from [row * numColumns] on. *)
Definition grid_row_entries (entries : list entry) (numColumns row : nat)
  : list entry :=
  take numColumns (drop (row * numColumns) entries).

(** The rows of the grid, from top to bottom. *)
Definition grid_rows (w : winsize) (entries : list entry) : list (list entry) :=
  map (grid_row_entries entries (Z.to_nat (numColumns_of w)))
      (seq 0 (Z.to_nat (numRows_of w entries))).

(** What the listing of an entry and of everything below it adds to
    [totalFiles] in a recursive run: one for a matched file, and for a
    matched directory what its children add. *)
Fixpoint visited_files `{Library} (pattern : string) (e : entry) : Z :=
  if matched pattern e then
    match e with
    | Regular _ _ => 1
    | Directory _ children | DirectoryLink _ children =>
        sum_list (map (visited_files pattern) children)
    | _ => 0
    end
  else 0.


(** What an entry of the listed directory adds to the two counters in a
    whole run. *)
Definition shown_files `{Library} (pattern : string) (recursive : bool)
    (e : entry) : Z :=
  if recursive then visited_files pattern e
  else if matched_file pattern e then 1 else 0.


(** The summary line of [displaySummary] without its line feed. *)
Definition summary_line (totalFiles totalDirs totalSizeShown : Z) : string :=
  "Total: Files: " +:+ to_string_int totalFiles +:+
  " | Dirs: " +:+ to_string_int totalDirs +:+
  " | Size: " +:+ formatSize totalSizeShown.

(** The three kinds of argument that [parseTargets] tells apart: a flag
    starts with a dash, a pattern holds [*] or [?], anything else names a
    directory. *)
Definition is_wildcard (arg : string) : bool :=
  contains_char "*" arg || contains_char "?" arg.

Definition is_directory_arg (arg : string) : bool :=
  negb (starts_with_dash arg) && negb (is_wildcard arg).

Definition is_pattern_arg (arg : string) : bool :=
  negb (starts_with_dash arg) && is_wildcard arg.

(** One of the two spellings of a flag is among [fl]. *)
Definition has_flag (short long : string) (fl : list string) : bool :=
  existsb (λ flag, is_one_of flag short long) fl.

(** The feature variables after the loop over the flags, when no help
    flag is among them. *)
Definition features_of (f : features) (fl : list string) : features :=
  {| recursive := recursive f || has_flag "-r" "--recursive" fl;
     showTotalSize := showTotalSize f || has_flag "-t" "--total" fl;
     forceList := forceList f || has_flag "-l" "--list" fl;
     forceWide := forceWide f || has_flag "-w" "--wide" fl;
     screenPause := screenPause f || has_flag "-p" "--pause" fl |}.

(** A computation returns or ends in one of the ways that [allowed]
    accepts. *)
Definition ends_in {A} (allowed : termination → bool) (x : io A) : Prop :=
  match x.2 with
  | Ret _ => True
  | Stop t => allowed t = true
  end.

(** The ways in which a listing can end early, and those in which the run
    can end once the arguments are accepted. *)
Definition listing_stop (t : termination) : bool :=
  match t with
  | Uncaught | DivisionByZero | OutOfFuel => true
  | _ => false
  end.

Definition run_stop (t : termination) : bool :=
  match t with
  | Exit status => status =? 0
  | OutOfRange => false
  | _ => true
  end.

(** The reduced value of [formatSize] times [10 ^ 6], rounded to an
    integer as [printf] rounds for [%f]: its decimal digits are those of
    the six-decimal text. *)
Definition scaled_of (size : Z) : Z :=
  round_half_even (num (reducedSize_of size) * 10 ^ 6)
                  (2 ^ shift (reducedSize_of size)).

(** The four most significant decimal digits of [scaled], a number of
    seven to ten digits, with the point before its sixth digit from the
    right; the digits below are dropped. *)
Definition numeric_digits (scaled : Z) : string :=
  let d k := digit (scaled / 10 ^ k) in
  if scaled <? 10 ^ 7 then
    String (d 6) (String "." (String (d 5) (String (d 4) (String (d 3) ""))))
  else if scaled <? 10 ^ 8 then
    String (d 7) (String (d 6) (String "." (String (d 5) (String (d 4) ""))))
  else if scaled <? 10 ^ 9 then
    String (d 8) (String (d 7) (String (d 6) (String "." (String (d 5) ""))))
  else
    String (d 9) (String (d 8) (String (d 7) (String (d 6) (String "." "")))).

(** * Properties *)

(** ** Strict weak orders *)

Lemma strict_weak_order_asym {A} (comp : A → A → bool) a b :
  strict_weak_order comp → comp a b = true → comp b a = false.
Proof.
  intros (Hirr & Htr & _) Hab.
  destruct (comp b a) eqn:Hba; [|done].
  by rewrite <- (Hirr a), (Htr a b a).
Qed.

Lemma strict_weak_order_total {A} (comp : A → A → bool) :
  strict_weak_order comp → Total (λ a b, comp b a = false).
Proof.
  intros Hswo a b. destruct (comp b a) eqn:Hba; [|by left].
  right. by eapply strict_weak_order_asym.
Qed.

Lemma strict_weak_order_trans {A} (comp : A → A → bool) :
  strict_weak_order comp → Transitive (λ a b, comp b a = false).
Proof.
  intros Hswo a b c Hba Hcb.
  destruct Hswo as (Hirr & Htr & Heq).
  destruct (comp c a) eqn:Hca; [|done].
  destruct (comp a b) eqn:Hab.
  { by rewrite (Htr c a b) in Hcb. }
  destruct (comp b c) eqn:Hbc.
  { by rewrite (Htr b c a) in Hba. }
  destruct (Heq a b c) as [_ ?]; congruence.
Qed.

(** ** Strings *)

Lemma app_cons (c : ascii) (s1 s2 : string) :
  String c s1 +:+ s2 = String c (s1 +:+ s2).
Proof. reflexivity. Qed.

Lemma app_empty_l (s : string) : "" +:+ s = s.
Proof. reflexivity. Qed.

Lemma length_app (s1 s2 : string) :
  String.length (s1 +:+ s2) = (String.length s1 + String.length s2)%nat.
Proof.
  induction s1 as [|c s1 IH]; [done|]. rewrite app_cons. simpl. by rewrite IH.
Qed.

Lemma app_assoc_string (s1 s2 s3 : string) :
  (s1 +:+ s2) +:+ s3 = s1 +:+ (s2 +:+ s3).
Proof.
  induction s1 as [|c s1 IH]; [done|]. rewrite !app_cons. by rewrite IH.
Qed.

Lemma app_empty_r (s : string) : s +:+ "" = s.
Proof. induction s as [|c s IH]; [done|]. rewrite app_cons. by rewrite IH. Qed.

Lemma substring_prefix (n : nat) (s : string) :
  ∃ rest, s = String.substring 0 n s +:+ rest.
Proof.
  revert s. induction n as [|n IH]; intros s.
  - exists s. by destruct s.
  - destruct s as [|c s]; [by exists ""|].
    destruct (IH s) as [rest Hrest]. exists rest. simpl.
    rewrite app_cons. by rewrite <- Hrest.
Qed.

Lemma length_substring (n : nat) (s : string) :
  (n ≤ String.length s)%nat → String.length (String.substring 0 n s) = n.
Proof.
  revert s. induction n as [|n IH]; intros s Hn.
  - by destruct s.
  - destruct s as [|c s]; simpl in *; [lia|]. rewrite IH; lia.
Qed.

(** ** [formatSize]: the conversion to [double] *)

Lemma round_half_even_bounds n d :
  0 < d → n / d ≤ round_half_even n d ≤ n / d + 1.
Proof. intros Hd. unfold round_half_even. repeat case_match; lia. Qed.

Lemma round_half_even_exact q d : 0 < d → round_half_even (q * d) d = q.
Proof.
  intros Hd. unfold round_half_even.
  rewrite Z.div_mul, Z.mod_mul by lia.
  case_match; [done|lia].
Qed.

Lemma round_half_even_scale k n d :
  0 < k → 0 < d → round_half_even (k * n) (k * d) = round_half_even n d.
Proof.
  intros Hk Hd. unfold round_half_even.
  rewrite Z.div_mul_cancel_l, Z.mul_mod_distr_l by lia.
  assert (0 ≤ n mod d < d) by (apply Z.mod_pos_bound; lia).
  repeat case_match; try done; try nia.
Qed.

Lemma to_double_small n : n < 2 ^ 53 → to_double n = n.
Proof. intros Hn. unfold to_double. case_match; [done|lia]. Qed.

(** A large integer is rounded within its binade. *)
Lemma to_double_binade n :
  2 ^ 53 ≤ n → 2 ^ Z.log2 n ≤ to_double n ≤ 2 ^ (Z.log2 n + 1).
Proof.
  intros Hn. unfold to_double. case_match; [lia|].
  assert (0 < n) as Hpos by lia.
  pose proof (Z.log2_spec n Hpos) as [Hlo Hhi].
  assert (53 ≤ Z.log2 n) as Hlog by (apply Z.log2_le_pow2; lia).
  set (e := Z.log2 n - 52) in *.
  assert (0 < 2 ^ e) as Hpe by (apply Z.pow_pos_nonneg; lia).
  assert (2 ^ Z.log2 n = 2 ^ 52 * 2 ^ e) as Hsplit.
  { rewrite <- Z.pow_add_r by lia. f_equal. lia. }
  assert (2 ^ (Z.log2 n + 1) = 2 ^ 53 * 2 ^ e) as Hsplit'.
  { rewrite <- Z.pow_add_r by lia. f_equal. lia. }
  replace (Z.succ (Z.log2 n)) with (Z.log2 n + 1) in Hhi by lia.
  pose proof (round_half_even_bounds n (2 ^ e) Hpe) as [Hq1 Hq2].
  assert (2 ^ 52 ≤ n / 2 ^ e) by (apply Z.div_le_lower_bound; lia).
  assert (n / 2 ^ e < 2 ^ 53) by (apply Z.div_lt_upper_bound; lia).
  rewrite Hsplit, Hsplit'. nia.
Qed.

Lemma to_double_ge_1024 n : 1024 ≤ n → 1024 ≤ to_double n.
Proof.
  intros Hn. destruct (decide (n < 2 ^ 53)) as [Hs|Hl].
  - by rewrite to_double_small.
  - pose proof (to_double_binade n ltac:(lia)) as [Hlo _].
    assert (53 ≤ Z.log2 n) by (apply Z.log2_le_pow2; lia).
    assert (2 ^ 53 ≤ 2 ^ Z.log2 n) by (apply Z.pow_le_mono_r; lia).
    lia.
Qed.

Lemma to_double_le_max n : 0 ≤ n ≤ UINTMAX_MAX → to_double n ≤ 2 ^ 64.
Proof.
  unfold UINTMAX_MAX. intros Hn. destruct (decide (n < 2 ^ 53)) as [Hs|Hl].
  - rewrite to_double_small by done. lia.
  - pose proof (to_double_binade n ltac:(lia)) as [_ Hhi].
    assert (Z.log2 n < 64) by (apply Z.log2_lt_pow2; lia).
    assert (2 ^ (Z.log2 n + 1) ≤ 2 ^ 64) by (apply Z.pow_le_mono_r; lia).
    lia.
Qed.

(** Multiplication by 1024 commutes with the conversion. *)
Lemma to_double_scale n : 1 ≤ n → to_double (1024 * n) = 1024 * to_double n.
Proof.
  intros Hn. destruct (decide (1024 * n < 2 ^ 53)) as [Hs|Hl].
  { rewrite !to_double_small; lia. }
  assert (0 < n) as Hpos by lia.
  assert (Z.log2 (1024 * n) = Z.log2 n + 10) as Hlog.
  { replace (1024 * n) with (n * 2 ^ 10) by lia.
    rewrite Z.log2_mul_pow2; lia. }
  assert (53 ≤ Z.log2 (1024 * n)) as Hlog53 by (apply Z.log2_le_pow2; lia).
  unfold to_double at 1. case_match; [lia|]. rewrite Hlog.
  destruct (decide (n < 2 ^ 53)) as [Hs'|Hl'].
  - rewrite (to_double_small n) by done.
    set (e := Z.log2 n + 10 - 52).
    assert (0 < e ≤ 10).
    { split; [lia|]. assert (Z.log2 n < 53) by (apply Z.log2_lt_pow2; lia). lia. }
    assert (0 < 2 ^ e) by (apply Z.pow_pos_nonneg; lia).
    replace (1024 * n) with (n * 2 ^ (10 - e) * 2 ^ e).
    + by rewrite round_half_even_exact.
    + rewrite <- Z.mul_assoc, <- Z.pow_add_r by lia.
      replace (10 - e + e) with 10 by lia. lia.
  - unfold to_double. case_match; [lia|].
    assert (53 ≤ Z.log2 n) by (apply Z.log2_le_pow2; lia).
    replace (Z.log2 n + 10 - 52) with (10 + (Z.log2 n - 52)) by lia.
    rewrite Z.pow_add_r by lia. change (2 ^ 10) with 1024.
    rewrite round_half_even_scale; [lia|lia|].
    apply Z.pow_pos_nonneg; lia.
Qed.

(** ** [formatSize]: the loop *)

(** What the loop leaves: it has divided [n] times, the value is below
    1024, and was at least 1024 before the last division.  The fuel is not
    what stops it. *)
Lemma reduce_loop_spec fuel d s idx :
  0 ≤ s → d < 2 ^ (s + 10 * (Z.of_nat fuel + 1)) →
  ∃ n, 0 ≤ n ∧
    reduce_loop fuel {| num := d; shift := s |} idx
      = ({| num := d; shift := s + 10 * n |}, idx + n) ∧
    d < 1024 * 2 ^ (s + 10 * n) ∧
    (0 < n → 2 ^ (s + 10 * n) ≤ d).
Proof.
  revert s idx. induction fuel as [|fuel IH]; intros s idx Hs Hd.
  - exists 0. simpl. replace (s + 10 * 0) with s by lia.
    replace (idx + 0) with idx by lia. split_and!; [done|done| |lia].
    replace (s + 10 * (Z.of_nat 0 + 1)) with (10 + s) in Hd by lia.
    rewrite Z.pow_add_r in Hd by lia. lia.
  - simpl. unfold ge_1024. simpl.
    destruct (1024 * 2 ^ s <=? d) eqn:Hge.
    + apply Z.leb_le in Hge.
      destruct (IH (s + 10) (idx + 1)) as (n & Hn & Heq & Hlt & Hlow).
      { lia. }
      { replace (s + 10 + 10 * (Z.of_nat fuel + 1))
          with (s + 10 * (Z.of_nat (S fuel) + 1)) by lia.
        done. }
      exists (n + 1). unfold div_1024. simpl.
      replace (s + 10 * (n + 1)) with (s + 10 + 10 * n) by lia.
      replace (idx + (n + 1)) with (idx + 1 + n) by lia.
      split_and!; [lia|done|done|].
      intros _. destruct (decide (0 < n)) as [Hpos|Hz]; [by apply Hlow|].
      assert (n = 0) as -> by lia.
      replace (s + 10 + 10 * 0) with (10 + s) by lia.
      rewrite Z.pow_add_r by lia. lia.
    + apply Z.leb_gt in Hge. exists 0.
      replace (s + 10 * 0) with s by lia.
      replace (idx + 0) with idx by lia. split_and!; [done|done|done|lia].
Qed.

(** The loop of [formatSize] ends because the value dropped below 1024. *)
Lemma reduce_loop_exit size :
  1024 ≤ size →
  ∃ n, 0 < n ∧
    reduced size = ({| num := to_double size; shift := 10 * n |}, n - 1) ∧
    2 ^ (10 * n) ≤ to_double size < 2 ^ (10 * n + 10).
Proof.
  intros Hsize. pose proof (to_double_ge_1024 size Hsize) as Hd.
  unfold reduced. cbv zeta.
  assert (0 < to_double size) as Hpos by lia.
  pose proof (Z.log2_spec _ Hpos) as [_ Hhi].
  pose proof (Z.log2_nonneg (to_double size)) as Hlog.
  destruct (reduce_loop_spec (Z.to_nat (Z.log2 (to_double size)))
              (to_double size) 0 (-1)) as (n & Hn & Heq & Hlt & Hlow).
  { done. }
  { rewrite Z2Nat.id by done.
    eapply Z.lt_le_trans; [exact Hhi|]. apply Z.pow_le_mono_r; lia. }
  rewrite Z.add_0_l in Heq, Hlt, Hlow.
  assert (0 < n) as Hnpos.
  { destruct (decide (0 < n)); [done|]. assert (n = 0) as -> by lia.
    change (2 ^ (10 * 0)) with 1 in Hlt. lia. }
  exists n. rewrite Heq. split_and!; [done|f_equal; lia|by apply Hlow|].
  replace (10 * n + 10) with (10 + 10 * n) by lia.
  rewrite Z.pow_add_r by lia. change (2 ^ 10) with 1024. lia.
Qed.

(** The unit index in closed form. *)
Lemma unitIndex_of_log2 size :
  1024 ≤ size → unitIndex_of size = Z.log2 (to_double size) / 10 - 1.
Proof.
  intros Hsize. destruct (reduce_loop_exit size Hsize) as (n & Hn & Heq & Hlo & Hhi).
  unfold unitIndex_of. rewrite Heq. simpl.
  assert (10 * n ≤ Z.log2 (to_double size)) by (apply Z.log2_le_pow2; lia).
  assert (Z.log2 (to_double size) < 10 * n + 10) by (apply Z.log2_lt_pow2; lia).
  assert (Z.log2 (to_double size) / 10 = n); [|lia].
  symmetry. apply (Z.div_unique _ _ _ (Z.log2 (to_double size) - 10 * n)); lia.
Qed.

Lemma unitIndex_of_range size :
  1024 ≤ size ≤ UINTMAX_MAX → 0 ≤ unitIndex_of size ≤ 5.
Proof.
  intros [Hlo Hhi]. rewrite unitIndex_of_log2 by done.
  pose proof (to_double_ge_1024 size Hlo).
  pose proof (to_double_le_max size ltac:(lia)).
  assert (10 ≤ Z.log2 (to_double size)) by (apply Z.log2_le_pow2; lia).
  assert (Z.log2 (to_double size) ≤ 64).
  { change 64 with (Z.log2 (2 ^ 64)). by apply Z.log2_le_mono. }
  assert (1 ≤ Z.log2 (to_double size) / 10) by (apply Z.div_le_lower_bound; lia).
  assert (Z.log2 (to_double size) / 10 < 7) by (apply Z.div_lt_upper_bound; lia).
  lia.
Qed.

Lemma unitIndex_of_scale size :
  1024 ≤ size → unitIndex_of (1024 * size) = unitIndex_of size + 1.
Proof.
  intros Hsize. rewrite !unitIndex_of_log2 by lia.
  rewrite to_double_scale by lia.
  pose proof (to_double_ge_1024 size Hsize).
  replace (1024 * to_double size) with (to_double size * 2 ^ 10) by lia.
  rewrite Z.log2_mul_pow2 by lia.
  replace (10 + Z.log2 (to_double size)) with (1 * 10 + Z.log2 (to_double size)) by lia.
  rewrite Z.div_add_l by lia. lia.
Qed.

Lemma unit_of_index_base idx :
  0 ≤ idx ≤ 5 →
  unit_of_index idx = nth (Z.to_nat idx) ["KB"; "MB"; "GB"; "TB"; "PB"; "EB"] "".
Proof.
  intros Hidx.
  assert (idx = 0 ∨ idx = 1 ∨ idx = 2 ∨ idx = 3 ∨ idx = 4 ∨ idx = 5)
    as [->|[->|[->|[->|[->| ->]]]]] by lia; reflexivity.
Qed.

(** C3, as the code has it.  For every byte count [b] the input type
    allows ([1024 <= b < 2 ^ 64]) the unit index is between 0 and 5 and the
    label is the entry of KB, MB, GB, TB, PB, EB at that index; and the
    index of [1024 * b] is one more than the index of [b] as long as
    [1024 * b] is still a [uintmax_t], so that the labels of [b],
    [b * 1024], [b * 1024 ^ 2], ... strictly increase through that
    sequence. *)
Theorem formatSize_unit_sequence (b : Z) :
  1024 ≤ b ≤ UINTMAX_MAX →
  0 ≤ unitIndex_of b ≤ 5 ∧
  formatSize b = numeric_of b +:+ " " +:+
    nth (Z.to_nat (unitIndex_of b)) ["KB"; "MB"; "GB"; "TB"; "PB"; "EB"] "" ∧
  (1024 * b ≤ UINTMAX_MAX → unitIndex_of (1024 * b) = unitIndex_of b + 1).
Proof.
  intros Hb. pose proof (unitIndex_of_range b Hb) as Hidx.
  split_and!; [lia|lia| |].
  - unfold formatSize. case_match; [lia|].
    by rewrite unit_of_index_base.
  - intros _. apply unitIndex_of_scale. lia.
Qed.

Lemma formatSize_unit_sequence_witness :
  formatSize 2048 = numeric_of 2048 +:+ " " +:+ "KB" ∧
  unitIndex_of (1024 * 2048) = unitIndex_of 2048 + 1.
Proof.
  assert (1024 ≤ 2048 ≤ UINTMAX_MAX) as H by (unfold UINTMAX_MAX; lia).
  destruct (formatSize_unit_sequence 2048 H) as (_ & Hfmt & Hnext).
  split; [exact Hfmt|]. apply Hnext. unfold UINTMAX_MAX. lia.
Defined.

(** C3 as stated fails: at index 7 the code does not select YB, the last
    entry of its table, but the letter after Z; and the largest byte count
    is labelled EB, so that ZB and YB are never printed. *)
Lemma formatSize_unit_counterexample :
  unit_of_index 7 = "[B" ∧ nth 7 baseUnits "" = "YB" ∧
  unit_of_index 7 ≠ nth 7 baseUnits "" ∧
  formatSize UINTMAX_MAX = "16.00 EB".
Proof. split_and!; [reflexivity|reflexivity|discriminate|vm_compute; reflexivity]. Qed.

(** ** [formatSize]: the numeric part *)

Lemma length_to_string_double x :
  (7 ≤ String.length (to_string_double x))%nat.
Proof.
  unfold to_string_double. cbv zeta. rewrite !length_app. simpl. lia.
Qed.

Lemma to_string_int_digits (n : Z) :
  1 ≤ n ≤ 1024 →
  to_string_int n
  = if n <? 10 then String (digit n) ""
    else if n <? 100 then String (digit (n / 10)) (String (digit n) "")
    else if n <? 1000 then
      String (digit (n / 100)) (String (digit (n / 10)) (String (digit n) ""))
    else
      String (digit (n / 1000)) (String (digit (n / 100))
        (String (digit (n / 10)) (String (digit n) ""))).
Proof.
  intros Hn.
  assert (forallb
            (λ n, String.eqb (to_string_int n)
               (if n <? 10 then String (digit n) ""
                else if n <? 100 then
                  String (digit (n / 10)) (String (digit n) "")
                else if n <? 1000 then
                  String (digit (n / 100))
                    (String (digit (n / 10)) (String (digit n) ""))
                else
                  String (digit (n / 1000)) (String (digit (n / 100))
                    (String (digit (n / 10)) (String (digit n) "")))))
            (seqZ 1 1024) = true) as Hall by (vm_compute; reflexivity).
  rewrite forallb_forall in Hall. apply String.eqb_eq, Hall.
  apply list_elem_of_In, elem_of_seqZ. lia.
Qed.

Lemma digit_fraction (x k : Z) :
  0 ≤ k < 6 → digit ((x mod 10 ^ 6) / 10 ^ k) = digit (x / 10 ^ k).
Proof.
  intros Hk. unfold digit. do 3 f_equal.
  replace (10 ^ 6) with (10 ^ k * 10 ^ (6 - k))
    by (rewrite <- Z.pow_add_r by lia; f_equal; lia).
  assert (0 < 10 ^ k) as Hpos by (apply Z.pow_pos_nonneg; lia).
  assert (0 < 10 ^ (6 - k)) as Hpos' by (apply Z.pow_pos_nonneg; lia).
  rewrite Z.rem_mul_r by lia.
  rewrite (Z.mul_comm (10 ^ k)), Z.div_add by lia.
  rewrite (Z.div_small (x mod 10 ^ k)) by (apply Z.mod_pos_bound; lia).
  rewrite Z.add_0_l.
  assert (10 ^ (6 - k) = 10 ^ (6 - k - 1) * 10) as ->.
  { change (10 ^ (6 - k - 1) * 10) with (10 ^ (6 - k - 1) * 10 ^ 1).
    rewrite <- Z.pow_add_r by lia. f_equal. lia. }
  assert (0 < 10 ^ (6 - k - 1)) by (apply Z.pow_pos_nonneg; lia).
  rewrite (Z.mul_comm _ 10), Z.rem_mul_r by lia.
  rewrite (Z.mul_comm 10), Z.mod_add by lia. apply Z.mod_mod. lia.
Qed.

Lemma div_ltb_pow (x k : Z) :
  0 ≤ x → 0 ≤ k → (x / 10 ^ 6 <? 10 ^ k) = (x <? 10 ^ (6 + k)).
Proof.
  intros Hx Hk. rewrite Z.pow_add_r by lia.
  assert (0 < 10 ^ k) by (apply Z.pow_pos_nonneg; lia).
  destruct (Z.ltb_spec (x / 10 ^ 6) (10 ^ k)) as [Hlt|Hge],
           (Z.ltb_spec x (10 ^ 6 * 10 ^ k)) as [Hlt'|Hge']; try done.
  - pose proof (Z.div_le_lower_bound x (10 ^ 6) (10 ^ k) ltac:(lia) Hge').
    lia.
  - pose proof (Z.div_lt_upper_bound x (10 ^ 6) (10 ^ k) ltac:(lia) Hlt').
    lia.
Qed.

Lemma numeric_digits_spec (x : Z) :
  10 ^ 6 ≤ x ≤ 1024 * 10 ^ 6 →
  String.substring 0 5
    (to_string_int (x / 10 ^ 6) +:+ "." +:+
     String (digit (x mod 10 ^ 6 / 100000))
       (String (digit (x mod 10 ^ 6 / 10000))
          (String (digit (x mod 10 ^ 6 / 1000))
             (String (digit (x mod 10 ^ 6 / 100))
                (String (digit (x mod 10 ^ 6 / 10))
                   (String (digit (x mod 10 ^ 6)) ""))))))
  = numeric_digits x.
Proof.
  intros Hx.
  assert (1 ≤ x / 10 ^ 6 ≤ 1024) as Hip.
  { split; [apply Z.div_le_lower_bound; lia|].
    apply Z.div_le_upper_bound; lia. }
  rewrite (to_string_int_digits _ Hip).
  assert (digit (x mod 10 ^ 6 / 100000) = digit (x / 10 ^ 5)) as ->
    by exact (digit_fraction x 5 ltac:(lia)).
  assert (digit (x mod 10 ^ 6 / 10000) = digit (x / 10 ^ 4)) as ->
    by exact (digit_fraction x 4 ltac:(lia)).
  assert (digit (x mod 10 ^ 6 / 1000) = digit (x / 10 ^ 3)) as ->
    by exact (digit_fraction x 3 ltac:(lia)).
  assert (x / 10 ^ 6 / 10 = x / 10 ^ 7) as ->
    by (rewrite Z.div_div by lia; reflexivity).
  assert (x / 10 ^ 6 / 100 = x / 10 ^ 8) as ->
    by (rewrite Z.div_div by lia; reflexivity).
  assert (x / 10 ^ 6 / 1000 = x / 10 ^ 9) as ->
    by (rewrite Z.div_div by lia; reflexivity).
  assert ((x / 10 ^ 6 <? 10) = (x <? 10 ^ 7)) as ->
    by exact (div_ltb_pow x 1 ltac:(lia) ltac:(lia)).
  assert ((x / 10 ^ 6 <? 100) = (x <? 10 ^ 8)) as ->
    by exact (div_ltb_pow x 2 ltac:(lia) ltac:(lia)).
  assert ((x / 10 ^ 6 <? 1000) = (x <? 10 ^ 9)) as ->
    by exact (div_ltb_pow x 3 ltac:(lia) ltac:(lia)).
  unfold numeric_digits. cbv zeta.
  destruct (x <? 10 ^ 7); [reflexivity|].
  destruct (x <? 10 ^ 8); [reflexivity|].
  destruct (x <? 10 ^ 9); reflexivity.
Qed.

Lemma scaled_of_range (b : Z) :
  1024 ≤ b → 10 ^ 6 ≤ scaled_of b ≤ 1024 * 10 ^ 6.
Proof.
  intros Hb. destruct (reduce_loop_exit b Hb) as (n & Hn & Heq & Hge & Hlt).
  unfold scaled_of, reducedSize_of. rewrite Heq. cbn [fst num shift].
  assert (0 < 2 ^ (10 * n)) as Hd by (apply Z.pow_pos_nonneg; lia).
  pose proof (round_half_even_bounds (to_double b * 10 ^ 6) (2 ^ (10 * n)) Hd)
    as [Hlo Hhi].
  rewrite Z.pow_add_r in Hlt by lia.
  assert (10 ^ 6 ≤ to_double b * 10 ^ 6 / 2 ^ (10 * n)).
  { apply Z.div_le_lower_bound; lia. }
  assert (to_double b * 10 ^ 6 / 2 ^ (10 * n) < 1024 * 10 ^ 6).
  { apply Z.div_lt_upper_bound; lia. }
  lia.
Qed.

(** C8, as the code has it.  The numeric part of [formatSize b] is the
    first five bytes of the six-decimal text of the reduced value.  That
    text shows the value times [10 ^ 6] rounded to an integer, which has
    seven to ten digits; the numeric part holds its four most
    significant digits and the decimal point in its place, and the
    digits after these are cut off, not rounded again.  So
    [formatSize 2048] is [2.000 KB], and 2096733 bytes, 1.99960... MB,
    print as [1.999 MB]. *)
Theorem formatSize_numeric_five_bytes (b : Z) :
  1024 ≤ b ≤ UINTMAX_MAX →
  formatSize b = numeric_of b +:+ " " +:+ unit_of_index (unitIndex_of b) ∧
  String.length (numeric_of b) = 5%nat ∧
  (∃ rest, to_string_double (reducedSize_of b) = numeric_of b +:+ rest) ∧
  10 ^ 6 ≤ scaled_of b ≤ 1024 * 10 ^ 6 ∧
  2 * Z.abs (scaled_of b * 2 ^ shift (reducedSize_of b)
             - num (reducedSize_of b) * 10 ^ 6)
    ≤ 2 ^ shift (reducedSize_of b) ∧
  numeric_of b = numeric_digits (scaled_of b) ∧
  (b = 2048 → formatSize b = "2.000 KB") ∧
  (b = 2096733 → formatSize b = "1.999 MB").
Proof.
  intros Hb.
  pose proof (scaled_of_range b ltac:(lia)) as Hrange.
  split_and!.
  - unfold formatSize. case_match; [lia|done].
  - unfold numeric_of. apply length_substring.
    pose proof (length_to_string_double (reducedSize_of b)). lia.
  - apply substring_prefix.
  - lia.
  - lia.
  - unfold scaled_of, round_half_even. cbv zeta.
    set (n := num (reducedSize_of b) * 10 ^ 6).
    set (d := 2 ^ shift (reducedSize_of b)).
    assert (0 < d) as Hd.
    { subst d. destruct (reduce_loop_exit b ltac:(lia)) as (k & Hk & Heq & _).
      unfold reducedSize_of. rewrite Heq. cbn [fst shift].
      apply Z.pow_pos_nonneg; lia. }
    pose proof (Z.div_mod n d ltac:(lia)) as Hdm.
    pose proof (Z.mod_pos_bound n d Hd) as Hmod.
    repeat case_match; nia.
  - unfold numeric_of, to_string_double. cbv zeta. fold (scaled_of b).
    by apply numeric_digits_spec.
  - intros ->. vm_compute. reflexivity.
  - intros ->. vm_compute. reflexivity.
Qed.

Lemma formatSize_numeric_five_bytes_witness :
  numeric_of 2096733 = numeric_digits 1999600 ∧
  String.length (numeric_of 2096733) = 5%nat ∧
  formatSize 2048 = "2.000 KB".
Proof.
  split_and!.
  - assert (1024 ≤ 2096733 ≤ UINTMAX_MAX) as H by (unfold UINTMAX_MAX; lia).
    etrans;
      [exact (proj1 (proj2 (proj2 (proj2 (proj2 (proj2
                (formatSize_numeric_five_bytes 2096733 H)))))))|].
    vm_compute. reflexivity.
  - assert (1024 ≤ 2096733 ≤ UINTMAX_MAX) as H by (unfold UINTMAX_MAX; lia).
    exact (proj1 (proj2 (formatSize_numeric_five_bytes 2096733 H))).
  - assert (1024 ≤ 2048 ≤ UINTMAX_MAX) as H by (unfold UINTMAX_MAX; lia).
    exact (proj1 (proj2 (proj2 (proj2 (proj2 (proj2 (proj2
             (formatSize_numeric_five_bytes 2048 H))))))) eq_refl).
Defined.

(** C8 as stated fails: the text for 2048 bytes has five numeric bytes. *)
Lemma formatSize_2048_counterexample :
  formatSize 2048 = "2.000 KB" ∧ formatSize 2048 ≠ "2.00 KB".
Proof. split; [vm_compute; reflexivity|vm_compute; discriminate]. Qed.

Example formatSize_1000 : formatSize 1000 = "1000 B".
Proof. reflexivity. Qed.

(** The value 1.9996... is cut to 1.999, not rounded to 2.000. *)
Example formatSize_cut : formatSize 2096733 = "1.999 MB".
Proof. vm_compute. reflexivity. Qed.

(** The six-decimal text itself is rounded: 9.99999999906... prints as
    10.000000 before it is cut. *)
Example formatSize_10GB_minus_1 : formatSize (10 * 2 ^ 30 - 1) = "10.00 GB".
Proof. vm_compute. reflexivity. Qed.

Example formatSize_1MB_minus_1 : formatSize (2 ^ 20 - 1) = "1023. KB".
Proof. vm_compute. reflexivity. Qed.

(** ** [categorizeFile] *)

Lemma count_programming_sh : count programmingExtensions ".sh" = true.
Proof. vm_compute. reflexivity. Qed.

Lemma count_text_sh : count textExtensions ".sh" = true.
Proof. vm_compute. reflexivity. Qed.

(** C10.  [.sh] is in the programming set and in the text set, and a
    regular file whose lower-cased extension is [.sh] is classified as
    Programming, not as Text. *)
Theorem categorizeFile_sh_is_programming (e : entry) :
  is_regular_file e = true →
  toLower (extension (name_of e)) = ".sh" →
  ".sh" ∈ programmingExtensions ∧ ".sh" ∈ textExtensions ∧
  categorizeFile e = Programming ∧ categorizeFile e ≠ Text.
Proof.
  intros Hreg Hext.
  assert (categorizeFile e = Programming) as Hcat.
  { unfold categorizeFile. rewrite Hreg. cbv zeta.
    by rewrite Hext, count_programming_sh. }
  split_and!.
  - exact (bool_decide_eq_true_1 _ count_programming_sh).
  - exact (bool_decide_eq_true_1 _ count_text_sh).
  - exact Hcat.
  - by rewrite Hcat.
Qed.

Lemma categorizeFile_sh_is_programming_witness :
  categorizeFile (Regular (Meta "Deploy.SH" (Some 33261) 0) 512) = Programming.
Proof.
  refine (proj1 (proj2 (proj2
    (categorizeFile_sh_is_programming
       (Regular (Meta "Deploy.SH" (Some 33261) 0) 512) _ _))));
    reflexivity.
Defined.

Example extension_examples :
  extension "a.tar.gz" = ".gz" ∧ extension ".bashrc" = "" ∧
  extension ".." = "" ∧ extension "Makefile" = "" ∧ extension "x." = ".".
Proof. repeat split. Qed.

Example categorizeFile_examples :
  categorizeFile (Regular (Meta "README.md" (Some 33188) 0) 1) = Text ∧
  categorizeFile (Regular (Meta "run" (Some 33261) 0) 1) = Executable ∧
  categorizeFile (Regular (Meta "notes" (Some 33188) 0) 1) = Other ∧
  categorizeFile (Special (Meta "pipe.txt" (Some 4480) 0)) = Other.
Proof. repeat split; vm_compute; reflexivity. Qed.

(** ** The comparators are strict weak orders *)

Lemma string_lt_leb a b : string_lt a b = negb (String.leb b a).
Proof.
  unfold string_lt, String.ltb, String.leb.
  rewrite (String.compare_antisym a b). by destruct (String.compare b a).
Qed.

Lemma string_lt_irrefl a : string_lt a a = false.
Proof.
  rewrite string_lt_leb. assert (String.le a a) as H by reflexivity.
  apply Is_true_true in H. by rewrite H.
Qed.

Lemma string_lt_trans a b c :
  string_lt a b = true → string_lt b c = true → string_lt a c = true.
Proof.
  rewrite !string_lt_leb, !negb_true_iff. intros Hba Hcb.
  destruct (String.leb c a) eqn:Hca; [|done].
  destruct (String.leb_total a b) as [Hab|Hab]; [|congruence].
  assert (String.le c b) as Hle.
  { transitivity a; unfold String.le; by apply Is_true_true. }
  apply Is_true_true in Hle. congruence.
Qed.

Lemma string_lt_trichotomy a b :
  string_lt a b = false → string_lt b a = false → a = b.
Proof.
  rewrite !string_lt_leb, !negb_false_iff. intros Hba Hab.
  by apply String.leb_antisym.
Qed.

Lemma string_lt_false_le a b : string_lt b a = false → String.le a b.
Proof.
  rewrite string_lt_leb, negb_false_iff. intros H. by apply Is_true_true.
Qed.

(** A comparator that compares keys with a strict total order is a strict
    weak order. *)
Lemma strict_weak_order_by_key {A K} (key : A → K) (lt : K → K → bool) :
  (∀ k, lt k k = false) →
  (∀ k1 k2 k3, lt k1 k2 = true → lt k2 k3 = true → lt k1 k3 = true) →
  (∀ k1 k2, lt k1 k2 = false → lt k2 k1 = false → k1 = k2) →
  strict_weak_order (λ a b, lt (key a) (key b)).
Proof.
  intros Hirr Htr Htri. split_and!.
  - intros a. apply Hirr.
  - intros a b c. apply Htr.
  - intros a b c Hab Hba Hbc Hcb.
    rewrite (Htri _ _ Hab Hba), (Htri _ _ Hbc Hcb). by rewrite Hirr.
Qed.

Lemma directory_less_swo : strict_weak_order directory_less.
Proof.
  apply (strict_weak_order_by_key (λ e, toLower (name_of e)) string_lt).
  - apply string_lt_irrefl.
  - apply string_lt_trans.
  - apply string_lt_trichotomy.
Qed.

Lemma FileType_ord_inj t1 t2 : FileType_ord t1 = FileType_ord t2 → t1 = t2.
Proof. by destruct t1, t2. Qed.

Lemma file_less_key a b : file_less a b = key_lt (file_key a) (file_key b).
Proof.
  unfold file_less, key_lt, file_key. cbv zeta. simpl.
  destruct (decide (categorizeFile a = categorizeFile b)) as [Heq|Hne].
  - rewrite bool_decide_eq_true_2 by done. rewrite Heq, Z.eqb_refl. done.
  - rewrite bool_decide_eq_false_2 by done.
    destruct (Z.eqb_spec (FileType_ord (categorizeFile a))
                (FileType_ord (categorizeFile b))) as [Heq|_]; [|done].
    by apply FileType_ord_inj in Heq.
Qed.

Lemma key_lt_irrefl k : key_lt k k = false.
Proof. unfold key_lt. rewrite Z.eqb_refl. apply string_lt_irrefl. Qed.

Lemma key_lt_trans k1 k2 k3 :
  key_lt k1 k2 = true → key_lt k2 k3 = true → key_lt k1 k3 = true.
Proof.
  unfold key_lt.
  destruct (Z.eqb_spec k1.1 k2.1) as [H12|H12],
           (Z.eqb_spec k2.1 k3.1) as [H23|H23],
           (Z.eqb_spec k1.1 k3.1) as [H13|H13]; simpl;
    rewrite ?Z.ltb_lt; try lia.
  apply string_lt_trans.
Qed.

Lemma key_lt_trichotomy k1 k2 :
  key_lt k1 k2 = false → key_lt k2 k1 = false → k1 = k2.
Proof.
  unfold key_lt. destruct k1 as [o1 s1], k2 as [o2 s2]. simpl.
  rewrite (Z.eqb_sym o2 o1).
  destruct (Z.eqb_spec o1 o2) as [->|Hne]; simpl; rewrite ?Z.ltb_ge; [|lia].
  intros H1 H2. f_equal. by apply string_lt_trichotomy.
Qed.

Lemma file_less_swo : strict_weak_order file_less.
Proof.
  pose proof (strict_weak_order_by_key file_key key_lt key_lt_irrefl
                key_lt_trans key_lt_trichotomy) as (Hirr & Htr & Heq).
  split_and!.
  - intros a. rewrite file_less_key. apply Hirr.
  - intros a b c. rewrite !file_less_key. apply Htr.
  - intros a b c. rewrite !file_less_key. apply Heq.
Qed.

(** ** The order of one level *)

Lemma StronglySorted_impl {A} (R1 R2 : A → A → Prop) l :
  (∀ a b, R1 a b → R2 a b) → StronglySorted R1 l → StronglySorted R2 l.
Proof.
  intros Himpl. induction 1 as [|a l Hs IH Hall]; constructor; [done|].
  eapply Forall_impl; [exact Hall|]. intros b. apply Himpl.
Qed.

Lemma directory_less_false_le a b : directory_less b a = false → directory_le a b.
Proof. apply string_lt_false_le. Qed.

Lemma file_less_false_le a b : file_less b a = false → file_le a b.
Proof.
  unfold file_less, file_le. cbv zeta.
  destruct (decide (categorizeFile b = categorizeFile a)) as [Heq|Hne].
  - rewrite bool_decide_eq_true_2 by done. simpl. intros Hlt.
    right. split; [done|]. by apply string_lt_false_le.
  - rewrite bool_decide_eq_false_2 by done. simpl. rewrite Z.ltb_ge.
    intros Hle. left.
    assert (FileType_ord (categorizeFile a) ≠ FileType_ord (categorizeFile b)).
    { intros Heq. by apply FileType_ord_inj in Heq. }
    lia.
Qed.

(** ** The output monad *)

Lemma io_bind_ret {A B} (a : A) (f : A → io B) : (mret a ≫= f) = f a.
Proof. unfold mret, io_ret, mbind, io_bind. by destruct (f a). Qed.

Lemma io_bind_silent {A B} (a : A) (f : A → io B) :
  (("", Ret a) ≫= f) = f a.
Proof. apply io_bind_ret. Qed.

Lemma io_bind_stop {A B} out t (f : A → io B) :
  ((out, Stop t) ≫= f) = (out, Stop t).
Proof. reflexivity. Qed.

Lemma io_bind_out {A B} out (a : A) (f : A → io B) :
  ((out, Ret a) ≫= f) = (out +:+ (f a).1, (f a).2).
Proof. unfold mbind, io_bind. by destruct (f a). Qed.

Lemma io_bind_write {B} (s : string) (f : unit → io B) :
  (write s ≫= f) = (s +:+ (f tt).1, (f tt).2).
Proof. apply io_bind_out. Qed.

Lemma fold_io_app {A S} (f : S → A → io S) l1 l2 s :
  fold_io f (l1 ++ l2) s = (fold_io f l1 s ≫= fold_io f l2).
Proof.
  revert s. induction l1 as [|x l1 IH]; intros s.
  - symmetry. apply io_bind_ret.
  - change (fold_io f ((x :: l1) ++ l2) s)
      with (f s x ≫= fold_io f (l1 ++ l2)).
    change (fold_io f (x :: l1) s) with (f s x ≫= fold_io f l1).
    destruct (f s x) as [out [s'|t]]; [|done].
    rewrite !io_bind_out, IH.
    destruct (fold_io f l1 s') as [out1 [s1|t1]]; [|done].
    rewrite !io_bind_out. cbn [fst snd]. rewrite io_bind_out.
    by rewrite app_assoc_string.
Qed.

(** ** The first loop *)

Section Scan.
Context {L : Library}.
Variables (pattern : string) (recursive showTotalSize : bool).

Lemma uintmax_add_range a b : 0 ≤ uintmax_add a b < 2 ^ 64.
Proof. unfold uintmax_add. apply Z.mod_pos_bound. lia. Qed.

Lemma uintmax_add_mod a b :
  uintmax_add a b mod 2 ^ 64 = (a mod 2 ^ 64 + b) mod 2 ^ 64.
Proof.
  unfold uintmax_add. rewrite Z.mod_mod by lia.
  by rewrite Z.add_mod_idemp_l by lia.
Qed.

Lemma listableb_listable children :
  listableb pattern children = true → listable pattern children.
Proof.
  unfold listableb, listable. rewrite forallb_forall, Forall_forall.
  intros H e He Hadm. apply list_elem_of_In in He.
  specialize (H e He). by rewrite Hadm in H.
Qed.

Lemma scan_entry_skip st e :
  matched pattern e = false →
  scan_entry pattern recursive showTotalSize st e = mret st.
Proof.
  unfold matched, scan_entry. intros H%negb_false_iff. by rewrite H.
Qed.

Lemma scan_entry_directory st e :
  matched pattern e = true → is_directory e = true →
  scan_entry pattern recursive showTotalSize st e
  = mret {| directories := directories st ++ [e];
            files := files st;
            tally := {| totalFiles := totalFiles (tally st);
                        totalDirs := totalDirs (tally st) + 1;
                        totalSizeShown :=
                          if showTotalSize && negb recursive
                          then uintmax_add (totalSizeShown (tally st))
                                 (calculateDirectorySize (children_of e))
                          else totalSizeShown (tally st) |} |}.
Proof.
  unfold matched, scan_entry. intros H%negb_true_iff Hdir.
  by rewrite H, Hdir.
Qed.

Lemma scan_entry_regular st e :
  matched pattern e = true → is_directory e = false →
  is_regular_file e = true →
  scan_entry pattern recursive showTotalSize st e
  = mret {| directories := directories st;
            files := files st ++ [e];
            tally := {| totalFiles := totalFiles (tally st) + 1;
                        totalDirs := totalDirs (tally st);
                        totalSizeShown :=
                          uintmax_add (totalSizeShown (tally st))
                            (file_size e) |} |}.
Proof.
  unfold matched, scan_entry. intros H%negb_true_iff Hdir Hreg.
  by rewrite H, Hdir, Hreg.
Qed.

(** A matched entry that is neither a directory nor a regular file
    ends the run: [file_size] throws. *)
Lemma scan_entry_special st e :
  matched pattern e = true → is_directory e = false →
  is_regular_file e = false →
  scan_entry pattern recursive showTotalSize st e = stop Uncaught.
Proof.
  unfold matched, scan_entry. intros H%negb_true_iff Hdir Hreg.
  by rewrite H, Hdir, Hreg.
Qed.

Lemma mod_add_step a b c :
  a mod 2 ^ 64 = b mod 2 ^ 64 → (a + c) mod 2 ^ 64 = (b + c) mod 2 ^ 64.
Proof.
  intros H. rewrite <- (Z.add_mod_idemp_l a), H by lia.
  by rewrite Z.add_mod_idemp_l by lia.
Qed.

Lemma fold_scan (children : list entry) (st0 : scan_state) :
  listable pattern children →
  ∃ st,
    fold_io (scan_entry pattern recursive showTotalSize) children st0
      = ("", Ret st) ∧
    directories st
      = directories st0 ++ List.filter (matched_directory pattern) children ∧
    files st = files st0 ++ List.filter (matched_file pattern) children ∧
    totalDirs (tally st)
      = totalDirs (tally st0)
        + Z.of_nat (length (List.filter (matched_directory pattern) children)) ∧
    totalFiles (tally st)
      = totalFiles (tally st0)
        + Z.of_nat (length (List.filter (matched_file pattern) children)) ∧
    totalSizeShown (tally st) mod 2 ^ 64
      = (totalSizeShown (tally st0)
         + level_size pattern recursive showTotalSize children) mod 2 ^ 64 ∧
    (0 ≤ totalSizeShown (tally st0) < 2 ^ 64 →
     0 ≤ totalSizeShown (tally st) < 2 ^ 64).
Proof.
  intros Hok. revert st0.
  induction Hok as [|e children He Hok IH]; intros st0.
  - exists st0. simpl. rewrite !app_nil_r. unfold level_size. simpl.
    split_and!; try done; try lia. by rewrite Z.add_0_r.
  - change (fold_io ?f (e :: children) st0)
      with (f st0 e ≫= fold_io f children).
    assert (level_size pattern recursive showTotalSize (e :: children)
            = size_contribution pattern recursive showTotalSize e
              + level_size pattern recursive showTotalSize children)
      as -> by reflexivity.
    simpl List.filter.
    assert (matched_directory pattern e
            = matched pattern e && is_directory e) as -> by reflexivity.
    assert (matched_file pattern e
            = matched pattern e && negb (is_directory e)) as Hfile
      by reflexivity.
    rewrite Hfile in He |- *. unfold size_contribution.
    destruct (matched pattern e) eqn:Hadm; simpl andb.
    + destruct (is_directory e) eqn:Hdir; simpl negb; cbv iota.
      * rewrite scan_entry_directory, io_bind_ret by done.
        match goal with |- context [fold_io _ children ?s] =>
          destruct (IH s) as (st & Heq & Hd & Hf & Hnd & Hnf & Hsz & Hrg) end.
        simpl in Hd, Hf, Hnd, Hnf, Hsz, Hrg.
        exists st. rewrite Heq, Hd, Hf, Hnd, Hnf, Hsz.
        rewrite <- !app_assoc. simpl length.
        split_and!; try done; try lia.
        -- destruct (showTotalSize && negb recursive).
           ++ rewrite Z.add_assoc. apply mod_add_step.
              unfold uintmax_add. by rewrite Z.mod_mod by lia.
           ++ by rewrite Z.add_0_l.
        -- intros Hr. apply Hrg. destruct (showTotalSize && negb recursive);
             [apply uintmax_add_range|done].
      * rewrite scan_entry_regular, io_bind_ret by (done || by apply He).
        match goal with |- context [fold_io _ children ?s] =>
          destruct (IH s) as (st & Heq & Hd & Hf & Hnd & Hnf & Hsz & Hrg) end.
        simpl in Hd, Hf, Hnd, Hnf, Hsz, Hrg.
        exists st. rewrite Heq, Hd, Hf, Hnd, Hnf, Hsz.
        rewrite <- !app_assoc. simpl length.
        split_and!; try done; try lia.
        -- rewrite Z.add_assoc. apply mod_add_step.
           unfold uintmax_add. by rewrite Z.mod_mod by lia.
        -- intros Hr. apply Hrg, uintmax_add_range.
    + rewrite scan_entry_skip, io_bind_ret by done.
      destruct (IH st0) as (st & Heq & ? & ? & ? & ? & Hsz & ?).
      exists st. by split_and!.
Qed.

(** The first loop of a listable level ends, and leaves the matched
    directories and the matched files in iteration order. *)
Lemma scan_spec (children : list entry) (c : counters) :
  listable pattern children →
  ∃ st,
    scan pattern recursive showTotalSize children c = ("", Ret st) ∧
    directories st = List.filter (matched_directory pattern) children ∧
    files st = List.filter (matched_file pattern) children ∧
    totalDirs (tally st)
      = totalDirs c + Z.of_nat (length (directories st)) ∧
    totalFiles (tally st)
      = totalFiles c + Z.of_nat (length (files st)) ∧
    (0 ≤ totalSizeShown c < 2 ^ 64 →
     totalSizeShown (tally st)
     = (totalSizeShown c
        + level_size pattern recursive showTotalSize children) mod 2 ^ 64).
Proof.
  intros Hok. unfold scan.
  destruct (fold_scan children
              {| directories := []; files := []; tally := c |} Hok)
    as (st & Heq & Hd & Hf & Hnd & Hnf & Hsz & Hrg).
  simpl in *. exists st. rewrite Hd, Hf. split_and!; try done.
  intros Hc. rewrite <- Hsz. symmetry. apply Z.mod_small. by apply Hrg.
Qed.

End Scan.

(** ** Sorted levels *)

Lemma for_each_write {A} (f : A → string) (l : list A) :
  for_each l (λ x, write (f x)) = (concat_strings (map f l), Ret tt).
Proof.
  unfold for_each. induction l as [|x l IH]; [done|].
  change (fold_io ?g (x :: l) tt) with (g tt x ≫= fold_io g l).
  unfold write in *. cbv beta. rewrite (io_bind_out (f x) tt), IH. done.
Qed.

Global Instance key_le_trans : Transitive key_le.
Proof.
  intros [o1 s1] [o2 s2] [o3 s3]. unfold key_le. simpl.
  intros [H12|[-> H12]] [H23|[-> H23]]; [left; lia..|].
  right. split; [done|]. by transitivity s2.
Qed.

Global Instance key_le_antisym : AntiSymm (=) key_le.
Proof.
  intros [o1 s1] [o2 s2]. unfold key_le. simpl.
  intros [H12|[-> H12]] [H21|[? H21]]; try lia.
  f_equal. by apply (anti_symm String.le).
Qed.

Lemma file_le_key a b : file_le a b ↔ key_le (file_key a) (file_key b).
Proof.
  unfold file_le, key_le, file_key. simpl. split.
  - intros [?|[-> ?]]; [by left|by right].
  - intros [?|[Heq ?]]; [by left|]. right.
    split; [by apply FileType_ord_inj|done].
Qed.

(** A sorted arrangement of given entries shows one sequence of keys,
    whatever produced it. *)
Lemma sorted_keys_unique {A K} (key : A → K) (le : K → K → Prop)
    `{!Transitive le, !AntiSymm (=) le} (l1 l2 : list A) :
  l1 ≡ₚ l2 →
  StronglySorted (λ a b, le (key a) (key b)) l1 →
  StronglySorted (λ a b, le (key a) (key b)) l2 →
  map key l1 = map key l2.
Proof.
  intros Hperm Hs1 Hs2.
  apply (StronglySorted_unique le).
  - by apply (StronglySorted_fmap key _ le) in Hs1.
  - by apply (StronglySorted_fmap key _ le) in Hs2.
  - by apply fmap_Permutation.
Qed.

Section Order.
Context {L : Library}.

Lemma sorted_directories_Permutation st :
  sorted_directories st ≡ₚ directories st.
Proof. apply std_sort_Permutation, directory_less_swo. Qed.

Lemma sorted_files_Permutation st : sorted_files st ≡ₚ files st.
Proof. apply std_sort_Permutation, file_less_swo. Qed.

Lemma sorted_directories_sorted st :
  StronglySorted directory_le (sorted_directories st).
Proof.
  eapply StronglySorted_impl;
    [|apply std_sort_sorted, directory_less_swo].
  intros a b. apply directory_less_false_le.
Qed.

Lemma sorted_files_sorted st : StronglySorted file_le (sorted_files st).
Proof.
  eapply StronglySorted_impl; [|apply std_sort_sorted, file_less_swo].
  intros a b. apply file_less_false_le.
Qed.

Lemma Forall_filter_bool {A} (f : A → bool) (l : list A) :
  Forall (λ x, f x = true) (List.filter f l).
Proof.
  apply Forall_forall. intros x Hx%list_elem_of_In.
  by apply filter_In in Hx as [_ ?].
Qed.

End Order.

(** ** The grid *)

Lemma for_each_silent {A} (f : A → io unit) (g : A → string) (l : list A) :
  (∀ x, x ∈ l → f x = (g x, Ret tt)) →
  for_each l f = (concat_strings (map g l), Ret tt).
Proof.
  unfold for_each. induction l as [|x l IH]; intros Hf; [done|].
  change (fold_io ?h (x :: l) tt) with (h tt x ≫= fold_io h l).
  cbv beta. rewrite (Hf x) by left.
  rewrite (io_bind_out (g x) tt), IH; [done|].
  intros y Hy. apply Hf. by right.
Qed.

Lemma grid_row_text (entries : list entry) (numColumns row : Z) :
  0 ≤ row → 0 ≤ numColumns →
  grid_row entries numColumns (Z.of_nat (length entries)) row
  = (row_text entries numColumns row, Ret tt).
Proof.
  intros Hrow Hcols. unfold grid_row, row_text.
  rewrite (for_each_silent _ (cell_text entries numColumns row)).
  - rewrite (io_bind_out _ tt). simpl. done.
  - intros col Hcol%elem_of_seqZ. unfold cell_text. cbv zeta.
    destruct (Z.ltb_spec (row * numColumns + col) (Z.of_nat (length entries)))
      as [Hlt|Hge]; [|done].
    destruct (lookup_lt_is_Some_2 entries (Z.to_nat (row * numColumns + col)))
      as [e He]; [nia|].
    by rewrite He.
Qed.

(** With at least 18 columns the grid is drawn to the end: no division
    fails and every entry read lies inside the vector. *)
Lemma displayMultiColumn_wide (tty : winsize) (entries : list entry) :
  18 ≤ maxWidth_of tty →
  displayMultiColumn tty entries = (grid_text tty entries, Ret tt).
Proof.
  intros Hw. unfold displayMultiColumn, grid_text, numRows_of, numColumns_of.
  fold (maxWidth_of tty). cbv zeta. change (17 + 1) with 18.
  assert (1 ≤ maxWidth_of tty ÷ 18) as Hcols.
  { rewrite Z.quot_div_nonneg by lia. apply Z.div_le_lower_bound; lia. }
  destruct (Z.eqb_spec (maxWidth_of tty ÷ 18) 0) as [?|_]; [lia|].
  apply for_each_silent. intros row Hrow%elem_of_seqZ.
  apply grid_row_text; lia.
Qed.

(** The number of rows is the number of entries divided by the number of
    columns, rounded up. *)
Lemma numRows_of_ceil (tty : winsize) (entries : list entry) :
  18 ≤ maxWidth_of tty →
  numColumns_of tty = maxWidth_of tty / 18 ∧
  Z.of_nat (length entries) ≤ numColumns_of tty * numRows_of tty entries
    < Z.of_nat (length entries) + numColumns_of tty.
Proof.
  intros Hw. unfold numRows_of, numColumns_of.
  rewrite Z.quot_div_nonneg by lia.
  assert (1 ≤ maxWidth_of tty / 18) as Hcols
    by (apply Z.div_le_lower_bound; lia).
  set (n := Z.of_nat (length entries)). set (k := maxWidth_of tty / 18) in *.
  assert (0 ≤ n) by lia.
  rewrite Z.quot_div_nonneg by lia.
  pose proof (Z.div_mod (n + k - 1) k ltac:(lia)) as Hdm.
  pose proof (Z.mod_pos_bound (n + k - 1) k ltac:(lia)) as Hmod.
  split; [done|]. nia.
Qed.

(** C4 at the failing input.  On a terminal 17 columns wide
    [numColumns] is 0 and the row count divides by it, whatever the
    entries are. *)
Theorem displayMultiColumn_narrow_divides_by_zero
    (rows : Z) (entries : list entry) :
  numColumns_of {| ws_row := rows; ws_col := 17 |} = 0 ∧
  displayMultiColumn {| ws_row := rows; ws_col := 17 |} entries
  = ("", Stop DivisionByZero).
Proof. split; reflexivity. Qed.

(** ** One level of the listing *)

Section Level.
Context {L : Library}.
Variables (tty : winsize) (pattern : string).
Variables (recursive showTotalSize forceList forceWide : bool).
Variable (screenHeight : Z).

Lemma display_list_text (allEntries : list entry) (flag : bool) :
  display_list allEntries flag
  = (concat_strings (map (λ e, (printEntry e flag).1) allEntries), Ret tt).
Proof. apply for_each_write. Qed.

(** A listable level is scanned, rendered and, on request, descended
    into. *)
Lemma listDirectoryContents_level fuel path children c :
  listable pattern children →
  ∃ st,
    scan pattern recursive showTotalSize children c = ("", Ret st) ∧
    listDirectoryContents (S fuel) tty path children pattern recursive
      showTotalSize forceList forceWide c screenHeight
    = (render_level tty
         (use_multi_column forceList forceWide
            (Z.of_nat (length (all_entries st))) screenHeight)
         (all_entries st) (showTotalSize && negb recursive);;
       if recursive then
         descend
           (λ path children c,
              listDirectoryContents fuel tty path children pattern recursive
                showTotalSize forceList forceWide c screenHeight)
           path (sorted_directories st) (tally st)
       else mret (tally st)).
Proof.
  intros Hok.
  destruct (scan_spec pattern recursive showTotalSize children c Hok)
    as (st & Hscan & _).
  exists st. split; [done|].
  change (listDirectoryContents (S fuel) tty path children pattern recursive
            showTotalSize forceList forceWide c screenHeight)
    with (scan pattern recursive showTotalSize children c ≫= λ st,
          render_level tty
            (use_multi_column forceList forceWide
               (Z.of_nat (length (all_entries st))) screenHeight)
            (all_entries st) (showTotalSize && negb recursive);;
          if recursive then
            descend
              (λ path children c,
                 listDirectoryContents fuel tty path children pattern
                   recursive showTotalSize forceList forceWide c screenHeight)
              path (sorted_directories st) (tally st)
          else mret (tally st)).
  by rewrite Hscan, io_bind_silent.
Qed.

Lemma to_size_t_small n : 0 ≤ n < 2 ^ 64 → to_size_t n = n.
Proof. intros Hn. unfold to_size_t. by apply Z.mod_small. Qed.

(** C2, as the code has it.  At every level the grid is drawn exactly
    when [forceList] is not set and either [forceWide] is set or the
    number of entries exceeds [screenHeight - 3]; otherwise the detailed
    list is printed.  With both flags set the detailed list is printed:
    [forceList] is tested first.  (The screen has at least three rows,
    so that [screenHeight - 3] is not negative.) *)
Theorem layout_decision fuel path children c :
  listable pattern children →
  3 ≤ screenHeight < 2 ^ 31 →
  ∃ st,
    scan pattern recursive showTotalSize children c = ("", Ret st) ∧
    let size := Z.of_nat (length (all_entries st)) in
    let multiColumn :=
      negb forceList && (forceWide || (screenHeight - 3 <? size)) in
    listDirectoryContents (S fuel) tty path children pattern recursive
      showTotalSize forceList forceWide c screenHeight
    = ((if multiColumn
        then displayMultiColumn tty (all_entries st)
        else display_list (all_entries st) (showTotalSize && negb recursive));;
       if recursive then
         descend
           (λ path children c,
              listDirectoryContents fuel tty path children pattern recursive
                showTotalSize forceList forceWide c screenHeight)
           path (sorted_directories st) (tally st)
       else mret (tally st)) ∧
    (forceList = true → multiColumn = false) ∧
    (forceList = false → forceWide = true → multiColumn = true) ∧
    (forceList = false → forceWide = false →
     multiColumn = bool_decide (screenHeight - 3 < size)).
Proof.
  intros Hok Hh.
  destruct (listDirectoryContents_level fuel path children c Hok)
    as (st & Hscan & Heq).
  exists st. split; [done|]. cbv zeta.
  split_and!.
  - rewrite Heq. unfold render_level, use_multi_column.
    rewrite to_size_t_small by lia. done.
  - by intros ->.
  - by intros -> ->.
  - intros -> ->. simpl.
    destruct (Z.ltb_spec (screenHeight - 3)
                (Z.of_nat (length (all_entries st)))).
    + by rewrite bool_decide_eq_true_2.
    + rewrite bool_decide_eq_false_2; [done|lia].
Qed.

End Level.

Lemma layout_decision_witness :
  ∃ st,
    scan "*" false false (children_of sample_root)
      {| totalFiles := 0; totalDirs := 0; totalSizeShown := 0 |}
    = ("", Ret st) ∧
    listDirectoryContents 2 (terminal sample_world) "." (children_of sample_root)
      "*" false false true true
      {| totalFiles := 0; totalDirs := 0; totalSizeShown := 0 |} 24
    = (display_list (all_entries st) false;; mret (tally st)).
Proof.
  assert (listable "*" (children_of sample_root)) as Hok
    by (apply listableb_listable; reflexivity).
  assert (3 ≤ 24 < 2 ^ 31) as Hh by lia.
  destruct (layout_decision (terminal sample_world) "*" false false true true
              24 1 "." (children_of sample_root)
              {| totalFiles := 0; totalDirs := 0; totalSizeShown := 0 |}
              Hok Hh) as (st & Hscan & Heq & _).
  exists st. split; [exact Hscan|exact Heq].
Defined.

(** C2 as stated fails: with both flags set the layout test is false and
    [c -l -w] prints what [c -l] prints, not the grid of [c -w]. *)
Lemma layout_both_flags_counterexample :
  use_multi_column true true 4 24 = false ∧
  main sample_world ["-l"; "-w"] = main sample_world ["-l"] ∧
  main sample_world ["-l"; "-w"] ≠ main sample_world ["-w"].
Proof.
  split_and!.
  - reflexivity.
  - vm_compute. reflexivity.
  - intros H. apply (f_equal (λ r, String.length r.1)) in H.
    vm_compute in H. discriminate.
Qed.

(** ** The order in which a level is rendered *)

Section RenderedOrder.
Context {L : Library}.

Lemma Forall_matched_directory pattern children :
  Forall (λ e, is_directory e = true)
         (List.filter (matched_directory pattern) children).
Proof.
  eapply Forall_impl; [apply Forall_filter_bool|].
  intros e He. unfold matched_directory in He.
  by apply andb_true_iff in He as [_ ?].
Qed.

Lemma Forall_matched_file pattern children :
  Forall (λ e, is_directory e = false)
         (List.filter (matched_file pattern) children).
Proof.
  eapply Forall_impl; [apply Forall_filter_bool|].
  intros e He. unfold matched_file in He.
  apply andb_true_iff in He as [_ He]. by apply negb_true_iff.
Qed.

Lemma NoDup_keys_unique {A K} (key : A → K) (l1 l2 : list A) :
  NoDup (map key l1) → l1 ≡ₚ l2 → map key l1 = map key l2 → l1 = l2.
Proof.
  revert l2. induction l1 as [|a l1 IH]; intros l2 Hnd Hperm Hkeys.
  { symmetry. by apply Permutation_nil. }
  destruct l2 as [|b l2]; [discriminate|].
  cbn [map] in Hkeys, Hnd. injection Hkeys as Hk Hkeys.
  apply NoDup_cons in Hnd as [Hnotin Hnd].
  assert (b = a) as ->.
  { assert (b ∈ a :: l1) as Hb by (rewrite Hperm; left).
    apply elem_of_cons in Hb as [Hb|Hb]; [done|].
    exfalso. apply Hnotin. rewrite Hk.
    by apply (list_elem_of_fmap_2 key). }
  f_equal. apply IH; [done| |done].
  by apply Permutation_cons_inv in Hperm.
Qed.

(** C5, as the code has it.  Every level that is listed renders the
    matched directories and then the matched files, in the detailed
    list line by line and in the grid cell by cell; the directories
    ascend by case-folded name; the files ascend by category ordinal
    (Programming, Text, Video, Picture, Hidden, Executable, Compressed,
    Other) and within a category by case-folded name.  This determines
    the sequence of keys, whatever the iteration order of the directory
    and the sorting algorithm, and it determines the order of the entries
    when no two entries of a group have the same key; entries whose names
    differ only in case are left in the order that [std::sort] gives
    them. *)
Theorem listing_order (tty : winsize) (fuel : nat) (path pattern : string)
    (recursive showTotalSize forceList forceWide : bool)
    (children : list entry) (c : counters) (screenHeight : Z) :
  listable pattern children →
  ∃ dirs files c',
    listDirectoryContents (S fuel) tty path children pattern recursive
      showTotalSize forceList forceWide c screenHeight
    = (render_level tty
         (use_multi_column forceList forceWide
            (Z.of_nat (length (dirs ++ files))) screenHeight)
         (dirs ++ files) (showTotalSize && negb recursive);;
       if recursive then
         descend
           (λ path children c,
              listDirectoryContents fuel tty path children pattern recursive
                showTotalSize forceList forceWide c screenHeight)
           path dirs c'
       else mret c') ∧
    render_level tty false (dirs ++ files) (showTotalSize && negb recursive)
    = (concat_strings
         (map (λ e, (printEntry e (showTotalSize && negb recursive)).1)
              (dirs ++ files)), Ret tt) ∧
    (18 ≤ maxWidth_of tty →
     render_level tty true (dirs ++ files) (showTotalSize && negb recursive)
     = (grid_text tty (dirs ++ files), Ret tt)) ∧
    dirs ≡ₚ List.filter (matched_directory pattern) children ∧
    files ≡ₚ List.filter (matched_file pattern) children ∧
    Forall (λ e, is_directory e = true) dirs ∧
    Forall (λ e, is_directory e = false) files ∧
    StronglySorted directory_le dirs ∧
    StronglySorted file_le files ∧
    map FileType_ord
      [Programming; Text; Video; Picture; Hidden; Executable; Compressed;
       Other] = [0; 1; 2; 3; 4; 5; 6; 7] ∧
    (∀ ds, ds ≡ₚ dirs → StronglySorted directory_le ds →
           map directory_key ds = map directory_key dirs) ∧
    (∀ fs, fs ≡ₚ files → StronglySorted file_le fs →
           map file_key fs = map file_key files) ∧
    (NoDup (map directory_key dirs) →
     ∀ ds, ds ≡ₚ dirs → StronglySorted directory_le ds → ds = dirs) ∧
    (NoDup (map file_key files) →
     ∀ fs, fs ≡ₚ files → StronglySorted file_le fs → fs = files).
Proof.
  intros Hok.
  destruct (listDirectoryContents_level tty pattern recursive showTotalSize
              forceList forceWide screenHeight fuel path children c Hok)
    as (st & Hscan & Heq).
  destruct (scan_spec pattern recursive showTotalSize children c Hok)
    as (st' & Hscan' & Hd & Hf & _).
  assert (st' = st) as -> by congruence.
  assert (∀ ds, ds ≡ₚ sorted_directories st → StronglySorted directory_le ds →
            map directory_key ds = map directory_key (sorted_directories st))
    as Hdkeys.
  { intros ds Hperm Hsorted.
    apply (sorted_keys_unique directory_key String.le); [done..|].
    apply sorted_directories_sorted. }
  assert (∀ fs, fs ≡ₚ sorted_files st → StronglySorted file_le fs →
            map file_key fs = map file_key (sorted_files st)) as Hfkeys.
  { intros fs Hperm Hsorted.
    apply (sorted_keys_unique file_key key_le); [done| |].
    + eapply StronglySorted_impl; [|exact Hsorted].
      intros a b. apply file_le_key.
    + eapply StronglySorted_impl; [|apply sorted_files_sorted].
      intros a b. apply file_le_key. }
  exists (sorted_directories st), (sorted_files st), (tally st).
  split_and!.
  - exact Heq.
  - apply display_list_text.
  - apply displayMultiColumn_wide.
  - rewrite <- Hd. apply sorted_directories_Permutation.
  - rewrite <- Hf. apply sorted_files_Permutation.
  - rewrite sorted_directories_Permutation, Hd.
    apply Forall_matched_directory.
  - rewrite sorted_files_Permutation, Hf. apply Forall_matched_file.
  - apply sorted_directories_sorted.
  - apply sorted_files_sorted.
  - reflexivity.
  - exact Hdkeys.
  - exact Hfkeys.
  - intros Hnd ds Hperm Hsorted. symmetry.
    apply (NoDup_keys_unique directory_key); [done|by symmetry|].
    symmetry. by apply Hdkeys.
  - intros Hnd fs Hperm Hsorted. symmetry.
    apply (NoDup_keys_unique file_key); [done|by symmetry|].
    symmetry. by apply Hfkeys.
Qed.

End RenderedOrder.

Lemma listing_order_witness :
  ∃ dirs files c',
    listDirectoryContents 1 (terminal sample_world) "." sample_mixed "*"
      false false true false
      {| totalFiles := 0; totalDirs := 0; totalSizeShown := 0 |} 24
    = (render_level (terminal sample_world) false (dirs ++ files) false;;
       mret c') ∧
    map name_of dirs = ["build"; "Docs"; "src"] ∧
    map name_of files = ["main.cpp"; "Zed.cpp"; "A.txt"; "b.txt"; "x.png"].
Proof.
  assert (listable "*" sample_mixed) as Hok
    by (apply listableb_listable; reflexivity).
  destruct (listing_order (terminal sample_world) 0 "." "*" false false true
              false sample_mixed
              {| totalFiles := 0; totalDirs := 0; totalSizeShown := 0 |} 24
              Hok)
    as (dirs & files & c' & Heq & _ & _ & Hpd & Hpf & _ & _ & _ & _ & _ &
        Hdkeys & Hfkeys & Hdirs & Hfiles).
  set (st := {| directories := List.filter (matched_directory "*") sample_mixed;
                files := List.filter (matched_file "*") sample_mixed;
                tally := {| totalFiles := 0; totalDirs := 0;
                            totalSizeShown := 0 |} |}).
  assert (sorted_directories st ≡ₚ dirs) as Hperm_d
    by (rewrite Hpd; apply sorted_directories_Permutation).
  assert (sorted_files st ≡ₚ files) as Hperm_f
    by (rewrite Hpf; apply sorted_files_Permutation).
  assert (dirs = sorted_directories st) as ->.
  { symmetry. apply Hdirs; [|done|apply sorted_directories_sorted].
    rewrite <- (Hdkeys _ Hperm_d (sorted_directories_sorted st)).
    apply (bool_decide_unpack _). vm_compute. exact I. }
  assert (files = sorted_files st) as ->.
  { symmetry. apply Hfiles; [|done|apply sorted_files_sorted].
    rewrite <- (Hfkeys _ Hperm_f (sorted_files_sorted st)).
    apply (bool_decide_unpack _). vm_compute. exact I. }
  exists (sorted_directories st), (sorted_files st), c'.
  split_and!; [exact Heq|vm_compute; reflexivity|vm_compute; reflexivity].
Defined.

(** C5 as stated fails: the order is not determined by the entries of
    the directory.  Two directories hold the same two files, whose names
    differ only in case, and yield them in different iteration orders;
    both arrangements are sorted as the claim says, and the two listings
    differ. *)
Lemma listing_order_case_counterexample :
  sample_case_reversed ≡ₚ sample_case ∧
  StronglySorted file_le sample_case ∧
  StronglySorted file_le sample_case_reversed ∧
  listDirectoryContents 1 (terminal sample_world) "." sample_case "*"
    false false true false
    {| totalFiles := 0; totalDirs := 0; totalSizeShown := 0 |} 24
  = (concat_strings (map (λ e, (printEntry e false).1) sample_case),
     Ret {| totalFiles := 2; totalDirs := 0; totalSizeShown := 3 |}) ∧
  listDirectoryContents 1 (terminal sample_world) "." sample_case_reversed "*"
    false false true false
    {| totalFiles := 0; totalDirs := 0; totalSizeShown := 0 |} 24
  = (concat_strings (map (λ e, (printEntry e false).1) sample_case_reversed),
     Ret {| totalFiles := 2; totalDirs := 0; totalSizeShown := 3 |}) ∧
  concat_strings (map (λ e, (printEntry e false).1) sample_case)
  ≠ concat_strings (map (λ e, (printEntry e false).1) sample_case_reversed).
Proof.
  assert (∀ a b, file_key a = file_key b → file_le a b) as Hle.
  { intros a b Hkey. apply file_le_key. rewrite Hkey.
    right. split; reflexivity. }
  split_and!.
  - apply perm_swap.
  - constructor; [constructor; constructor|].
    constructor; [by apply Hle|constructor].
  - constructor; [constructor; constructor|].
    constructor; [by apply Hle|constructor].
  - vm_compute. reflexivity.
  - vm_compute. reflexivity.
  - intros H. apply String.eqb_eq in H. vm_compute in H. discriminate.
Qed.

Example sample_order :
  map name_of
    (all_entries
       {| directories := List.filter is_directory (children_of sample_root);
          files := List.filter (λ e, negb (is_directory e))
                     (children_of sample_root);
          tally := {| totalFiles := 0; totalDirs := 0; totalSizeShown := 0 |} |})
  = ["sub"; "a.cpp"; "b.txt"; ".hidden"].
Proof. vm_compute. reflexivity. Qed.

(** ** Sums of sizes *)

Lemma sum_list_cons x l : sum_list (x :: l) = x + sum_list l.
Proof. reflexivity. Qed.

Lemma sum_list_app l1 l2 : sum_list (l1 ++ l2) = sum_list l1 + sum_list l2.
Proof. induction l1 as [|x l1 IH]; simpl; lia. Qed.

Lemma sum_list_Permutation l1 l2 : l1 ≡ₚ l2 → sum_list l1 = sum_list l2.
Proof. induction 1; simpl; lia. Qed.



(** [calculateDirectorySize] is the sum of the sizes below, as a
    [uintmax_t]. *)
Lemma calculateDirectorySize_sum (children : list entry) :
  calculateDirectorySize children
  = sum_list (map file_size (children ≫= descendants)) mod 2 ^ 64.
Proof.
  unfold calculateDirectorySize.
  generalize (children ≫= descendants). intros l.
  assert (∀ a, 0 ≤ a < 2 ^ 64 →
     foldl (λ totalSize entry,
              if is_regular_file entry
              then uintmax_add totalSize (file_size entry) else totalSize) a l
     = (a + sum_list (map file_size l)) mod 2 ^ 64) as Hgen.
  { induction l as [|e l IH]; intros a Ha; simpl.
    - rewrite Z.add_0_r. symmetry. by apply Z.mod_small.
    - destruct e as [m size|m|m ch|m ch|m]; simpl.
      + rewrite IH by apply uintmax_add_range. unfold uintmax_add.
        rewrite Z.add_mod_idemp_l by lia. f_equal. lia.
      + by rewrite IH.
      + by rewrite IH.
      + by rewrite IH.
      + by rewrite IH. }
  rewrite Hgen by lia. done.
Qed.


(** ** Directory totals *)

Section Totals.
Context {L : Library}.
Variables (tty : winsize) (pattern : string).
Variables (showTotalSize forceList forceWide : bool).
Variable (screenHeight : Z).








Lemma height_fuel_for m children :
  height (Directory m children) = fuel_for children.
Proof. reflexivity. Qed.

Lemma fuel_for_child d children :
  d ∈ children → (height d < fuel_for children)%nat.
Proof.
  unfold fuel_for. induction 1 as [d children|d c children _ IH]; simpl; lia.
Qed.


End Totals.

Section Runs.
Context {L : Library}.
Variables (tty : winsize) (pattern : string).
Variables (showTotalSize forceList forceWide : bool).
Variable (screenHeight : Z).





End Runs.

Section DirectoryTotals.
Context {L : Library}.




End DirectoryTotals.


(** A tree with a link to a directory, as [c -r] and [c -t] see it: the
    recursive listing enters [d] and the link [l] and counts the file
    behind both; the recursive total of the directory does not follow
    the link. *)
Example link_counted_twice :
  calculateDirectorySize sample_linked = 100 ∧
  ∃ out,
    listDirectoryContents 3 (terminal sample_world) "." sample_linked "*"
      true false true false
      {| totalFiles := 0; totalDirs := 0; totalSizeShown := 0 |} 24
    = (out, Ret {| totalFiles := 2; totalDirs := 2; totalSizeShown := 200 |}).
Proof. split; [reflexivity|]. eexists. vm_compute. reflexivity. Qed.

(** A directory that cannot be opened is listed like any other by a run
    that does not recurse, with a total of 0; a recursive run prints its
    header and ends there with an uncaught exception. *)
Example unreadable_directory :
  (∃ out,
     listDirectoryContents 1 (terminal sample_world) "." sample_locked "*"
       false true true false
       {| totalFiles := 0; totalDirs := 0; totalSizeShown := 0 |} 24
     = (out, Ret {| totalFiles := 0; totalDirs := 1; totalSizeShown := 0 |})) ∧
  (listDirectoryContents 2 (terminal sample_world) "." sample_locked "*"
     true false true false
     {| totalFiles := 0; totalDirs := 0; totalSizeShown := 0 |} 24).2
  = Stop Uncaught.
Proof. split; [eexists|]; vm_compute; reflexivity. Qed.

(** ** The command line *)

Lemma showError_text {A} (errorMessage : string) :
  @showError A errorMessage = (error_text errorMessage, Stop (Exit 1)).
Proof.
  unfold showError, error_text. cbv zeta. rewrite io_bind_write.
  cbn [fst snd stop]. by rewrite app_empty_r.
Qed.

(** One argument either updates the targets, and then a flag is stored as
    written, or it is a usage error. *)
Lemma parse_arg_cases (t : targets) (arg : string) :
  (∃ t', parse_arg t arg = mret t' ∧
         flags t' = flags t ++ (if starts_with_dash arg then [arg] else [])) ∨
  (∃ msg, parse_arg t arg = (error_text msg, Stop (Exit 1))).
Proof.
  unfold parse_arg.
  destruct (starts_with_dash arg).
  - destruct (existsb _ _).
    + left. eexists. split; [done|]. done.
    + right. eexists. apply showError_text.
  - destruct (contains_char "*" arg || contains_char "?" arg).
    + destruct (String.eqb (pattern t) "*").
      * left. eexists. split; [done|]. simpl. by rewrite app_nil_r.
      * right. eexists. apply showError_text.
    + destruct (String.eqb (dir t) ".").
      * left. eexists. split; [done|]. simpl. by rewrite app_nil_r.
      * right. eexists. apply showError_text.
Qed.

(** The loop of [parseTargets] writes nothing unless it ends the run with
    an error message and status 1; otherwise the flags are the arguments
    that start with a dash, in order. *)
Lemma fold_parse_arg_form (args : list string) (t0 : targets) out r :
  fold_io parse_arg args t0 = (out, r) →
  match r with
  | Ret t => out = "" ∧ flags t = flags t0 ++ List.filter starts_with_dash args
  | Stop s => s = Exit 1 ∧ ∃ msg, out = error_text msg
  end.
Proof.
  revert t0 out r. induction args as [|arg args IH]; intros t0 out r.
  - intros [= <- <-]. by rewrite app_nil_r.
  - change (fold_io parse_arg (arg :: args) t0)
      with (parse_arg t0 arg ≫= fold_io parse_arg args).
    destruct (parse_arg_cases t0 arg) as [(t' & -> & Hfl)|(msg & ->)].
    + rewrite io_bind_ret. intros Heq. specialize (IH _ _ _ Heq).
      destruct r as [t|s]; [|done]. destruct IH as [-> ->].
      split; [done|]. rewrite Hfl. simpl.
      destruct (starts_with_dash arg); by rewrite <- app_assoc.
    + rewrite io_bind_stop. intros [= <- <-]. eauto.
Qed.

Lemma parseTargets_form (w : world) (args : list string) out r :
  parseTargets w args = (out, r) →
  match r with
  | Ret t => out = "" ∧ flags t = List.filter starts_with_dash args
  | Stop s => s = Exit 1 ∧ ∃ msg, out = error_text msg
  end.
Proof.
  unfold parseTargets. destruct args as [|a args].
  { intros [= <- <-]. done. }
  destruct (fold_io parse_arg (a :: args) _) as [out1 [t|s]] eqn:Hfold.
  - apply fold_parse_arg_form in Hfold as [-> Hfl]. rewrite io_bind_silent.
    destruct (directoryExists w (dir t)).
    + intros [= <- <-]. done.
    + rewrite showError_text. intros [= <- <-]. eauto.
  - apply fold_parse_arg_form in Hfold as [-> [msg ->]].
    rewrite io_bind_stop. intros [= <- <-]. eauto.
Qed.

(** A flag other than the help flag only sets a feature variable. *)
Lemma apply_flag_no_help (f : features) (flag : string) :
  is_help flag = false → ∃ f', apply_flag f flag = mret f'.
Proof.
  unfold is_help, apply_flag. intros ->.
  repeat (destruct (is_one_of flag _ _); [by eexists|]). by eexists.
Qed.

Lemma apply_flag_help (f : features) (flag : string) :
  is_help flag = true →
  apply_flag f flag = (showAboutScreen_text, Stop (Exit 0)).
Proof.
  unfold is_help, is_one_of. intros Hh.
  assert (flag = "-h" ∨ flag = "--help") as [-> | ->].
  { apply orb_true_iff in Hh as [H%String.eqb_eq|H%String.eqb_eq]; auto. }
  - vm_compute. reflexivity.
  - vm_compute. reflexivity.
Qed.

(** The loop over the flags prints the about screen and returns 0 at the
    first help flag. *)
Lemma fold_apply_flag_help (fl : list string) (f : features) :
  existsb is_help fl = true →
  fold_io apply_flag fl f = (showAboutScreen_text, Stop (Exit 0)).
Proof.
  revert f. induction fl as [|flag fl IH]; intros f; [done|].
  change (fold_io apply_flag (flag :: fl) f)
    with (apply_flag f flag ≫= fold_io apply_flag fl).
  simpl. destruct (is_help flag) eqn:Hh.
  - intros _. by rewrite apply_flag_help.
  - simpl. intros Hfl. destruct (apply_flag_no_help f flag Hh) as [f' ->].
    rewrite io_bind_ret. by apply IH.
Qed.

Lemma about_screen_marker :
  contains "About ColorDir" showAboutScreen_text = true.
Proof. vm_compute. reflexivity. Qed.

Lemma help_among_flags (args : list string) :
  In "-h" args ∨ In "--help" args →
  existsb is_help (List.filter starts_with_dash args) = true.
Proof.
  intros Hin. apply existsb_exists.
  destruct Hin as [Hin|Hin]; eexists; (split; [apply filter_In; split; [exact Hin|]|]);
    reflexivity.
Qed.

Section Help.
Context {L : Library}.

(** A usage error of [parseTargets] ends [main] with its message and
    status 1. *)
Lemma main_usage_error (w : world) (args : list string) out s :
  parseTargets w args = (out, Stop s) →
  main w args = (out, Exit 1) ∧ ∃ msg, out = error_text msg.
Proof.
  intros Hparse. pose proof (parseTargets_form w args _ _ Hparse) as [-> Hmsg].
  split; [|done]. unfold main, main_body. cbv zeta.
  by rewrite Hparse, io_bind_stop.
Qed.

(** C1, as the code has it.  [main] parses and validates all arguments
    before it looks for the help flag.  For an invocation whose
    arguments include [-h] or [--help]: when [parseTargets] accepts the
    arguments, the about screen is all that is printed (it contains
    "About ColorDir") and the status is 0; when it does not, its error
    message is all that is printed and the status is 1. *)
Theorem help_after_validation (w : world) (args : list string) :
  In "-h" args ∨ In "--help" args →
  match parseTargets w args with
  | (_, Ret _) =>
      main w args = (showAboutScreen_text, Exit 0) ∧
      contains "About ColorDir" (main w args).1 = true
  | (out, Stop _) =>
      main w args = (out, Exit 1) ∧ ∃ msg, out = error_text msg
  end.
Proof.
  intros Hhelp.
  destruct (parseTargets w args) as [out [t|s]] eqn:Hparse.
  - pose proof (parseTargets_form w args _ _ Hparse) as [-> Hfl].
    assert (main w args = (showAboutScreen_text, Exit 0)) as Hmain.
    { unfold main, main_body. cbv zeta. rewrite Hparse, io_bind_silent.
      rewrite Hfl, fold_apply_flag_help by by apply help_among_flags.
      by rewrite io_bind_stop. }
    split; [done|]. rewrite Hmain. apply about_screen_marker.
  - by apply (main_usage_error w args out s).
Qed.

End Help.

Lemma help_after_validation_witness :
  main sample_world ["-r"; "-h"; "sub"] = (showAboutScreen_text, Exit 0).
Proof.
  assert (In "-h" ["-r"; "-h"; "sub"] ∨ In "--help" ["-r"; "-h"; "sub"]) as Hin
    by (left; right; left; reflexivity).
  exact (proj1 (help_after_validation sample_world ["-r"; "-h"; "sub"] Hin)).
Defined.

(** C1 as stated fails: with an unknown flag, a second directory or a
    missing directory next to [-h], the error is printed, not the about
    screen, and the status is 1. *)
Lemma help_with_bad_arguments_counterexample :
  main sample_world ["-h"; "-z"] = (error_text "Unknown flag: -z", Exit 1) ∧
  contains "About ColorDir" (main sample_world ["-h"; "-z"]).1 = false ∧
  main sample_world ["-h"; "sub"; "pipes"]
  = (error_text "Multiple directories are not allowed.", Exit 1) ∧
  main sample_world ["-h"; "nowhere"]
  = (error_text "Directory does not exist: nowhere", Exit 1).
Proof. split_and!; vm_compute; reflexivity. Qed.

(** ** Usage errors *)

(** C9 at the failing input.  A first directory [.] does not count: the
    second directory replaces it and is listed, with status 0 and no
    error message.  In the same way a first pattern [*] is replaced by a
    second pattern. *)
Theorem second_directory_accepted :
  parseTargets sample_world ["."; "sub"]
  = ("", Ret {| dir := "sub"; pattern := "*"; flags := [] |}) ∧
  (main sample_world ["."; "sub"]).2 = Exit 0 ∧
  contains "Error" (main sample_world ["."; "sub"]).1 = false ∧
  parseTargets sample_world ["*"; "*.txt"]
  = ("", Ret {| dir := "."; pattern := "*.txt"; flags := [] |}) ∧
  (main sample_world ["*"; "*.txt"]).2 = Exit 0.
Proof. split_and!; vm_compute; reflexivity. Qed.

(** Where the arguments are rejected, the message is [Error: ], the
    reason and [. Try: c -h], and the status is 1. *)
Example usage_errors :
  main sample_world ["-z"] = (error_text "Unknown flag: -z", Exit 1) ∧
  main sample_world ["sub"; "pipes"]
  = (error_text "Multiple directories are not allowed.", Exit 1) ∧
  main sample_world ["*.txt"; "*.md"]
  = (error_text "Multiple patterns are not allowed.", Exit 1) ∧
  main sample_world ["nowhere"]
  = (error_text "Directory does not exist: nowhere", Exit 1).
Proof. split_and!; vm_compute; reflexivity. Qed.

(** ** The pause flag *)

Lemma io_rel_refl {A} (R : A → A → Prop) (x : io A) :
  (∀ a, R a a) → io_rel R x x.
Proof. intros HR. destruct x as [out [a|s]]; split; simpl; auto. Qed.

Lemma io_rel_eq {A} (x y : io A) : io_rel eq x y → x = y.
Proof.
  destruct x as [o [a|s]], y as [o' [b|s']]; intros [Ho Hr]; simpl in *;
    by subst.
Qed.

Lemma io_rel_bind {A B} (R : A → A → Prop) (S : B → B → Prop)
    (x y : io A) (f g : A → io B) :
  io_rel R x y → (∀ a b, R a b → io_rel S (f a) (g b)) →
  io_rel S (x ≫= f) (y ≫= g).
Proof.
  destruct x as [o [a|s]], y as [o' [b|s']]; intros [Ho Hr] Hfg;
    simpl in Ho, Hr; subst; try done.
  rewrite !io_bind_out. specialize (Hfg a b Hr).
  destruct Hfg as [Ho Hr']. split; cbn [fst snd]; [by rewrite Ho|done].
Qed.

Lemma io_rel_impl {A} (R S : A → A → Prop) (x y : io A) :
  (∀ a b, R a b → S a b) → io_rel R x y → io_rel S x y.
Proof.
  intros HRS [Ho Hr]. split; [done|].
  destruct x.2, y.2; try done. by apply HRS.
Qed.

(** Parsing never reads the flags it has stored. *)
Lemma parse_arg_flags_blind (t t' : targets) (arg : string) :
  dir t = dir t' → pattern t = pattern t' →
  io_rel (λ a b, dir a = dir b ∧ pattern a = pattern b ∧
                 ∃ X, flags a = flags t ++ X ∧ flags b = flags t' ++ X)
         (parse_arg t arg) (parse_arg t' arg).
Proof.
  intros Hd Hp. unfold parse_arg. rewrite Hd, Hp.
  destruct (starts_with_dash arg).
  - destruct (existsb _ _).
    + split; [done|]. simpl. split_and!; [done..|]. by exists [arg].
    + rewrite !showError_text. by split.
  - destruct (contains_char "*" arg || contains_char "?" arg).
    + destruct (String.eqb (pattern t') "*").
      * split; [done|]. simpl. split_and!; [done..|]. exists [].
        by rewrite !app_nil_r.
      * rewrite !showError_text. by split.
    + destruct (String.eqb (dir t') ".").
      * split; [done|]. simpl. split_and!; [done..|]. exists [].
        by rewrite !app_nil_r.
      * rewrite !showError_text. by split.
Qed.

Lemma fold_parse_arg_flags_blind (args : list string) (t t' : targets) :
  dir t = dir t' → pattern t = pattern t' →
  io_rel (λ a b, dir a = dir b ∧ pattern a = pattern b ∧
                 ∃ X, flags a = flags t ++ X ∧ flags b = flags t' ++ X)
         (fold_io parse_arg args t) (fold_io parse_arg args t').
Proof.
  revert t t'. induction args as [|arg args IH]; intros t t' Hd Hp.
  - split; [done|]. simpl. split_and!; [done..|]. exists [].
    by rewrite !app_nil_r.
  - change (fold_io parse_arg (arg :: args) ?t0)
      with (parse_arg t0 arg ≫= fold_io parse_arg args).
    eapply io_rel_bind; [by apply parse_arg_flags_blind|].
    intros a b (Hd' & Hp' & X & Ha & Hb). cbv beta.
    eapply io_rel_impl; [|by apply IH].
    intros a' b' (? & ? & Y & Ha' & Hb'). split_and!; [done..|].
    exists (X ++ Y). rewrite Ha', Hb', Ha, Hb. by rewrite <- !app_assoc.
Qed.

Lemma parse_arg_pause (t : targets) (p : string) :
  is_pause p = true →
  parse_arg t p
  = mret {| dir := dir t; pattern := pattern t; flags := flags t ++ [p] |}.
Proof.
  unfold is_pause, is_one_of. intros Hp.
  assert (p = "-p" ∨ p = "--pause") as [-> | ->]; [|done..].
  apply orb_true_iff in Hp as [H%String.eqb_eq|H%String.eqb_eq]; auto.
Qed.

(** Dropping a pause flag from the arguments changes the parse only in
    that the flag is not stored. *)
Lemma fold_parse_arg_pause (args1 args2 : list string) (p : string)
    (t0 : targets) :
  is_pause p = true →
  io_rel (same_but_flag p)
         (fold_io parse_arg (args1 ++ p :: args2) t0)
         (fold_io parse_arg (args1 ++ args2) t0).
Proof.
  intros Hp. rewrite !fold_io_app.
  eapply io_rel_bind; [apply (io_rel_refl eq); done|].
  intros t1 ? <-.
  change (fold_io parse_arg (p :: args2) t1)
    with (parse_arg t1 p ≫= fold_io parse_arg args2).
  rewrite parse_arg_pause, io_bind_ret by done.
  eapply io_rel_impl;
    [|apply (fold_parse_arg_flags_blind args2
               {| dir := dir t1; pattern := pattern t1;
                  flags := flags t1 ++ [p] |} t1); done].
  intros a b (Hd & Hpat & X & Ha & Hb). split_and!; [done..|].
  exists (flags t1), X. simpl in Ha. rewrite Ha, Hb.
  by rewrite <- app_assoc.
Qed.

Lemma same_but_pause_refl f : same_but_pause f f.
Proof. by repeat split. Qed.

(** The loop over the flags never reads [screenPause]. *)
Lemma apply_flag_pause_blind (f f' : features) (flag : string) :
  same_but_pause f f' →
  io_rel same_but_pause (apply_flag f flag) (apply_flag f' flag).
Proof.
  intros (Hr & Ht & Hl & Hw). unfold apply_flag. rewrite Hr, Ht, Hl, Hw.
  repeat (destruct (is_one_of flag _ _);
          [by (split; [done|]; repeat split)|]).
  split; [done|]. by repeat split.
Qed.

Lemma fold_apply_flag_pause_blind (fl : list string) (f f' : features) :
  same_but_pause f f' →
  io_rel same_but_pause (fold_io apply_flag fl f) (fold_io apply_flag fl f').
Proof.
  revert f f'. induction fl as [|flag fl IH]; intros f f' Hf.
  - by split.
  - change (fold_io apply_flag (flag :: fl) ?f0)
      with (apply_flag f0 flag ≫= fold_io apply_flag fl).
    eapply io_rel_bind; [by apply apply_flag_pause_blind|].
    intros a b Hab. by apply IH.
Qed.

Lemma apply_flag_pause (f : features) (p : string) :
  is_pause p = true →
  ∃ f', apply_flag f p = mret f' ∧ same_but_pause f' f.
Proof.
  unfold is_pause, is_one_of. intros Hp.
  assert (p = "-p" ∨ p = "--pause") as [-> | ->].
  { apply orb_true_iff in Hp as [H%String.eqb_eq|H%String.eqb_eq]; auto. }
  - eexists. split; [reflexivity|]. by repeat split.
  - eexists. split; [reflexivity|]. by repeat split.
Qed.

Lemma fold_apply_flag_pause (fl1 fl2 : list string) (p : string)
    (f : features) :
  is_pause p = true →
  io_rel same_but_pause
         (fold_io apply_flag (fl1 ++ p :: fl2) f)
         (fold_io apply_flag (fl1 ++ fl2) f).
Proof.
  intros Hp. rewrite !fold_io_app.
  eapply io_rel_bind; [apply (io_rel_refl eq); done|].
  intros f1 ? <-.
  change (fold_io apply_flag (p :: fl2) f1)
    with (apply_flag f1 p ≫= fold_io apply_flag fl2).
  destruct (apply_flag_pause f1 p Hp) as (f1' & -> & Hsame).
  rewrite io_bind_ret. by apply fold_apply_flag_pause_blind.
Qed.

Section Pause.
Context {L : Library}.

Lemma parseTargets_pause (w : world) (args1 args2 : list string) (p : string) :
  is_pause p = true →
  args1 ++ args2 ≠ [] ∨ directoryExists w "." = true →
  io_rel (same_but_flag p)
         (parseTargets w (args1 ++ p :: args2))
         (parseTargets w (args1 ++ args2)).
Proof.
  intros Hp Hne.
  assert (∀ args, args ≠ [] →
    parseTargets w args
    = (fold_io parse_arg args {| dir := "."; pattern := "*"; flags := [] |}
       ≫= λ t, if directoryExists w (dir t) then mret t
               else showError ("Directory does not exist: " +:+ dir t)))
    as Hparse.
  { intros [|a args] Hargs; [done|reflexivity]. }
  rewrite (Hparse (args1 ++ p :: args2)) by by destruct args1.
  destruct (decide (args1 ++ args2 = [])) as [Hnil|Hcons].
  - destruct Hne as [?|Hdot]; [done|].
    apply app_eq_nil in Hnil as [-> ->]. simpl app.
    change (fold_io parse_arg [p] ?t0) with (parse_arg t0 p ≫= mret).
    rewrite parse_arg_pause, !io_bind_ret by done. simpl dir.
    rewrite Hdot. split; [done|]. simpl. split_and!; [done..|].
    by exists [], [].
  - rewrite (Hparse (args1 ++ args2)) by done.
    eapply io_rel_bind; [by apply fold_parse_arg_pause|].
    intros tp t (Hd & Hpat & Hfl). cbv beta. rewrite Hd.
    destruct (directoryExists w (dir t)).
    + split; [done|]. simpl. by split_and!.
    + rewrite !showError_text. by split.
Qed.

Lemma list_target_pause_blind (w : world) (tp t : targets)
    (f f' : features) (screenHeight : Z) p :
  same_but_flag p tp t → same_but_pause f f' →
  list_target w tp f screenHeight = list_target w t f' screenHeight.
Proof.
  intros (Hd & Hp & _) (Hr & Ht & Hl & Hw). unfold list_target.
  by rewrite Hd, Hp, Hr, Ht, Hl, Hw.
Qed.

(** C7 on the code.  The pause flag is parsed and stored in
    [screenPause], which nothing reads: an invocation prints the same
    text and ends in the same way with the flag and without it.  (The
    side condition covers [c -p] alone against [c], which differ only
    when the current directory cannot be listed at all.) *)
Theorem pause_flag_changes_nothing (w : world)
    (args1 args2 : list string) (p : string) :
  p = "-p" ∨ p = "--pause" →
  args1 ++ args2 ≠ [] ∨ directoryExists w "." = true →
  main w (args1 ++ p :: args2) = main w (args1 ++ args2).
Proof.
  intros Hp Hne.
  assert (is_pause p = true) as Hpause by (by destruct Hp as [-> | ->]).
  assert (main_body w (args1 ++ p :: args2) = main_body w (args1 ++ args2))
    as Hbody; [|by unfold main; rewrite Hbody].
  apply io_rel_eq. unfold main_body. cbv zeta.
  eapply io_rel_bind; [by apply parseTargets_pause|].
  intros tp t Hrel. cbv beta.
  eapply (io_rel_bind same_but_pause).
  { destruct Hrel as (_ & _ & fl1 & fl2 & -> & ->).
    by apply fold_apply_flag_pause. }
  intros f f' Hf. cbv beta.
  rewrite (list_target_pause_blind w tp t f f' _ p Hrel Hf).
  apply io_rel_refl. done.
Qed.

End Pause.

Lemma pause_flag_changes_nothing_witness :
  main sample_world ["-r"; "-p"; "sub"] = main sample_world ["-r"; "sub"].
Proof.
  refine (pause_flag_changes_nothing sample_world ["-r"] ["sub"] "-p" _ _).
  - left. reflexivity.
  - left. discriminate.
Defined.

(** ** The recursion bound is never reached *)

Lemma within_fuel_bind {A B} (x : io A) (f : A → io B) :
  within_fuel x →
  (∀ out a, x = (out, Ret a) → within_fuel (f a)) →
  within_fuel (x ≫= f).
Proof.
  destruct x as [out [a|s]]; intros Hx Hf.
  - rewrite io_bind_out. by apply (Hf out a).
  - rewrite io_bind_stop. unfold within_fuel in *. cbn [snd] in *.
    intros [= ->]. by apply Hx.
Qed.

Lemma within_fuel_fold {A S} (f : S → A → io S) (l : list A) (s : S) :
  (∀ s a, a ∈ l → within_fuel (f s a)) → within_fuel (fold_io f l s).
Proof.
  revert s. induction l as [|x l IH]; intros s Hf; [done|].
  change (fold_io f (x :: l) s) with (f s x ≫= fold_io f l).
  apply within_fuel_bind; [apply Hf; by left|].
  intros _ s' _. apply IH. intros s'' a Ha. apply Hf. by right.
Qed.

Lemma within_fuel_if {A} (b : bool) (x y : io A) :
  within_fuel x → within_fuel y → within_fuel (if b then x else y).
Proof. by destruct b. Qed.

Lemma displayMultiColumn_within_fuel tty entries :
  within_fuel (displayMultiColumn tty entries).
Proof.
  unfold displayMultiColumn. cbv zeta. case_match; [done|].
  apply within_fuel_fold. intros [] row _. unfold grid_row.
  apply within_fuel_bind; [|done].
  apply within_fuel_fold. intros [] col _. cbv beta zeta.
  repeat case_match; done.
Qed.

Section WithinFuel.
Context {L : Library}.
Variables (tty : winsize) (pattern : string).
Variables (recursive showTotalSize forceList forceWide : bool).
Variable (screenHeight : Z).

Lemma scan_entry_within_fuel st e :
  within_fuel (scan_entry pattern recursive showTotalSize st e).
Proof. unfold scan_entry. repeat case_match; done. Qed.

(** Whatever the first loop returns, its directories are children, and
    directories. *)
Lemma fold_scan_directories children st0 out st :
  fold_io (scan_entry pattern recursive showTotalSize) children st0
  = (out, Ret st) →
  ∀ d, d ∈ directories st →
       d ∈ directories st0 ∨ (d ∈ children ∧ is_directory d = true).
Proof.
  revert st0 out. induction children as [|e children IH]; intros st0 out.
  - intros [= <- <-] d Hd. by left.
  - change (fold_io ?f (e :: children) st0)
      with (f st0 e ≫= fold_io f children).
    destruct (scan_entry pattern recursive showTotalSize st0 e)
      as [out1 [st1|s]] eqn:Hstep; [|done].
    rewrite io_bind_out.
    destruct (fold_io _ children st1) as [out2 [st2|s]] eqn:Hfold; [|done].
    intros [= <- <-] d Hd.
    destruct (IH st1 out2 Hfold d Hd) as [Hd1|[Hd1 Hdir]];
      [|right; split; [by right|done]].
    assert (directories st1 = directories st0 ∨
            (directories st1 = directories st0 ++ [e] ∧ is_directory e = true))
      as [Heq|[Heq Hdir]].
    { unfold scan_entry in Hstep. repeat case_match;
        inversion Hstep; subst; simpl; auto. }
    + left. by rewrite <- Heq.
    + rewrite Heq in Hd1. apply elem_of_app in Hd1 as [?|Hd1]; [by left|].
      apply list_elem_of_singleton in Hd1 as ->. right. split; [by left|done].
Qed.

(** With the fuel that [main] supplies, and with any larger amount, the
    listing never stops for lack of fuel. *)
Lemma listDirectoryContents_within_fuel fuel :
  ∀ path children c,
    (fuel_for children ≤ fuel)%nat →
    within_fuel
      (listDirectoryContents fuel tty path children pattern recursive
         showTotalSize forceList forceWide c screenHeight).
Proof.
  induction fuel as [|fuel IH]; intros path children c Hfuel.
  { unfold fuel_for in Hfuel. lia. }
  change (listDirectoryContents (S fuel) tty path children pattern recursive
            showTotalSize forceList forceWide c screenHeight)
    with (scan pattern recursive showTotalSize children c ≫= λ st,
          render_level tty
            (use_multi_column forceList forceWide
               (Z.of_nat (length (all_entries st))) screenHeight)
            (all_entries st) (showTotalSize && negb recursive);;
          if recursive then
            descend
              (λ path children c,
                 listDirectoryContents fuel tty path children pattern
                   recursive showTotalSize forceList forceWide c screenHeight)
              path (sorted_directories st) (tally st)
          else mret (tally st)).
  apply within_fuel_bind.
  { apply within_fuel_fold. intros st e _. apply scan_entry_within_fuel. }
  intros out st Hscan.
  apply within_fuel_bind.
  { unfold render_level. case_match.
    - apply displayMultiColumn_within_fuel.
    - by rewrite display_list_text. }
  intros _ [] _. apply within_fuel_if; [|done].
  apply within_fuel_fold. intros c' d Hd. cbv beta zeta.
  apply within_fuel_bind; [done|]. intros _ [] _.
  rewrite sorted_directories_Permutation in Hd.
  destruct (fold_scan_directories children _ out st Hscan d Hd)
    as [Hd'|[Hd' Hdir]].
  { by apply elem_of_nil in Hd'. }
  pose proof (fuel_for_child d children Hd') as Hlt.
  destruct d as [| |m ch|m ch|m]; try discriminate; simpl open_directory;
    rewrite io_bind_ret; apply IH;
    change (height _) with (fuel_for ch) in Hlt; lia.
Qed.

End WithinFuel.

Section MainWithinFuel.
Context {L : Library}.

Lemma parseTargets_within_fuel (w : world) (args : list string) :
  within_fuel (parseTargets w args).
Proof.
  destruct (parseTargets w args) as [out [t|s]] eqn:Hparse; [done|].
  by apply parseTargets_form in Hparse as [-> _].
Qed.

Lemma apply_flag_within_fuel (f : features) (flag : string) :
  within_fuel (apply_flag f flag).
Proof.
  destruct (is_help flag) eqn:Hh.
  - by rewrite apply_flag_help.
  - by destruct (apply_flag_no_help f flag Hh) as [f' ->].
Qed.

(** A run of [main] never ends for lack of fuel: the model covers every
    run over a finite tree. *)
Lemma main_within_fuel (w : world) (args : list string) :
  (main w args).2 ≠ OutOfFuel.
Proof.
  assert (within_fuel (main_body w args)) as Hbody.
  { unfold main_body. cbv zeta.
    apply within_fuel_bind; [apply parseTargets_within_fuel|].
    intros _ t _. apply within_fuel_bind.
    { apply within_fuel_fold. intros f flag _. apply apply_flag_within_fuel. }
    intros _ f _. apply within_fuel_bind; [|done].
    unfold list_target. repeat case_match; try done;
      (apply within_fuel_bind; [by destruct e|]); intros _ children _;
      by apply listDirectoryContents_within_fuel. }
  unfold main, within_fuel in *.
  destruct (main_body w args) as [out [[]|s]]; simpl in *; congruence.
Qed.

End MainWithinFuel.

(** ** Further facts about the cases above *)

(** Every width from 1 to 17 leaves no column to divide by. *)
Lemma displayMultiColumn_narrow (tty : winsize) (entries : list entry) :
  0 < ws_col tty < 18 →
  displayMultiColumn tty entries = ("", Stop DivisionByZero).
Proof.
  intros Hw. unfold displayMultiColumn. cbv zeta.
  destruct (Z.ltb_spec 0 (ws_col tty)) as [_|?]; [|lia].
  change (17 + 1) with 18.
  assert (ws_col tty ÷ 18 = 0) as -> by (apply Z.quot_small; lia).
  reflexivity.
Qed.

(** On a screen of one or two rows [screenHeight - 3] is negative and
    becomes a huge [size_t]: the overflow test is then never true. *)
Example layout_short_screen :
  use_multi_column false false 100 2 = false ∧
  use_multi_column false false 100 24 = true.
Proof. split; reflexivity. Qed.

(** An unknown flag in first position is reported as such. *)
Lemma unknown_flag_first `{Library} (w : world) (flag : string)
    (args : list string) :
  starts_with_dash flag = true →
  existsb (String.eqb flag) known_flags = false →
  main w (flag :: args) = (error_text ("Unknown flag: " +:+ flag), Exit 1).
Proof.
  intros Hdash Hknown.
  assert (∀ t, parse_arg t flag
               = (error_text ("Unknown flag: " +:+ flag), Stop (Exit 1)))
    as Hstep.
  { intros t. unfold parse_arg. by rewrite Hdash, Hknown, showError_text. }
  unfold main, main_body, parseTargets. cbv zeta.
  change (fold_io parse_arg (flag :: args) ?t)
    with (parse_arg t flag ≫= fold_io parse_arg args).
  by rewrite Hstep, !io_bind_stop.
Qed.

(** Names that differ only in case have one key: their order among
    themselves is left to [std::sort]. *)
Example directory_key_case :
  directory_key (Directory (Meta "Docs" (Some 16877) 0) [])
  = directory_key (Directory (Meta "docs" (Some 16877) 0) []).
Proof. reflexivity. Qed.

(** * Further properties of the code *)

(** ** [formatSize]: what the loop leaves, and the width of the text *)

(** X1.  The loop of [formatSize] stops with a value of at least 1 and below
    1024: the byte count, as a [double], divided by 1024 once more than
    the unit index says.  Below [2 ^ 53] bytes the conversion is exact, so
    that the value is the byte count itself divided by that power. *)
Theorem formatSize_reduced_range (b : Z) :
  1024 ≤ b ≤ UINTMAX_MAX →
  num (reducedSize_of b) = to_double b ∧
  shift (reducedSize_of b) = 10 * (unitIndex_of b + 1) ∧
  2 ^ shift (reducedSize_of b) ≤ num (reducedSize_of b)
    < 1024 * 2 ^ shift (reducedSize_of b) ∧
  (b < 2 ^ 53 → num (reducedSize_of b) = b).
Proof.
  intros [Hlo Hhi].
  destruct (reduce_loop_exit b Hlo) as (n & Hn & Heq & Hge & Hlt).
  unfold reducedSize_of, unitIndex_of. rewrite Heq. cbn [fst snd num shift].
  split_and!; [done|lia|done| |by apply to_double_small].
  replace (10 * n + 10) with (10 + 10 * n) in Hlt by lia.
  rewrite Z.pow_add_r in Hlt by lia. exact Hlt.
Qed.

Lemma formatSize_reduced_range_witness :
  num (reducedSize_of 5000000) = 5000000 ∧
  shift (reducedSize_of 5000000) = 20.
Proof.
  assert (1024 ≤ 5000000 ≤ UINTMAX_MAX) as H by (unfold UINTMAX_MAX; lia).
  destruct (formatSize_reduced_range 5000000 H) as (Hnum & Hshift & _ & Hexact).
  split; [apply Hexact; lia|]. rewrite Hshift. reflexivity.
Defined.







(** ** [getPermissions]: one character for each mode bit *)

Lemma land_pow2 (mode k : Z) :
  0 ≤ k → Z.land mode (2 ^ k) = if Z.testbit mode k then 2 ^ k else 0.
Proof.
  intros Hk. apply Z.bits_inj'. intros j Hj.
  rewrite Z.land_spec, Z.pow2_bits_eqb by done.
  destruct (Z.eqb_spec k j) as [->|Hne].
  - destruct (Z.testbit mode j); simpl.
    + rewrite Z.pow2_bits_eqb by done. by rewrite Z.eqb_refl.
    + by rewrite Z.bits_0.
  - rewrite andb_false_r. destruct (Z.testbit mode k).
    + rewrite Z.pow2_bits_eqb by done. symmetry. by apply Z.eqb_neq.
    + by rewrite Z.bits_0.
Qed.

Lemma perm_char_testbit (mode k : Z) (c : ascii) :
  0 ≤ k →
  perm_char mode (2 ^ k) (String c "")
  = String (if Z.testbit mode k then c else "-"%char) "".
Proof.
  intros Hk. unfold perm_char. rewrite land_pow2 by done.
  destruct (Z.testbit mode k); [|done].
  destruct (Z.eqb_spec (2 ^ k) 0) as [H0|_]; [|done].
  pose proof (Z.pow_pos_nonneg 2 k). lia.
Qed.

(** X3.  When [stat] succeeds the permission text has ten characters: [d] or
    [-] for the file type, then [r], [w], [x] for owner, group and others,
    each shown exactly when its mode bit is set, from bit 8 (owner read)
    down to bit 0 (others execute).  When [stat] fails the placeholder has
    nine characters, one fewer. *)
Theorem getPermissions_bits (mode : Z) :
  getPermissions (Some mode)
  = String (if S_ISDIR mode then "d" else "-")
      (String.string_of_list_ascii
         (map (λ k, if Z.testbit mode k
                    then nth (Z.to_nat k) ["x"; "w"; "r"; "x"; "w"; "r"; "x"; "w"; "r"] "-"
                    else "-")%char
              [8; 7; 6; 5; 4; 3; 2; 1; 0])) ∧
  String.length (getPermissions (Some mode)) = 10%nat ∧
  String.length (getPermissions None) = 9%nat.
Proof.
  assert (getPermissions (Some mode)
  = String (if S_ISDIR mode then "d" else "-")
      (String.string_of_list_ascii
         (map (λ k, if Z.testbit mode k
                    then nth (Z.to_nat k) ["x"; "w"; "r"; "x"; "w"; "r"; "x"; "w"; "r"] "-"
                    else "-")%char
              [8; 7; 6; 5; 4; 3; 2; 1; 0]))) as Heq.
  { unfold getPermissions.
    change S_IRUSR with (2 ^ 8). change S_IWUSR with (2 ^ 7).
    change S_IXUSR with (2 ^ 6). change S_IRGRP with (2 ^ 5).
    change S_IWGRP with (2 ^ 4). change S_IXGRP with (2 ^ 3).
    change S_IROTH with (2 ^ 2). change S_IWOTH with (2 ^ 1).
    change S_IXOTH with (2 ^ 0).
    rewrite !perm_char_testbit by lia.
    destruct (S_ISDIR mode); reflexivity. }
  split_and!; [exact Heq|by rewrite Heq|reflexivity].
Qed.

Example getPermissions_examples :
  getPermissions (Some 33188) = "-rw-r--r--" ∧
  getPermissions (Some 16877) = "drwxr-xr-x" ∧
  getPermissions (Some 33261) = "-rwxr-xr-x".
Proof. repeat split. Qed.

(** ** [categorizeFile]: what decides the category *)

Lemma tolower_dot (c : ascii) :
  Ascii.eqb (tolower c) "." = Ascii.eqb c ".".
Proof. by destruct c as [[] [] [] [] [] [] [] []]. Qed.

Lemma length_toLower (s : string) :
  String.length (toLower s) = String.length s.
Proof. induction s as [|c s IH]; simpl; by rewrite ?IH. Qed.

Lemma last_dot_suffix_toLower (s : string) :
  last_dot_suffix (toLower s) = toLower <$> last_dot_suffix s.
Proof.
  induction s as [|c s IH]; [done|]. simpl. rewrite IH, tolower_dot.
  destruct (last_dot_suffix s); simpl; [done|].
  by destruct (Ascii.eqb c ".").
Qed.

(** Folding the case of a name folds the case of its extension. *)
Lemma extension_toLower (name : string) :
  extension (toLower name) = toLower (extension name).
Proof.
  destruct name as [|c rest]; [done|].
  unfold extension. cbn [toLower]. rewrite tolower_dot.
  change (String.length (String (tolower c) (toLower rest)))
    with (S (String.length (toLower rest))).
  change (String.length (String c rest)) with (S (String.length rest)).
  rewrite length_toLower, last_dot_suffix_toLower.
  destruct (_ && _); [done|]. by destruct (last_dot_suffix rest).
Qed.

Lemma tolower_idemp (c : ascii) : tolower (tolower c) = tolower c.
Proof. by destruct c as [[] [] [] [] [] [] [] []]. Qed.

Lemma toLower_idemp (s : string) : toLower (toLower s) = toLower s.
Proof.
  induction s as [|c s IH]; [done|]. simpl. by rewrite IH, tolower_idemp.
Qed.

(** X4.  The classification does not depend on the case of the name: two
    entries of the same kind and with the same owner-execute bit, whose
    names differ only in case, have the same category. *)
Theorem categorizeFile_case_insensitive (e1 e2 : entry) :
  toLower (name_of e1) = toLower (name_of e2) →
  is_regular_file e1 = is_regular_file e2 →
  owner_exec (entry_meta e1) = owner_exec (entry_meta e2) →
  categorizeFile e1 = categorizeFile e2.
Proof.
  intros Hname Hreg Hexec. unfold categorizeFile. cbv zeta.
  rewrite <- !extension_toLower, Hname, Hreg, Hexec. done.
Qed.

Lemma categorizeFile_case_insensitive_witness :
  categorizeFile (Regular (Meta "PHOTO.JPG" (Some 33188) 0) 7)
  = categorizeFile (Regular (Meta "photo.jpg" (Some 33188) 5) 9).
Proof.
  apply categorizeFile_case_insensitive; reflexivity.
Defined.

(** X5.  [categorizeFile] never answers [Hidden]; what is not a regular file
    is [Other]; and [Executable] is the answer exactly for a regular file
    with the owner-execute bit whose extension is in none of the five
    tables, so that an executable script with a listed extension keeps
    the category of its extension. *)
Theorem categorizeFile_range (e : entry) :
  categorizeFile e ≠ Hidden ∧
  (is_regular_file e = false → categorizeFile e = Other) ∧
  (categorizeFile e = Executable ↔
   is_regular_file e = true ∧ owner_exec (entry_meta e) = true ∧
   toLower (extension (name_of e))
     ∉ programmingExtensions ∪ textExtensions ∪ videoExtensions
       ∪ pictureExtensions ∪ compressedExtensions).
Proof.
  unfold categorizeFile, count. cbv zeta.
  generalize (toLower (extension (name_of e))) as ext.
  generalize programmingExtensions as P, textExtensions as T,
    videoExtensions as V, pictureExtensions as I, compressedExtensions as C.
  intros P T V I C ext. rewrite !elem_of_union.
  destruct (is_regular_file e);
    [|split_and!; [done|done|]; split; [done|]; by intros [? _]].
  destruct (decide (ext ∈ P)) as [H1|H1].
  { rewrite (bool_decide_eq_true_2 _ H1).
    split_and!; [done|done|]. split; [done|]. tauto. }
  rewrite (bool_decide_eq_false_2 _ H1).
  destruct (decide (ext ∈ T)) as [H2|H2].
  { rewrite (bool_decide_eq_true_2 _ H2).
    split_and!; [done|done|]. split; [done|]. tauto. }
  rewrite (bool_decide_eq_false_2 _ H2).
  destruct (decide (ext ∈ V)) as [H3|H3].
  { rewrite (bool_decide_eq_true_2 _ H3).
    split_and!; [done|done|]. split; [done|]. tauto. }
  rewrite (bool_decide_eq_false_2 _ H3).
  destruct (decide (ext ∈ I)) as [H4|H4].
  { rewrite (bool_decide_eq_true_2 _ H4).
    split_and!; [done|done|]. split; [done|]. tauto. }
  rewrite (bool_decide_eq_false_2 _ H4).
  destruct (decide (ext ∈ C)) as [H5|H5].
  { rewrite (bool_decide_eq_true_2 _ H5).
    split_and!; [done|done|]. split; [done|]. tauto. }
  rewrite (bool_decide_eq_false_2 _ H5).
  destruct (owner_exec (entry_meta e)).
  - split_and!; [done|done|]. split; [|done]. intros _.
    split_and!; [done|done|]. tauto.
  - split_and!; [done|done|]. split; [done|]. by intros (_ & ? & _).
Qed.

Lemma count_elem_of (A : gset string) (x : string) :
  count A x = true → x ∈ A.
Proof. apply bool_decide_eq_true_1. Qed.

Lemma tables_disjoint_check (A B : gset string) :
  forallb (λ x, negb (count B x)) (elements A) = true →
  ∀ x, x ∈ A → x ∉ B.
Proof.
  rewrite forallb_forall. intros Hall x HA HB.
  specialize (Hall x). unfold count in Hall.
  rewrite bool_decide_eq_true_2 in Hall by exact HB.
  assert (In x (elements A)) as Hin.
  { apply list_elem_of_In. apply elem_of_elements. exact HA. }
  by specialize (Hall Hin).
Qed.

Lemma tables_overlap_check (A B : gset string) (k : string) :
  forallb (λ x, negb (count B x) || String.eqb x k) (elements A) = true →
  ∀ x, x ∈ A → x ≠ k → x ∉ B.
Proof.
  rewrite forallb_forall. intros Hall x HA Hk HB.
  specialize (Hall x). unfold count in Hall.
  rewrite bool_decide_eq_true_2 in Hall by exact HB.
  assert (In x (elements A)) as Hin.
  { apply list_elem_of_In. apply elem_of_elements. exact HA. }
  specialize (Hall Hin). simpl in Hall. apply String.eqb_eq in Hall.
  exact (Hk Hall).
Qed.

(** X6.  Apart from [.sh] the five tables share no extension, so every listed
    extension gives a regular file the category of its table, whatever
    the order of the lookups: only [.sh] in the text table is shadowed,
    by the programming table. *)
Theorem categorizeFile_by_table (e : entry) :
  is_regular_file e = true →
  let ext := toLower (extension (name_of e)) in
  (ext ∈ programmingExtensions → categorizeFile e = Programming) ∧
  (ext ∈ textExtensions → ext ≠ ".sh" → categorizeFile e = Text) ∧
  (ext ∈ videoExtensions → categorizeFile e = Video) ∧
  (ext ∈ pictureExtensions → categorizeFile e = Picture) ∧
  (ext ∈ compressedExtensions → categorizeFile e = Compressed).
Proof.
  intros Hreg ext.
  assert (∀ x, x ∈ textExtensions → x ≠ ".sh" → x ∉ programmingExtensions)
    as Htp by (apply tables_overlap_check; vm_compute; reflexivity).
  assert (∀ x, x ∈ videoExtensions → x ∉ programmingExtensions) as Hvp
    by (apply tables_disjoint_check; vm_compute; reflexivity).
  assert (∀ x, x ∈ videoExtensions → x ∉ textExtensions) as Hvt
    by (apply tables_disjoint_check; vm_compute; reflexivity).
  assert (∀ x, x ∈ pictureExtensions → x ∉ programmingExtensions) as Hpp
    by (apply tables_disjoint_check; vm_compute; reflexivity).
  assert (∀ x, x ∈ pictureExtensions → x ∉ textExtensions) as Hpt
    by (apply tables_disjoint_check; vm_compute; reflexivity).
  assert (∀ x, x ∈ pictureExtensions → x ∉ videoExtensions) as Hpv
    by (apply tables_disjoint_check; vm_compute; reflexivity).
  assert (∀ x, x ∈ compressedExtensions → x ∉ programmingExtensions) as Hcp
    by (apply tables_disjoint_check; vm_compute; reflexivity).
  assert (∀ x, x ∈ compressedExtensions → x ∉ textExtensions) as Hct
    by (apply tables_disjoint_check; vm_compute; reflexivity).
  assert (∀ x, x ∈ compressedExtensions → x ∉ videoExtensions) as Hcv
    by (apply tables_disjoint_check; vm_compute; reflexivity).
  assert (∀ x, x ∈ compressedExtensions → x ∉ pictureExtensions) as Hcq
    by (apply tables_disjoint_check; vm_compute; reflexivity).
  unfold categorizeFile, count. cbv zeta. fold ext. rewrite Hreg.
  clearbody ext.
  revert Htp Hvp Hvt Hpp Hpt Hpv Hcp Hct Hcv Hcq.
  generalize programmingExtensions as P, textExtensions as T,
    videoExtensions as V, pictureExtensions as I, compressedExtensions as C.
  intros P T V I C Htp Hvp Hvt Hpp Hpt Hpv Hcp Hct Hcv Hcq.
  split_and!.
  - intros H. by rewrite (bool_decide_eq_true_2 _ H).
  - intros H Hsh.
    rewrite (bool_decide_eq_false_2 _ (Htp _ H Hsh)).
    by rewrite (bool_decide_eq_true_2 _ H).
  - intros H.
    rewrite (bool_decide_eq_false_2 _ (Hvp _ H)).
    rewrite (bool_decide_eq_false_2 _ (Hvt _ H)).
    by rewrite (bool_decide_eq_true_2 _ H).
  - intros H.
    rewrite (bool_decide_eq_false_2 _ (Hpp _ H)).
    rewrite (bool_decide_eq_false_2 _ (Hpt _ H)).
    rewrite (bool_decide_eq_false_2 _ (Hpv _ H)).
    by rewrite (bool_decide_eq_true_2 _ H).
  - intros H.
    rewrite (bool_decide_eq_false_2 _ (Hcp _ H)).
    rewrite (bool_decide_eq_false_2 _ (Hct _ H)).
    rewrite (bool_decide_eq_false_2 _ (Hcv _ H)).
    rewrite (bool_decide_eq_false_2 _ (Hcq _ H)).
    by rewrite (bool_decide_eq_true_2 _ H).
Qed.

Lemma categorizeFile_by_table_witness :
  categorizeFile (Regular (Meta "clip.TS" (Some 33188) 0) 1) = Video.
Proof.
  refine (proj1 (proj2 (proj2
    (categorizeFile_by_table (Regular (Meta "clip.TS" (Some 33188) 0) 1) _))) _).
  - reflexivity.
  - apply count_elem_of. vm_compute. reflexivity.
Defined.

Lemma contains_char_toLower_dot (s : string) :
  contains_char "." (toLower s) = contains_char "." s.
Proof.
  induction s as [|c s IH]; [done|]. simpl. by rewrite IH, tolower_dot.
Qed.

Lemma last_dot_suffix_shape (s e : string) :
  last_dot_suffix s = Some e →
  ∃ r, e = String "." r ∧ contains_char "." r = false.
Proof.
  revert e. induction s as [|c s IH]; intros e; [done|]. simpl.
  destruct (last_dot_suffix s) as [e'|] eqn:Hs.
  - intros [= <-]. by apply IH.
  - destruct (Ascii.eqb_spec c ".") as [->|_]; [|done].
    intros [= <-]. exists s. split; [done|].
    clear IH. induction s as [|d s IH]; [done|]. simpl in *.
    destruct (last_dot_suffix s); [done|].
    destruct (Ascii.eqb d "."); [done|]. simpl. by apply IH.
Qed.

(** X7.  The extension that [categorizeFile] looks up holds at most one dot,
    the leading one.  The five keys of the compressed table that hold two
    dots are therefore never found: a name such as [a.tar.gz] is
    classified through [.gz]. *)
Theorem extension_single_dot (name : string) :
  (toLower (extension name) = "" ∨
   ∃ r, toLower (extension name) = String "." r ∧
        contains_char "." r = false) ∧
  Forall (λ key, key ∈ compressedExtensions ∧ toLower (extension name) ≠ key)
         [".tar.gz"; ".tar.bz2"; ".tar.xz"; ".tar.zst"; ".tar.lz4"].
Proof.
  assert (toLower (extension name) = "" ∨
          ∃ r, toLower (extension name) = String "." r ∧
               contains_char "." r = false) as Hshape.
  { destruct name as [|c rest]; [by left|]. unfold extension.
    destruct (_ && _); [by left|].
    destruct (last_dot_suffix rest) as [e|] eqn:He; [|by left].
    destruct (last_dot_suffix_shape rest e He) as (r & -> & Hr).
    right. exists (toLower r). split; [done|].
    by rewrite contains_char_toLower_dot. }
  split; [exact Hshape|].
  assert (∀ key r, key = String "." r → contains_char "." r = true →
                   toLower (extension name) ≠ key) as Hne.
  { intros key r -> Hr Heq.
    destruct Hshape as [H0|(r' & H1 & Hr')]; rewrite Heq in *; [done|].
    injection H1 as <-. congruence. }
  repeat (apply Forall_cons; split;
          [split; [apply count_elem_of; vm_compute; reflexivity
                  |eapply Hne; reflexivity]|]).
  apply Forall_nil. done.
Qed.

Example categorizeFile_tar_gz :
  extension "backup.tar.gz" = ".gz" ∧
  categorizeFile (Regular (Meta "backup.tar.gz" (Some 33188) 0) 1) = Compressed.
Proof. split; vm_compute; reflexivity. Qed.

(** ** [toLower] *)

(** X8.  [toLower] keeps the length, is idempotent, and leaves a string without
    the bytes [A] to [Z] as it is; bytes outside ASCII are never changed,
    so that a name in UTF-8 stays valid. *)
Theorem toLower_bytes (s : string) :
  String.length (toLower s) = String.length s ∧
  toLower (toLower s) = toLower s ∧
  (forallb (λ c, negb ((65 <=? N_of_ascii c) && (N_of_ascii c <=? 90))%N)
           (String.list_ascii_of_string s) = true →
   toLower s = s) ∧
  forallb (λ c, negb ((65 <=? N_of_ascii c) && (N_of_ascii c <=? 90))%N)
          (String.list_ascii_of_string (toLower s)) = true.
Proof.
  split_and!.
  - apply length_toLower.
  - apply toLower_idemp.
  - induction s as [|c s IH]; [done|]. cbn [String.list_ascii_of_string forallb].
    intros [Hc Hs]%andb_true_iff. cbn [toLower]. rewrite IH by done.
    unfold tolower. cbv zeta. apply negb_true_iff in Hc. by rewrite Hc.
  - induction s as [|c s IH]; [done|].
    cbn [toLower String.list_ascii_of_string forallb]. rewrite IH, andb_true_r.
    by destruct c as [[] [] [] [] [] [] [] []].
Qed.

(** ** The comparators of [std::sort] *)

(** X9.  Both comparators are strict weak orders, which is what [std::sort]
    requires.  Two directories are equivalent for the sort exactly when
    their names are equal up to case; two files exactly when they have
    the same category and their names are equal up to case. *)
Theorem comparators_strict_weak_order :
  strict_weak_order directory_less ∧
  strict_weak_order file_less ∧
  (∀ a b, directory_less a b = false ∧ directory_less b a = false ↔
          toLower (name_of a) = toLower (name_of b)) ∧
  (∀ a b, file_less a b = false ∧ file_less b a = false ↔
          categorizeFile a = categorizeFile b ∧
          toLower (name_of a) = toLower (name_of b)).
Proof.
  split_and!.
  - apply directory_less_swo.
  - apply file_less_swo.
  - intros a b. unfold directory_less. split.
    + intros [Hab Hba]. by apply string_lt_trichotomy.
    + intros ->. by rewrite string_lt_irrefl.
  - intros a b. rewrite !file_less_key. split.
    + intros [Hab Hba].
      pose proof (key_lt_trichotomy _ _ Hab Hba) as Hkey.
      unfold file_key in Hkey. injection Hkey as Hord Hname.
      split; [by apply FileType_ord_inj|done].
    + intros [Hcat Hname]. unfold file_key. rewrite Hcat, Hname.
      by rewrite key_lt_irrefl.
Qed.

(** ** [calculateDirectorySize] *)

(** X10.  The total of [calculateDirectorySize] is a [uintmax_t] that does
    not depend on the order in which the tree is walked: the total of two
    lists is the wrapped sum of their totals, a directory counts as its
    content, a regular file as its size, and anything else as nothing.
    In particular a link to a directory met on the walk is not followed
    and a directory that cannot be opened is passed over; only the path
    that the walk starts from is opened as it is, so that the total
    printed for a link is that of the content behind it. *)
Theorem calculateDirectorySize_structure
    (l1 l2 children : list entry) (m : meta) (size : Z) :
  0 ≤ calculateDirectorySize l1 < 2 ^ 64 ∧
  calculateDirectorySize (l1 ++ l2)
  = uintmax_add (calculateDirectorySize l1) (calculateDirectorySize l2) ∧
  calculateDirectorySize (Directory m children :: l2)
  = calculateDirectorySize (children ++ l2) ∧
  calculateDirectorySize (Regular m size :: l2)
  = uintmax_add size (calculateDirectorySize l2) ∧
  calculateDirectorySize (Special m :: l2) = calculateDirectorySize l2 ∧
  calculateDirectorySize (DirectoryLink m children :: l2)
  = calculateDirectorySize l2 ∧
  calculateDirectorySize (Unreadable m :: l2) = calculateDirectorySize l2 ∧
  calculateDirectorySize (children_of (DirectoryLink m children))
  = calculateDirectorySize children ∧
  calculateDirectorySize (children_of (Unreadable m)) = 0 ∧
  (∀ l, l ≡ₚ l1 → calculateDirectorySize l = calculateDirectorySize l1).
Proof.
  rewrite !calculateDirectorySize_sum. split_and!.
  - apply Z.mod_pos_bound. lia.
  - apply Z.mod_pos_bound. lia.
  - rewrite bind_app, map_app, sum_list_app. unfold uintmax_add.
    by rewrite <- Z.add_mod by lia.
  - change ((Directory m children :: l2) ≫= descendants)
      with (Directory m children
            :: ((children ≫= descendants) ++ (l2 ≫= descendants))).
    rewrite bind_app. cbn [map file_size]. by rewrite sum_list_cons.
  - change ((Regular m size :: l2) ≫= descendants)
      with (Regular m size :: (l2 ≫= descendants)).
    cbn [map file_size]. rewrite sum_list_cons. unfold uintmax_add.
    by rewrite Z.add_mod_idemp_r by lia.
  - change ((Special m :: l2) ≫= descendants)
      with (Special m :: (l2 ≫= descendants)).
    cbn [map file_size]. by rewrite sum_list_cons.
  - change ((DirectoryLink m children :: l2) ≫= descendants)
      with (DirectoryLink m children :: (l2 ≫= descendants)).
    cbn [map file_size]. by rewrite sum_list_cons.
  - change ((Unreadable m :: l2) ≫= descendants)
      with (Unreadable m :: (l2 ≫= descendants)).
    cbn [map file_size]. by rewrite sum_list_cons.
  - reflexivity.
  - reflexivity.
  - intros l Hl. rewrite !calculateDirectorySize_sum. f_equal.
    apply sum_list_Permutation, fmap_Permutation. by rewrite Hl.
Qed.

(** The tree of [sample_linked]: the file behind the link is not counted
    a second time. *)
Example calculateDirectorySize_link :
  calculateDirectorySize sample_linked = 100.
Proof. reflexivity. Qed.

(** ** [displayMultiColumn]: the grid, row by row *)

Lemma concat_strings_app (l1 l2 : list string) :
  concat_strings (l1 ++ l2) = concat_strings l1 +:+ concat_strings l2.
Proof.
  induction l1 as [|x l1 IH]; [done|]. simpl.
  by rewrite IH, app_assoc_string.
Qed.

Lemma cell_text_nat (entries : list entry) (k r i : nat) :
  cell_text entries (Z.of_nat k) (Z.of_nat r) (Z.of_nat i)
  = from_option grid_cell "" (entries !! (r * k + i)%nat).
Proof.
  unfold cell_text. cbv zeta.
  replace (Z.of_nat r * Z.of_nat k + Z.of_nat i)
    with (Z.of_nat (r * k + i)) by lia.
  rewrite Nat2Z.id.
  destruct (Z.ltb_spec (Z.of_nat (r * k + i)) (Z.of_nat (length entries)))
    as [_|Hge]; [done|].
  rewrite (lookup_ge_None_2 entries (r * k + i)) by lia. done.
Qed.

Lemma cells_from (entries : list entry) (k o : nat) :
  concat_strings
    (map (λ i : nat, from_option grid_cell "" (entries !! (o + i)%nat))
         (seq 0 k))
  = concat_strings (map grid_cell (take k (drop o entries))).
Proof.
  revert o. induction k as [|k IH]; intros o; [done|].
  rewrite <- cons_seq, <- seq_shift. cbn [map concat_strings].
  rewrite map_map.
  rewrite (map_ext _ (λ i : nat,
             from_option grid_cell "" (entries !! (S o + i)%nat)))
    by (intros i; replace (o + S i)%nat with (S o + i)%nat by lia; done).
  rewrite IH, Nat.add_0_r.
  destruct (entries !! o) as [e|] eqn:He.
  - rewrite (drop_S _ _ _ He). done.
  - apply lookup_ge_None in He.
    rewrite !drop_ge by lia. by rewrite !take_nil.
Qed.

Lemma row_text_nat (entries : list entry) (k r : nat) :
  row_text entries (Z.of_nat k) (Z.of_nat r)
  = concat_strings (map grid_cell (grid_row_entries entries k r)) +:+ endl.
Proof.
  unfold row_text, grid_row_entries. f_equal.
  rewrite <- cells_from. unfold seqZ. rewrite Nat2Z.id.
  change (concat_strings
            (map (cell_text entries (Z.of_nat k) (Z.of_nat r))
                 (map (λ i : nat, Z.of_nat i + 0) (seq 0 k)))
          = concat_strings
              (map (λ i : nat,
                      from_option grid_cell "" (entries !! (r * k + i)%nat))
                   (seq 0 k))).
  rewrite map_map. f_equal. apply map_ext. intros i.
  by rewrite Z.add_0_r, cell_text_nat.
Qed.

Lemma concat_grid_rows (entries : list entry) (k rows : nat) :
  concat (map (grid_row_entries entries k) (seq 0 rows))
  = take (rows * k) entries.
Proof.
  induction rows as [|rows IH]; [done|].
  rewrite seq_S, map_app, concat_app, IH. cbn [map concat Nat.add].
  rewrite app_nil_r. unfold grid_row_entries.
  rewrite take_take_drop. f_equal. lia.
Qed.

(** X11.  On a terminal of at least 18 columns the grid shows every entry
    exactly once and in the order of the vector: each line holds the next
    [numColumns] entries, no line is empty, and the lines put end to end
    are the vector. *)
Theorem displayMultiColumn_row_major (tty : winsize) (entries : list entry) :
  18 ≤ maxWidth_of tty →
  displayMultiColumn tty entries
  = (concat_strings
       (map (λ row, concat_strings (map grid_cell row) +:+ endl)
            (grid_rows tty entries)), Ret tt) ∧
  concat (grid_rows tty entries) = entries ∧
  Forall (λ row, row ≠ [] ∧ Z.of_nat (length row) ≤ numColumns_of tty)
         (grid_rows tty entries).
Proof.
  intros Hw.
  destruct (numRows_of_ceil tty entries Hw) as (Hcols & Hlo & Hhi).
  assert (1 ≤ numColumns_of tty) as Hk
    by (rewrite Hcols; apply Z.div_le_lower_bound; lia).
  assert (0 ≤ numRows_of tty entries) as Hrows by nia.
  unfold grid_rows.
  set (k := Z.to_nat (numColumns_of tty)).
  set (rows := Z.to_nat (numRows_of tty entries)).
  assert (numColumns_of tty = Z.of_nat k) as Hkn by lia.
  assert (numRows_of tty entries = Z.of_nat rows) as Hrn by lia.
  split_and!.
  - rewrite displayMultiColumn_wide by done. f_equal.
    unfold grid_text. rewrite Hkn, Hrn. unfold seqZ. rewrite Nat2Z.id.
    change (concat_strings
              (map (row_text entries (Z.of_nat k))
                   (map (λ i : nat, Z.of_nat i + 0) (seq 0 rows)))
            = concat_strings
                (map (λ row, concat_strings (map grid_cell row) +:+ endl)
                     (map (grid_row_entries entries k) (seq 0 rows)))).
    rewrite !map_map. f_equal. apply map_ext. intros r.
    by rewrite Z.add_0_r, row_text_nat.
  - rewrite concat_grid_rows. apply take_ge. nia.
  - apply Forall_forall. intros row Hrow.
    apply list_elem_of_In, in_map_iff in Hrow as (r & <- & Hr).
    apply in_seq in Hr. unfold grid_row_entries.
    assert (r * k < length entries)%nat as Hlt by nia.
    split.
    + intros Hnil. apply (f_equal length) in Hnil.
      rewrite length_take, length_drop in Hnil. simpl in Hnil. lia.
    + rewrite length_take, length_drop. lia.
Qed.

Lemma displayMultiColumn_row_major_witness :
  concat (grid_rows {| ws_row := 24; ws_col := 40 |} (children_of sample_root))
  = children_of sample_root.
Proof.
  assert (18 ≤ maxWidth_of {| ws_row := 24; ws_col := 40 |}) as Hw
    by (vm_compute; discriminate).
  exact (proj1 (proj2 (displayMultiColumn_row_major
                         {| ws_row := 24; ws_col := 40 |}
                         (children_of sample_root) Hw))).
Defined.

(** X12.  At every width the grid either is drawn to the end, which happens
    from 18 columns on, or stops at the division before anything is
    written; the guard [index < numEntries] keeps every read inside the
    vector.  [maxWidth] is never below 1, since a width of 0 is replaced
    by 80. *)
Theorem displayMultiColumn_outcomes (tty : winsize) (entries : list entry) :
  displayMultiColumn tty entries
  = (if maxWidth_of tty <? 18 then ("", Stop DivisionByZero)
     else (grid_text tty entries, Ret tt)) ∧
  1 ≤ maxWidth_of tty ∧
  (displayMultiColumn tty entries).2 ≠ Stop OutOfRange.
Proof.
  assert (displayMultiColumn tty entries
          = (if maxWidth_of tty <? 18 then ("", Stop DivisionByZero)
             else (grid_text tty entries, Ret tt))) as Heq.
  { destruct (Z.ltb_spec (maxWidth_of tty) 18) as [Hlt|Hge].
    - apply displayMultiColumn_narrow. unfold maxWidth_of in Hlt.
      destruct (Z.ltb_spec 0 (ws_col tty)); lia.
    - by apply displayMultiColumn_wide. }
  split_and!; [exact Heq| |].
  - unfold maxWidth_of. destruct (Z.ltb_spec 0 (ws_col tty)); lia.
  - rewrite Heq. by destruct (maxWidth_of tty <? 18).
Qed.

(** X13.  The name field of a grid cell.  A name of at most 15 bytes is padded
    with spaces to 15; a longer one is cut to its first 14 bytes and
    followed by a yellow [>], and then no padding is added, because
    [setw] counts the bytes of the colour sequences as well. *)
Theorem grid_cell_name_field (e : entry) :
  let type := if is_directory e then Other else categorizeFile e in
  let head := color_of (isHidden e) type (is_directory e)
              +:+ emoji_of type (is_directory e) in
  grid_cell e
  = if (String.length (name_of e) <=? 15)%nat
    then head +:+ name_of e
         +:+ repeat_string (15 - String.length (name_of e)) " "
         +:+ ESC +:+ "[0m"
    else head +:+ String.substring 0 14 (name_of e)
         +:+ ESC +:+ "[1;33m>" +:+ ESC +:+ "[0m" +:+ ESC +:+ "[0m".
Proof.
  cbv zeta. unfold grid_cell. cbv zeta.
  destruct (Nat.leb_spec (String.length (name_of e)) 15) as [Hle|Hgt].
  - destruct (Nat.ltb_spec 15 (String.length (name_of e))) as [?|_]; [lia|].
    unfold setw_left. by rewrite !app_assoc_string.
  - destruct (Nat.ltb_spec 15 (String.length (name_of e))) as [_|?]; [|lia].
    unfold setw_left.
    assert (String.length
              (String.substring 0 (15 - 1) (name_of e) +:+
               ESC +:+ "[1;33m>" +:+ ESC +:+ "[0m") = 26%nat) as Hlen.
    { rewrite !length_app, length_substring by lia. reflexivity. }
    rewrite Hlen. change (15 - 26)%nat with 0%nat.
    change (repeat_string 0 " ") with "". rewrite app_empty_r.
    change (15 - 1)%nat with 14%nat. by rewrite !app_assoc_string.
Qed.

(** ** What [file_size] cannot measure *)

Section Uncaught.
Context {L : Library}.
Variables (tty : winsize) (pattern : string).
Variables (recursive showTotalSize forceList forceWide : bool).
Variable (screenHeight : Z).

Lemma scan_entry_returns st e :
  (matched_file pattern e = true → is_regular_file e = true) →
  ∃ st', scan_entry pattern recursive showTotalSize st e = mret st'.
Proof.
  unfold matched_file. intros He.
  destruct (matched pattern e) eqn:Hm.
  - destruct (is_directory e) eqn:Hdir.
    + eexists. by apply scan_entry_directory.
    + eexists. apply scan_entry_regular; [done..|]. by apply He.
  - eexists. by apply scan_entry_skip.
Qed.

Lemma fold_scan_uncaught (children : list entry) (st0 : scan_state) :
  Exists (λ e, matched_file pattern e = true ∧ is_regular_file e = false)
         children →
  fold_io (scan_entry pattern recursive showTotalSize) children st0
  = ("", Stop Uncaught).
Proof.
  revert st0. induction children as [|e children IH]; intros st0 Hex.
  { by apply Exists_nil in Hex. }
  change (fold_io ?f (e :: children) st0)
    with (f st0 e ≫= fold_io f children).
  destruct (matched_file pattern e && negb (is_regular_file e)) eqn:Hbad.
  - apply andb_true_iff in Hbad as [Hm Hreg%negb_true_iff].
    unfold matched_file in Hm. apply andb_true_iff in Hm as [Hm Hdir].
    apply negb_true_iff in Hdir.
    by rewrite scan_entry_special.
  - destruct (scan_entry_returns st0 e) as [st' ->].
    { intros Hm. rewrite Hm in Hbad. simpl in Hbad.
      by apply negb_false_iff in Hbad. }
    rewrite io_bind_ret. apply IH.
    apply Exists_cons in Hex as [[Hm Hreg]|Hex]; [|done].
    by rewrite Hm, Hreg in Hbad.
Qed.

(** X14.  A matched entry that is neither a directory nor a regular file (a
    fifo, a socket, a device) makes [file_size] throw in the first loop:
    the level ends with an uncaught exception before any of it is
    printed, whatever the flags are. *)
Theorem special_entry_uncaught fuel path children c :
  Exists (λ e, matched_file pattern e = true ∧ is_regular_file e = false)
         children →
  listDirectoryContents (S fuel) tty path children pattern recursive
    showTotalSize forceList forceWide c screenHeight
  = ("", Stop Uncaught).
Proof.
  intros Hex.
  change (listDirectoryContents (S fuel) tty path children pattern recursive
            showTotalSize forceList forceWide c screenHeight)
    with (scan pattern recursive showTotalSize children c ≫= λ st,
          render_level tty
            (use_multi_column forceList forceWide
               (Z.of_nat (length (all_entries st))) screenHeight)
            (all_entries st) (showTotalSize && negb recursive);;
          if recursive then
            descend
              (λ path children c,
                 listDirectoryContents fuel tty path children pattern
                   recursive showTotalSize forceList forceWide c screenHeight)
              path (sorted_directories st) (tally st)
          else mret (tally st)).
  unfold scan. by rewrite fold_scan_uncaught.
Qed.

End Uncaught.

Lemma special_entry_uncaught_witness :
  listDirectoryContents 1 (terminal sample_world) "pipes"
    (children_of sample_pipes) "*" false false false false
    {| totalFiles := 0; totalDirs := 0; totalSizeShown := 0 |} 24
  = ("", Stop Uncaught).
Proof.
  apply special_entry_uncaught. apply Exists_cons_hd. split; reflexivity.
Defined.

(** ** The counters of files and directories *)



Section Counts.
Context {L : Library}.
Variables (tty : winsize) (pattern : string).
Variables (showTotalSize forceList forceWide : bool).
Variable (screenHeight : Z).








End Counts.


(** Through a link the same file is listed, and counted, once more. *)
Example link_listed_twice :
  sum_list (map (shown_files "*" true) sample_linked) = 2 ∧
  length (List.filter is_regular_file (sample_linked ≫= descendants)) = 1%nat.
Proof. split; reflexivity. Qed.

(** ** [displaySummary] *)

(** X16.  The rule above the summary has one box-drawing character for each
    byte of the summary line: the loop starts at 1, which leaves out the
    line feed that ends the string.  The line itself follows the rule. *)
Theorem displaySummary_rule (totalFiles totalDirs totalSizeShown : Z) :
  displaySummary totalFiles totalDirs totalSizeShown
  = (ESC +:+ "[1;33m"
     +:+ repeat_string
           (String.length (summary_line totalFiles totalDirs totalSizeShown))
           "─"
     +:+ ESC +:+ "[0m" +:+ endl
     +:+ summary_line totalFiles totalDirs totalSizeShown +:+ endl,
     Ret tt).
Proof.
  unfold displaySummary. cbv zeta.
  assert ("Total: Files: " +:+ to_string_int totalFiles +:+
          " | Dirs: " +:+ to_string_int totalDirs +:+
          " | Size: " +:+ formatSize totalSizeShown +:+ String "010" ""
          = summary_line totalFiles totalDirs totalSizeShown +:+ endl) as ->.
  { unfold summary_line. by rewrite !app_assoc_string. }
  rewrite length_app. change (String.length endl) with 1%nat.
  replace (String.length (summary_line totalFiles totalDirs totalSizeShown)
           + 1 - 1)%nat
    with (String.length (summary_line totalFiles totalDirs totalSizeShown))
    by lia.
  rewrite !io_bind_write. unfold write. cbn [fst snd].
  by rewrite !app_assoc_string.
Qed.

(** ** [parseTargets]: what an accepted command line looks like *)

Lemma parse_arg_ret (t : targets) (arg : string) out t' :
  parse_arg t arg = (out, Ret t') →
  out = "" ∧
  if starts_with_dash arg then
    existsb (String.eqb arg) known_flags = true ∧
    t' = {| dir := dir t; pattern := pattern t; flags := flags t ++ [arg] |}
  else if is_wildcard arg then
    pattern t = "*" ∧
    t' = {| dir := dir t; pattern := arg; flags := flags t |}
  else
    dir t = "." ∧
    t' = {| dir := arg; pattern := pattern t; flags := flags t |}.
Proof.
  unfold parse_arg, is_wildcard.
  destruct (starts_with_dash arg).
  - destruct (existsb _ _) eqn:Hk.
    + intros [= <- <-]. done.
    + rewrite showError_text. intros [=].
  - destruct (contains_char "*" arg || contains_char "?" arg).
    + destruct (String.eqb_spec (pattern t) "*") as [Hp|Hp].
      * intros [= <- <-]. done.
      * rewrite showError_text. intros [=].
    + destruct (String.eqb_spec (dir t) ".") as [Hd|Hd].
      * intros [= <- <-]. done.
      * rewrite showError_text. intros [=].
Qed.

Lemma last_cons_default {A} (l : list A) (a d : A) :
  List.last (a :: l) d = List.last l a.
Proof.
  revert a d. induction l as [|b l IH]; intros a d; [done|].
  change (List.last (a :: b :: l) d) with (List.last (b :: l) d).
  by rewrite !IH.
Qed.

Lemma Forall_removelast_cons {A} (P : A → Prop) (d : A) (l : list A) :
  Forall P (removelast (d :: l)) → Forall P (removelast l).
Proof.
  destruct l as [|a l]; [done|].
  change (removelast (d :: a :: l)) with (d :: removelast (a :: l)).
  by intros [_ ?]%Forall_cons.
Qed.

Lemma fold_parse_arg_ret (args : list string) (t0 : targets) out t :
  fold_io parse_arg args t0 = (out, Ret t) →
  Forall (λ flag, existsb (String.eqb flag) known_flags = true)
         (List.filter starts_with_dash args) ∧
  dir t = List.last (List.filter is_directory_arg args) (dir t0) ∧
  pattern t = List.last (List.filter is_pattern_arg args) (pattern t0) ∧
  Forall (λ a, a = ".")
         (removelast (dir t0 :: List.filter is_directory_arg args)) ∧
  Forall (λ a, a = "*")
         (removelast (pattern t0 :: List.filter is_pattern_arg args)).
Proof.
  revert t0 out. induction args as [|arg args IH]; intros t0 out.
  { intros [= <- <-]. split_and!; done || constructor. }
  change (fold_io parse_arg (arg :: args) t0)
    with (parse_arg t0 arg ≫= fold_io parse_arg args).
  destruct (parse_arg t0 arg) as [out1 [t1|s]] eqn:Hstep;
    [|rewrite io_bind_stop; intros [=]].
  apply parse_arg_ret in Hstep as [-> Hcase]. rewrite io_bind_silent.
  intros Hfold. destruct (IH _ _ Hfold) as (Hk & Hdir & Hpat & Hdots & Hstars).
  unfold is_directory_arg, is_pattern_arg in *. cbn [List.filter].
  destruct (starts_with_dash arg); [|destruct (is_wildcard arg)];
    destruct Hcase as [H1 ->]; cbn [negb andb dir pattern flags] in *.
  - split_and!; [by apply Forall_cons|done..].
  - split_and!; [done|done| |done|].
    + by rewrite last_cons_default.
    + change (removelast (pattern t0 :: arg :: ?l))
        with (pattern t0 :: removelast (arg :: l)).
      by apply Forall_cons.
  - split_and!; [done| |done| |done].
    + by rewrite last_cons_default.
    + change (removelast (dir t0 :: arg :: ?l))
        with (dir t0 :: removelast (arg :: l)).
      by apply Forall_cons.
Qed.

Lemma parseTargets_fold (w : world) (args : list string) out t :
  parseTargets w args = (out, Ret t) →
  (args = [] ∧ t = {| dir := "."; pattern := "*"; flags := [] |}) ∨
  (args ≠ [] ∧
   fold_io parse_arg args {| dir := "."; pattern := "*"; flags := [] |}
   = ("", Ret t) ∧
   directoryExists w (dir t) = true).
Proof.
  unfold parseTargets. destruct args as [|a args].
  { intros [= <- <-]. by left. }
  destruct (fold_io parse_arg (a :: args) _) as [out1 [t1|s]] eqn:Hfold;
    [|rewrite io_bind_stop; intros [=]].
  pose proof (fold_parse_arg_form _ _ _ _ Hfold) as [-> _].
  rewrite io_bind_silent.
  destruct (directoryExists w (dir t1)) eqn:Hex.
  - intros [= <- <-]. right. done.
  - rewrite showError_text. intros [=].
Qed.

Lemma known_flag_elem_of (flag : string) :
  existsb (String.eqb flag) known_flags = true → flag ∈ known_flags.
Proof.
  intros (x & Hin & Heq%String.eqb_eq)%existsb_exists. subst x.
  by apply list_elem_of_In.
Qed.

(** X17.  When [parseTargets] accepts the arguments it has written nothing;
    the flags are the arguments that start with a dash, in order, and
    each is one of the twelve known spellings; the directory is the last
    directory argument and the pattern the last pattern argument, or the
    defaults [.] and [*]; every directory argument before the last is
    [.] and every pattern argument before the last is [*]; and unless
    there are no arguments at all, the directory exists. *)
Theorem parseTargets_accepted (w : world) (args : list string)
    (out : string) (t : targets) :
  parseTargets w args = (out, Ret t) →
  out = "" ∧
  flags t = List.filter starts_with_dash args ∧
  Forall (λ flag, flag ∈ known_flags) (flags t) ∧
  dir t = List.last (List.filter is_directory_arg args) "." ∧
  pattern t = List.last (List.filter is_pattern_arg args) "*" ∧
  Forall (λ a, a = ".") (removelast (List.filter is_directory_arg args)) ∧
  Forall (λ a, a = "*") (removelast (List.filter is_pattern_arg args)) ∧
  (args ≠ [] → directoryExists w (dir t) = true).
Proof.
  intros Hparse.
  pose proof (parseTargets_form w args _ _ Hparse) as [-> Hflags].
  destruct (parseTargets_fold w args _ _ Hparse)
    as [[-> ->]|(Hne & Hfold & Hex)].
  { split_and!; done || constructor. }
  destruct (fold_parse_arg_ret _ _ _ _ Hfold)
    as (Hk & Hdir & Hpat & Hdots & Hstars).
  split_and!; [done|done| |done|done| | |done].
  - rewrite Hflags. eapply Forall_impl; [exact Hk|].
    intros flag. apply known_flag_elem_of.
  - by apply Forall_removelast_cons in Hdots.
  - by apply Forall_removelast_cons in Hstars.
Qed.

Lemma parseTargets_accepted_witness :
  ∃ t, parseTargets sample_world ["-r"; "."; "sub"; "*.txt"] = ("", Ret t) ∧
       dir t = "sub" ∧ pattern t = "*.txt" ∧ flags t = ["-r"].
Proof.
  destruct (parseTargets sample_world ["-r"; "."; "sub"; "*.txt"])
    as [out [t|s]] eqn:Hparse; [|vm_compute in Hparse; discriminate].
  destruct (parseTargets_accepted sample_world ["-r"; "."; "sub"; "*.txt"]
              out t Hparse) as (-> & Hflags & _ & Hdir & Hpat & _).
  exists t. split_and!; [reflexivity|exact Hdir|exact Hpat|exact Hflags].
Defined.

Section UnknownFlag.
Context {L : Library}.

(** X18.  An unknown flag is fatal wherever it stands among the arguments: the
    run ends with an error message and status 1, and nothing is listed. *)
Theorem unknown_flag_fatal (w : world) (args : list string) (flag : string) :
  flag ∈ args →
  starts_with_dash flag = true →
  existsb (String.eqb flag) known_flags = false →
  ∃ msg, main w args = (error_text msg, Exit 1).
Proof.
  intros Hin Hdash Hunknown.
  destruct (parseTargets w args) as [out [t|s]] eqn:Hparse.
  - exfalso.
    destruct (parseTargets_fold w args _ _ Hparse)
      as [[-> _]|(_ & Hfold & _)].
    { by apply elem_of_nil in Hin. }
    destruct (fold_parse_arg_ret _ _ _ _ Hfold) as (Hk & _).
    rewrite Forall_forall in Hk.
    assert (flag ∈ List.filter starts_with_dash args) as Hfl.
    { apply list_elem_of_In, filter_In. split; [|done].
      by apply list_elem_of_In. }
    specialize (Hk flag Hfl). congruence.
  - destruct (main_usage_error w args out s Hparse) as [Hmain [msg ->]].
    by exists msg.
Qed.

End UnknownFlag.

Lemma unknown_flag_fatal_witness :
  ∃ msg, main sample_world ["-r"; "sub"; "-x"] = (error_text msg, Exit 1).
Proof.
  apply (unknown_flag_fatal sample_world ["-r"; "sub"; "-x"] "-x").
  - do 2 right. left.
  - reflexivity.
  - reflexivity.
Defined.

(** ** The loop over the flags *)

Lemma is_one_of_eq (flag short long : string) :
  is_one_of flag short long = true → flag = short ∨ flag = long.
Proof.
  unfold is_one_of. intros [H|H]%orb_true_iff; apply String.eqb_eq in H; auto.
Qed.

Lemma features_of_nil (f : features) : features_of f [] = f.
Proof.
  destruct f. unfold features_of, has_flag. simpl.
  by rewrite !orb_false_r.
Qed.

Lemma apply_flag_features (f : features) (flag : string) :
  is_help flag = false →
  ∃ f', apply_flag f flag = mret f' ∧
        ∀ fl, features_of f' fl = features_of f (flag :: fl).
Proof.
  unfold is_help, apply_flag. intros Hh. rewrite Hh.
  destruct f as [r t l w p].
  destruct (is_one_of flag "-r" "--recursive") eqn:H1.
  { eexists. split; [done|]. intros fl.
    apply is_one_of_eq in H1 as [-> | ->];
      unfold features_of, has_flag; simpl; by rewrite ?orb_true_r. }
  destruct (is_one_of flag "-t" "--total") eqn:H2.
  { eexists. split; [done|]. intros fl.
    apply is_one_of_eq in H2 as [-> | ->];
      unfold features_of, has_flag; simpl; by rewrite ?orb_true_r. }
  destruct (is_one_of flag "-l" "--list") eqn:H3.
  { eexists. split; [done|]. intros fl.
    apply is_one_of_eq in H3 as [-> | ->];
      unfold features_of, has_flag; simpl; by rewrite ?orb_true_r. }
  destruct (is_one_of flag "-w" "--wide") eqn:H4.
  { eexists. split; [done|]. intros fl.
    apply is_one_of_eq in H4 as [-> | ->];
      unfold features_of, has_flag; simpl; by rewrite ?orb_true_r. }
  destruct (is_one_of flag "-p" "--pause") eqn:H5.
  { eexists. split; [done|]. intros fl.
    apply is_one_of_eq in H5 as [-> | ->];
      unfold features_of, has_flag; simpl; by rewrite ?orb_true_r. }
  eexists. split; [done|]. intros fl.
  unfold features_of, has_flag. cbn [existsb].
  by rewrite H1, H2, H3, H4, H5.
Qed.

(** X19.  Without a help flag the loop over the flags writes nothing and sets
    each feature variable exactly when one of the two spellings of its
    flag is present: how often and in which order the flags are given
    makes no difference. *)
Theorem features_of_flags (fl : list string) (f : features) :
  existsb is_help fl = false →
  fold_io apply_flag fl f = ("", Ret (features_of f fl)) ∧
  ∀ fl', fl' ≡ₚ fl → fold_io apply_flag fl' f = fold_io apply_flag fl f.
Proof.
  assert (∀ fl f, existsb is_help fl = false →
            fold_io apply_flag fl f = ("", Ret (features_of f fl))) as Hform.
  { clear fl f. induction fl as [|flag fl IH]; intros f Hh.
    - by rewrite features_of_nil.
    - cbn [existsb] in Hh. apply orb_false_iff in Hh as [Hflag Hfl].
      change (fold_io apply_flag (flag :: fl) f)
        with (apply_flag f flag ≫= fold_io apply_flag fl).
      destruct (apply_flag_features f flag Hflag) as (f' & -> & Hf').
      by rewrite io_bind_ret, IH, Hf'. }
  intros Hh. split; [by apply Hform|].
  intros fl' Hperm.
  assert (existsb is_help fl' = false) as Hh'.
  { apply not_true_is_false. intros (x & Hx & Hhelp)%existsb_exists.
    assert (existsb is_help fl = true) as Habs; [|congruence].
    apply existsb_exists. exists x. split; [|done].
    apply list_elem_of_In. rewrite <- Hperm. by apply list_elem_of_In. }
  rewrite !Hform by done. do 2 f_equal.
  unfold features_of, has_flag.
  assert (∀ q, existsb q fl' = existsb q fl) as Hex.
  { intros q. apply eq_true_iff_eq. rewrite !existsb_exists.
    split; intros (x & Hx & Hq); exists x; split; try done;
      apply list_elem_of_In; apply list_elem_of_In in Hx;
      [by rewrite <- Hperm|by rewrite Hperm]. }
  by rewrite !Hex.
Qed.

Lemma features_of_flags_witness :
  fold_io apply_flag ["-w"; "--recursive"; "-w"; "-t"]
    {| recursive := false; showTotalSize := false; forceList := false;
       forceWide := false; screenPause := false |}
  = ("", Ret {| recursive := true; showTotalSize := true; forceList := false;
                forceWide := true; screenPause := false |}).
Proof.
  assert (existsb is_help ["-w"; "--recursive"; "-w"; "-t"] = false) as Hh
    by reflexivity.
  exact (proj1 (features_of_flags ["-w"; "--recursive"; "-w"; "-t"]
                  {| recursive := false; showTotalSize := false;
                     forceList := false; forceWide := false;
                     screenPause := false |} Hh)).
Defined.

(** ** How a run ends *)

Lemma ends_in_bind {A B} allowed (x : io A) (f : A → io B) :
  ends_in allowed x → (∀ a, ends_in allowed (f a)) →
  ends_in allowed (x ≫= f).
Proof.
  destruct x as [out [a|s]]; intros Hx Hf.
  - rewrite io_bind_out. unfold ends_in in *. cbn [snd]. apply Hf.
  - by rewrite io_bind_stop.
Qed.

Lemma ends_in_fold {A S} allowed (f : S → A → io S) (l : list A) (s : S) :
  (∀ s a, ends_in allowed (f s a)) → ends_in allowed (fold_io f l s).
Proof.
  intros Hf. revert s. induction l as [|x l IH]; intros s; [done|].
  change (fold_io f (x :: l) s) with (f s x ≫= fold_io f l).
  by apply ends_in_bind.
Qed.

Lemma ends_in_if {A} allowed (b : bool) (x y : io A) :
  ends_in allowed x → ends_in allowed y →
  ends_in allowed (if b then x else y).
Proof. by destruct b. Qed.

Lemma ends_in_weaken {A} (allowed allowed' : termination → bool) (x : io A) :
  (∀ t, allowed t = true → allowed' t = true) →
  ends_in allowed x → ends_in allowed' x.
Proof.
  unfold ends_in. intros Hsub. destruct x as [out [a|s]]; simpl; auto.
Qed.

Lemma displayMultiColumn_ends tty entries :
  ends_in listing_stop (displayMultiColumn tty entries).
Proof.
  destruct (Z.ltb_spec (maxWidth_of tty) 18) as [Hlt|Hge].
  - rewrite displayMultiColumn_narrow; [done|]. unfold maxWidth_of in Hlt.
    destruct (Z.ltb_spec 0 (ws_col tty)); lia.
  - by rewrite displayMultiColumn_wide.
Qed.

Section Ends.
Context {L : Library}.
Variables (tty : winsize) (pattern : string).
Variables (recursive showTotalSize forceList forceWide : bool).
Variable (screenHeight : Z).

Lemma scan_entry_ends st e :
  ends_in listing_stop (scan_entry pattern recursive showTotalSize st e).
Proof. unfold scan_entry. repeat case_match; done. Qed.

Lemma listDirectoryContents_ends fuel :
  ∀ path children c,
    ends_in listing_stop
      (listDirectoryContents fuel tty path children pattern recursive
         showTotalSize forceList forceWide c screenHeight).
Proof.
  induction fuel as [|fuel IH]; intros path children c; [done|].
  change (listDirectoryContents (S fuel) tty path children pattern recursive
            showTotalSize forceList forceWide c screenHeight)
    with (scan pattern recursive showTotalSize children c ≫= λ st,
          render_level tty
            (use_multi_column forceList forceWide
               (Z.of_nat (length (all_entries st))) screenHeight)
            (all_entries st) (showTotalSize && negb recursive);;
          if recursive then
            descend
              (λ path children c,
                 listDirectoryContents fuel tty path children pattern
                   recursive showTotalSize forceList forceWide c screenHeight)
              path (sorted_directories st) (tally st)
          else mret (tally st)).
  apply ends_in_bind.
  { apply ends_in_fold. intros st e. apply scan_entry_ends. }
  intros st. apply ends_in_bind.
  { unfold render_level. case_match.
    - apply displayMultiColumn_ends.
    - by rewrite display_list_text. }
  intros []. apply ends_in_if; [|done].
  apply ends_in_fold. intros c' d. cbv beta zeta.
  apply ends_in_bind; [done|]. intros [].
  apply ends_in_bind; [by destruct d|]. intros children'. apply IH.
Qed.

End Ends.

Lemma apply_flag_ends (f : features) (flag : string) :
  ends_in run_stop (apply_flag f flag).
Proof.
  destruct (is_help flag) eqn:Hh.
  - by rewrite apply_flag_help.
  - by destruct (apply_flag_no_help f flag Hh) as [f' ->].
Qed.

Section ExitStatus.
Context {L : Library}.

(** X20.  A run of [main] ends in one of four ways: status 0, status 1, an
    uncaught exception or a division by zero; it never reads a vector
    past its end.  The status is 1 exactly when [parseTargets] rejects
    the arguments. *)
Theorem main_exit_status (w : world) (args : list string) :
  (main w args).2 ∈ [Exit 0; Exit 1; Uncaught; DivisionByZero] ∧
  ((main w args).2 = Exit 1 ↔ ∃ out s, parseTargets w args = (out, Stop s)).
Proof.
  destruct (parseTargets w args) as [out [t|s]] eqn:Hparse.
  - assert (ends_in run_stop (main_body w args)) as Hends.
    { unfold main_body. cbv zeta. rewrite Hparse.
      pose proof (parseTargets_form w args _ _ Hparse) as [-> _].
      rewrite io_bind_silent.
      apply ends_in_bind.
      { apply ends_in_fold. intros f flag. apply apply_flag_ends. }
      intros f. apply ends_in_bind.
      - unfold list_target. repeat case_match; try done;
          (apply ends_in_bind; [by destruct e|]); intros children;
          (apply (ends_in_weaken listing_stop); [by intros []|]);
          apply listDirectoryContents_ends.
      - intros c. unfold displaySummary. cbv zeta.
        rewrite !io_bind_write. done. }
    pose proof (main_within_fuel w args) as Hfuel.
    unfold main in *. unfold ends_in in Hends.
    destruct (main_body w args) as [o [[]|s]]; cbn [fst snd] in *.
    + split; [by left|]. split; [intros [=]|intros (? & ? & [=])].
    + destruct s as [status| | | |]; simpl in Hends; try done.
      * apply Z.eqb_eq in Hends as ->.
        split; [by left|]. split; [intros [=]|intros (? & ? & [=])].
      * split; [set_solver|]. split; [intros [=]|intros (? & ? & [=])].
      * split; [set_solver|]. split; [intros [=]|intros (? & ? & [=])].
  - destruct (main_usage_error w args out s Hparse) as [-> _]. cbn [snd].
    split; [set_solver|]. split; [eauto|done].
Qed.

End ExitStatus.

(** ** Colours, and the value that [printEntry] returns *)

Lemma categorizeFile_not_Hidden (e : entry) : categorizeFile e ≠ Hidden.
Proof.
  unfold categorizeFile, count. cbv zeta.
  generalize (toLower (extension (name_of e))) as ext.
  generalize programmingExtensions as P, textExtensions as T,
    videoExtensions as V, pictureExtensions as I, compressedExtensions as C.
  intros P T V I C ext. repeat case_match; discriminate.
Qed.

Lemma is_prefix_app (p s : string) : is_prefix p (p +:+ s) = true.
Proof.
  induction p as [|c p IH]; [done|]. rewrite app_cons. simpl.
  by rewrite Ascii.eqb_refl.
Qed.

Lemma getColor_not_dark (type : FileType) (isDirectory : bool) (s : string) :
  type ≠ Hidden →
  is_prefix (ESC +:+ "[1;30m") (getColor type isDirectory +:+ s) = false.
Proof.
  intros Hty. destruct isDirectory; [reflexivity|].
  destruct type; try done; reflexivity.
Qed.

Lemma color_of_dark (hidden : bool) (type : FileType) (isDirectory : bool)
    (s : string) :
  type ≠ Hidden →
  is_prefix (ESC +:+ "[1;30m") (color_of hidden type isDirectory +:+ s)
  = hidden.
Proof.
  intros Hty. unfold color_of. destruct hidden.
  - apply is_prefix_app.
  - by apply getColor_not_dark.
Qed.

Section Returned.
Context {L : Library}.

(** X21.  The category [Hidden] is never passed to [getColor]: in both
    views the type is [Other] for a directory and the answer of
    [categorizeFile] otherwise.  A cell of the grid therefore starts with
    the dark gray sequence exactly when the name of the entry starts
    with a dot, and so does what a line of the detailed list holds after
    its glyph. *)
Theorem dark_gray_iff_hidden (e : entry) (flag : bool) :
  (if is_directory e then Other else categorizeFile e) ≠ Hidden ∧
  is_prefix (ESC +:+ "[1;30m") (grid_cell e) = isHidden e ∧
  ∃ rest,
    (printEntry e flag).1
    = emoji_of (if is_directory e then Other else categorizeFile e)
               (is_directory e) +:+ rest ∧
    is_prefix (ESC +:+ "[1;30m") rest = isHidden e.
Proof.
  assert ((if is_directory e then Other else categorizeFile e) ≠ Hidden)
    as Hty.
  { destruct (is_directory e); [discriminate|].
    apply categorizeFile_not_Hidden. }
  split_and!; [exact Hty| |].
  - unfold grid_cell. cbv zeta. by apply color_of_dark.
  - unfold printEntry. cbv zeta.
    destruct (is_regular_file e), (is_directory e && flag); cbn [fst];
      rewrite !app_assoc_string; (eexists; split; [reflexivity|]);
      by apply color_of_dark.
Qed.

(** X22.  For a matched entry that is a directory or a regular file, the
    first loop of [listDirectoryContents] adds to [totalSizeShown] the
    very size that [printEntry] returns for the entry when it is printed
    with the flag [showTotalSize && !recursive], and that its caller
    drops: the size of a regular file, the recursive total of a directory
    when totals are shown, and 0 otherwise.  The total of a directory is
    thus computed twice, with the same result. *)
Theorem printEntry_returns_contribution (pattern : string)
    (recursive showTotalSize : bool) (st : scan_state) (e : entry) :
  matched pattern e = true →
  is_directory e || is_regular_file e = true →
  0 ≤ totalSizeShown (tally st) < 2 ^ 64 →
  ∃ st',
    scan_entry pattern recursive showTotalSize st e = mret st' ∧
    totalSizeShown (tally st')
    = uintmax_add (totalSizeShown (tally st))
        (printEntry e (showTotalSize && negb recursive)).2 ∧
    (printEntry e (showTotalSize && negb recursive)).2
    = size_contribution pattern recursive showTotalSize e.
Proof.
  intros Hm Hkind Hrange.
  assert (uintmax_add (totalSizeShown (tally st)) 0
          = totalSizeShown (tally st)) as Hzero.
  { unfold uintmax_add. rewrite Z.add_0_r. by apply Z.mod_small. }
  unfold size_contribution. rewrite Hm.
  destruct e as [m size|m|m ch|m ch|m]; try discriminate.
  - rewrite scan_entry_regular by done. eexists. split; [reflexivity|].
    unfold printEntry. simpl.
    by destruct (showTotalSize && negb recursive).
  - rewrite scan_entry_directory by done. eexists. split; [reflexivity|].
    unfold printEntry. simpl.
    by destruct (showTotalSize && negb recursive).
  - rewrite scan_entry_directory by done. eexists. split; [reflexivity|].
    unfold printEntry. simpl.
    by destruct (showTotalSize && negb recursive).
  - rewrite scan_entry_directory by done. eexists. split; [reflexivity|].
    unfold printEntry. simpl.
    by destruct (showTotalSize && negb recursive).
Qed.

End Returned.

Lemma printEntry_returns_contribution_witness :
  ∃ st',
    scan_entry "*" false true
      {| directories := []; files := [];
         tally := {| totalFiles := 0; totalDirs := 0; totalSizeShown := 7 |} |}
      sample_sub = mret st' ∧
    totalSizeShown (tally st') = 5000307 ∧
    (printEntry sample_sub true).2 = 5000300.
Proof.
  assert (0 ≤ 7 < 2 ^ 64) as Hrange by lia.
  assert (matched "*" sample_sub = true) as Hm by reflexivity.
  assert (is_directory sample_sub || is_regular_file sample_sub = true)
    as Hkind by reflexivity.
  destruct (printEntry_returns_contribution "*" false true
              {| directories := []; files := [];
                 tally := {| totalFiles := 0; totalDirs := 0;
                             totalSizeShown := 7 |} |}
              sample_sub Hm Hkind Hrange) as (st' & Hscan & Hsz & _).
  exists st'. split_and!; [exact Hscan| |vm_compute; reflexivity].
  rewrite Hsz. vm_compute. reflexivity.
Defined.
